(** * Transport log PWA: session tracking and outbox synchronisation

    A shallow embedding of [src/geo.ts], [src/db.ts] and the session and
    synchronisation functions of [src/main.ts].

    Modelling conventions.
    - A JavaScript [number] that holds a measurement (latitude, distance,
      litres, cost) is an IEEE-754 binary64 value: Rocq's primitive [float],
      whose [+], [-], [*], [/] and comparisons round exactly as the
      JavaScript ones do.
    - A [number] that holds epoch milliseconds or a count of minutes is an
      integer in [Z] (every value the program builds this way is an integer
      far below 2^53, where binary64 arithmetic on integers is exact).
    - The functions the language leaves to the host ([Math.sin],
      [Number.prototype.toFixed], [Date.prototype.toISOString], ...) are the
      fields of a [Host] record; what the program reads from its
      surroundings (clock, geolocation, prompts, network) comes from an
      [Env] record of oracles indexed by the number of earlier queries.
    - Module-level variables, the IndexedDB database and the observable
      effects (alerts, requests sent) live in one [World] value threaded
      through a state-and-exception monad [Js].
    - A handler call runs to completion before the next one starts, except
      where presses that overlap are looked at: there the part of a press
      before its [await] and the part after it are [toggleChoice] and
      [toggleSettle]. [render()] and the one-second repaint timer only
      redraw the page and are left out. *)

From Stdlib Require Import ZArith List String Ascii Bool Lia Floats DecimalString.
Import ListNotations.

Local Open Scope Z_scope.

(* ================================================================== *)
(** * JavaScript values *)

(** [x || 0] on a number: [0], [-0] and [NaN] are falsy. *)
Definition num_truthy (x : float) : bool :=
  negb (PrimFloat.eqb x 0%float) && negb (PrimFloat.is_nan x).

(** Truthiness of a string: only the empty string is falsy. *)
Definition str_truthy (s : string) : bool :=
  match s with EmptyString => false | String _ _ => true end.

(** Truthiness of a possibly-absent string ([undefined] and [null] are falsy). *)
Definition opt_str_truthy (s : option string) : bool :=
  match s with Some s => str_truthy s | None => false end.

(** Truthiness of an integer [number | undefined]. *)
Definition opt_int_truthy (t : option Z) : bool :=
  match t with Some t => negb (t =? 0) | None => false end.

(** A template literal's rendering of an integer. *)
Definition intToString (z : Z) : string := NilZero.string_of_int (Z.to_int z).

(** [Array.prototype.join]. *)
Fixpoint join (sep : string) (l : list string) : string :=
  match l with
  | [] => EmptyString
  | [s] => s
  | s :: rest => (s ++ sep ++ join sep rest)%string
  end.

(** [l[l.length - 1]], which is [undefined] on an empty array. *)
Fixpoint lastOf {A} (l : list A) : option A :=
  match l with
  | [] => None
  | [x] => Some x
  | _ :: rest => lastOf rest
  end.

(** [s.split('T')[0]]: the part of [s] before its first ['T']. *)
Fixpoint beforeT (s : string) : string :=
  match s with
  | EmptyString => EmptyString
  | String c rest => if Ascii.eqb c "T"%char then EmptyString else String c (beforeT rest)
  end.

(* ================================================================== *)
(** * geo.ts *)

Record Coordinate := {
  lat : float;
  lng : float;
  timestamp : Z
}.

(** The numeric functions whose results ECMAScript leaves
    implementation-approximated. [Math_pow] is the [**] operator. *)
Record MathLib := {
  Math_sin : float -> float;
  Math_cos : float -> float;
  Math_sqrt : float -> float;
  Math_atan2 : float -> float -> float;
  Math_pow : float -> float -> float
}.

(** [Math.PI], the binary64 value nearest to pi. *)
Definition Math_PI : float := 0x1.921fb54442d18p+1%float.

Definition EARTH_RADIUS_KM : float := 6371%float.

Definition toRadians (deg : float) : float :=
  ((deg * Math_PI) / 180)%float.

Definition haversineDistance (M : MathLib) (a b : Coordinate) : float :=
  let dLat := toRadians (lat b - lat a)%float in
  let dLon := toRadians (lng b - lng a)%float in
  let lat1 := toRadians (lat a) in
  let lat2 := toRadians (lat b) in
  let h := (Math_pow M (Math_sin M (dLat / 2)) 2
            + Math_pow M (Math_sin M (dLon / 2)) 2 * Math_cos M lat1 * Math_cos M lat2)%float in
  let c := (2 * Math_atan2 M (Math_sqrt M h) (Math_sqrt M (1 - h)))%float in
  (EARTH_RADIUS_KM * c)%float.

(* ================================================================== *)
(** * db.ts *)

Module LogRecord.
Record t := {
  id : option Z;
  date : string;
  departureName : option string;
  arrivalName : option string;
  departureTime : string;
  arrivalTime : option string;
  drivingMinutes : Z;
  breakMinutes : Z;
  distanceKm : float;
  fuelLitres : float;
  fuelCost : float;
  departureLat : float;
  departureLng : float;
  arrivalLat : float;
  arrivalLng : float;
  note : option string
}.

Definition with_id (k : Z) (r : t) : t :=
  {| id := Some k; date := date r; departureName := departureName r;
     arrivalName := arrivalName r; departureTime := departureTime r;
     arrivalTime := arrivalTime r; drivingMinutes := drivingMinutes r;
     breakMinutes := breakMinutes r; distanceKm := distanceKm r;
     fuelLitres := fuelLitres r; fuelCost := fuelCost r;
     departureLat := departureLat r; departureLng := departureLng r;
     arrivalLat := arrivalLat r; arrivalLng := arrivalLng r; note := note r |}.
End LogRecord.

(** An IndexedDB object store created with
    [{ keyPath: 'id', autoIncrement: true }]: rows in ascending key order
    and the key generator's next number. *)
Module IDB.
Record ObjectStore := {
  nextKey : Z;
  rows : list (Z * LogRecord.t)
}.

Definition empty : ObjectStore := {| nextKey := 1; rows := [] |}.

Definition has_key (k : Z) (rs : list (Z * LogRecord.t)) : bool :=
  existsb (fun kr => fst kr =? k) rs.

(** Insertion that keeps the rows in ascending key order. *)
Fixpoint insert_row (k : Z) (r : LogRecord.t) (rs : list (Z * LogRecord.t))
  : list (Z * LogRecord.t) :=
  match rs with
  | [] => [(k, r)]
  | (k', r') :: rest =>
      if k <? k' then (k, r) :: rs else (k', r') :: insert_row k r rest
  end.

(** [store.add(record)]. A record without [id] gets the generator's next
    key, written into the stored copy; a record that carries an [id] uses
    it, and the request fails ([None]) when that key is taken. *)
Definition add (r : LogRecord.t) (s : ObjectStore) : option ObjectStore :=
  match LogRecord.id r with
  | None =>
      let k := nextKey s in
      Some {| nextKey := k + 1; rows := insert_row k (LogRecord.with_id k r) (rows s) |}
  | Some k =>
      if has_key k (rows s) then None
      else Some {| nextKey := Z.max (nextKey s) (k + 1); rows := insert_row k r (rows s) |}
  end.

(** [store.getAll()]: the stored records in ascending key order. *)
Definition getAll (s : ObjectStore) : list LogRecord.t := map snd (rows s).

(** [store.clear()]: removes every row; the key generator keeps counting. *)
Definition clear (s : ObjectStore) : ObjectStore :=
  {| nextKey := nextKey s; rows := [] |}.

(** [store.delete(id)]. *)
Definition delete (k : Z) (s : ObjectStore) : ObjectStore :=
  {| nextKey := nextKey s; rows := filter (fun kr => negb (fst kr =? k)) (rows s) |}.
End IDB.

(** The database [transport-log-db] with its two stores, [STORE_LOGS] and
    [STORE_PENDING]. *)
Record Database := {
  logs : IDB.ObjectStore;
  pending : IDB.ObjectStore
}.

Definition emptyDatabase : Database := {| logs := IDB.empty; pending := IDB.empty |}.

(* ================================================================== *)
(** * main.ts: session data *)

Module BreakLog.
(** [interface BreakLog]; [interface RestLog] has the same members. The
    member [end] is spelled [end_] here. *)
Record t := {
  start : Z;
  end_ : option Z;
  startLat : option float;
  startLng : option float;
  endLat : option float;
  endLng : option float
}.

(** The object after [b.end = now; b.endLat = lat; b.endLng = lng]. *)
Definition close_at (now : Z) (la lo : float) (b : t) : t :=
  {| start := start b; end_ := Some now; startLat := startLat b;
     startLng := startLng b; endLat := Some la; endLng := Some lo |}.

(** The object after [b.end = now] alone. *)
Definition close_bare (now : Z) (b : t) : t :=
  {| start := start b; end_ := Some now; startLat := startLat b;
     startLng := startLng b; endLat := endLat b; endLng := endLng b |}.

(** [{ start: now, startLat: lat, startLng: lng }]. *)
Definition open_at (now : Z) (la lo : float) : t :=
  {| start := now; end_ := None; startLat := Some la; startLng := Some lo;
     endLat := None; endLng := None |}.

(** [{ start: now }]. *)
Definition open_bare (now : Z) : t :=
  {| start := now; end_ := None; startLat := None; startLng := None;
     endLat := None; endLng := None |}.

(** [b.end === undefined]. *)
Definition is_open (b : t) : bool :=
  match end_ b with None => true | Some _ => false end.
End BreakLog.

Definition RestLog := BreakLog.t.

Module FuelEvent.
Record t := {
  time : Z;
  amount : float;
  cost : option float;
  lat : float;
  lng : float
}.
End FuelEvent.

Record SessionState := {
  startTime : Z;
  startCoord : option Coordinate;
  coords : list Coordinate;
  distance : float;
  breaks : list BreakLog.t;
  rests : list RestLog;
  fuelLogs : list FuelEvent.t;
  watchId : option Z
}.

Definition set_coords (v : list Coordinate) (s : SessionState) : SessionState :=
  {| startTime := startTime s; startCoord := startCoord s; coords := v;
     distance := distance s; breaks := breaks s; rests := rests s;
     fuelLogs := fuelLogs s; watchId := watchId s |}.

Definition set_distance (v : float) (s : SessionState) : SessionState :=
  {| startTime := startTime s; startCoord := startCoord s; coords := coords s;
     distance := v; breaks := breaks s; rests := rests s;
     fuelLogs := fuelLogs s; watchId := watchId s |}.

Definition set_breaks (v : list BreakLog.t) (s : SessionState) : SessionState :=
  {| startTime := startTime s; startCoord := startCoord s; coords := coords s;
     distance := distance s; breaks := v; rests := rests s;
     fuelLogs := fuelLogs s; watchId := watchId s |}.

Definition set_rests (v : list RestLog) (s : SessionState) : SessionState :=
  {| startTime := startTime s; startCoord := startCoord s; coords := coords s;
     distance := distance s; breaks := breaks s; rests := v;
     fuelLogs := fuelLogs s; watchId := watchId s |}.

Definition set_fuelLogs (v : list FuelEvent.t) (s : SessionState) : SessionState :=
  {| startTime := startTime s; startCoord := startCoord s; coords := coords s;
     distance := distance s; breaks := breaks s; rests := rests s;
     fuelLogs := v; watchId := watchId s |}.

Definition set_watchId (v : option Z) (s : SessionState) : SessionState :=
  {| startTime := startTime s; startCoord := startCoord s; coords := coords s;
     distance := distance s; breaks := breaks s; rests := rests s;
     fuelLogs := fuelLogs s; watchId := v |}.

Record Config := {
  SHEETS_WEBAPP_URL : option string;
  OPENAI_API_KEY : option string
}.

(* ================================================================== *)
(** * The program's surroundings *)

(** What [res.json()] yields: a rejection, or a value of which the program
    reads only the truthiness of [body && body.ok] and, for its error
    message, the JSON text. *)
Inductive Body :=
| BodyInvalid (message : string)
| BodyJson (text : string) (ok : bool).

(** What [fetch] yields: a rejection, or a response with [res.ok],
    [res.status] and a body. *)
Inductive FetchResult :=
| FetchRejected (message : string)
| FetchResponse (ok : bool) (status : Z) (body : Body).

(** Oracles for everything the program asks of its surroundings; the
    natural number is the count of earlier queries of the same kind. *)
Record Env := {
  Date_now : nat -> Z;
  (** [navigator.geolocation.getCurrentPosition(...)]: the position handed
      to the success callback, [None] when the error callback is called. *)
  position : nat -> option (float * float);
  (** [prompt(...)]: [None] when the dialog is cancelled. *)
  prompt_answer : nat -> option string;
  (** [watchPosition(...)]: [None] when geolocation is unsupported. *)
  watch_handle : nat -> option Z;
  fetch_response : nat -> LogRecord.t -> FetchResult
}.

(** Host functions of the language and the browser that the program calls
    on numbers, dates and strings. *)
Record Host := {
  math : MathLib;
  toISOString : Z -> string;
  toFixed : float -> nat -> string;
  numberToString : float -> string;
  parseFloat : string -> float;
  trim : string -> string;
  (** How many nested calls of [promptForCoords] the engine's call stack
      has room for. *)
  stackDepth : nat
}.

Record World := {
  currentSession : option SessionState;
  appConfig : Config;
  onLine : bool;
  database : Database;
  clockReads : nat;
  positionReads : nat;
  promptReads : nat;
  watchReads : nat;
  (** Bodies of the requests handed to [fetch], oldest first. *)
  requests : list LogRecord.t;
  (** Messages shown with [alert], oldest first. *)
  alerts : list string;
  (** Arguments of [clearWatch], oldest first. *)
  clearedWatches : list Z
}.

Definition set_currentSession (v : option SessionState) (w : World) : World :=
  {| currentSession := v; appConfig := appConfig w; onLine := onLine w;
     database := database w; clockReads := clockReads w;
     positionReads := positionReads w; promptReads := promptReads w;
     watchReads := watchReads w; requests := requests w; alerts := alerts w;
     clearedWatches := clearedWatches w |}.

Definition set_database (v : Database) (w : World) : World :=
  {| currentSession := currentSession w; appConfig := appConfig w; onLine := onLine w;
     database := v; clockReads := clockReads w;
     positionReads := positionReads w; promptReads := promptReads w;
     watchReads := watchReads w; requests := requests w; alerts := alerts w;
     clearedWatches := clearedWatches w |}.

Definition set_clockReads (v : nat) (w : World) : World :=
  {| currentSession := currentSession w; appConfig := appConfig w; onLine := onLine w;
     database := database w; clockReads := v;
     positionReads := positionReads w; promptReads := promptReads w;
     watchReads := watchReads w; requests := requests w; alerts := alerts w;
     clearedWatches := clearedWatches w |}.

Definition set_positionReads (v : nat) (w : World) : World :=
  {| currentSession := currentSession w; appConfig := appConfig w; onLine := onLine w;
     database := database w; clockReads := clockReads w;
     positionReads := v; promptReads := promptReads w;
     watchReads := watchReads w; requests := requests w; alerts := alerts w;
     clearedWatches := clearedWatches w |}.

Definition set_promptReads (v : nat) (w : World) : World :=
  {| currentSession := currentSession w; appConfig := appConfig w; onLine := onLine w;
     database := database w; clockReads := clockReads w;
     positionReads := positionReads w; promptReads := v;
     watchReads := watchReads w; requests := requests w; alerts := alerts w;
     clearedWatches := clearedWatches w |}.

Definition set_watchReads (v : nat) (w : World) : World :=
  {| currentSession := currentSession w; appConfig := appConfig w; onLine := onLine w;
     database := database w; clockReads := clockReads w;
     positionReads := positionReads w; promptReads := promptReads w;
     watchReads := v; requests := requests w; alerts := alerts w;
     clearedWatches := clearedWatches w |}.

Definition set_requests (v : list LogRecord.t) (w : World) : World :=
  {| currentSession := currentSession w; appConfig := appConfig w; onLine := onLine w;
     database := database w; clockReads := clockReads w;
     positionReads := positionReads w; promptReads := promptReads w;
     watchReads := watchReads w; requests := v; alerts := alerts w;
     clearedWatches := clearedWatches w |}.

Definition set_alerts (v : list string) (w : World) : World :=
  {| currentSession := currentSession w; appConfig := appConfig w; onLine := onLine w;
     database := database w; clockReads := clockReads w;
     positionReads := positionReads w; promptReads := promptReads w;
     watchReads := watchReads w; requests := requests w; alerts := v;
     clearedWatches := clearedWatches w |}.

Definition set_clearedWatches (v : list Z) (w : World) : World :=
  {| currentSession := currentSession w; appConfig := appConfig w; onLine := onLine w;
     database := database w; clockReads := clockReads w;
     positionReads := positionReads w; promptReads := promptReads w;
     watchReads := watchReads w; requests := requests w; alerts := alerts w;
     clearedWatches := v |}.

(* ================================================================== *)
(** * The [Js] monad: state and exceptions *)

(** How a piece of JavaScript ends: normally with a value, or by throwing
    (for an [async] function: by rejecting) with an error message. *)
Inductive Completion (A : Type) : Type :=
| Normal (a : A)
| Thrown (message : string).

Arguments Normal {A} a.
Arguments Thrown {A} message.

Definition Js (A : Type) : Type := World -> Completion A * World.

Definition ret {A} (a : A) : Js A := fun w => (Normal a, w).

Definition throw {A} (message : string) : Js A := fun w => (Thrown message, w).

Definition bind {A B} (c : Js A) (k : A -> Js B) : Js B :=
  fun w =>
    match c w with
    | (Normal a, w') => k a w'
    | (Thrown m, w') => (Thrown m, w')
    end.

(** [try { body } catch (err) { handler err }]. *)
Definition try_catch {A} (body : Js A) (handler : string -> Js A) : Js A :=
  fun w =>
    match body w with
    | (Normal a, w') => (Normal a, w')
    | (Thrown m, w') => handler m w'
    end.

Definition get : Js World := fun w => (Normal w, w).

Definition modify (f : World -> World) : Js unit := fun w => (Normal tt, f w).

Declare Scope js_scope.
Delimit Scope js_scope with js.
Notation "x <- c ;; k" := (bind c (fun x => k))
  (at level 61, c at next level, right associativity) : js_scope.
Notation "c ;; k" := (bind c (fun _ => k))
  (at level 61, right associativity) : js_scope.
Local Open Scope js_scope.

(** The world a computation leaves behind, and how it completed. *)
Definition exec {A} (c : Js A) (w : World) : World := snd (c w).
Definition completion {A} (c : Js A) (w : World) : Completion A := fst (c w).

(** Mutation of the object held in [currentSession]; nothing happens when
    the variable is [null]. *)
Definition updateSession (f : SessionState -> SessionState) : Js unit :=
  modify (fun w =>
    match currentSession w with
    | Some s => set_currentSession (Some (f s)) w
    | None => w
    end).

(* ================================================================== *)
(** * db.ts: the exported operations *)

(** [saveLog(record, pending)]: one read-write transaction over both
    stores. A failed [add] aborts the transaction, which undoes its
    writes and rejects the promise. *)
Definition saveLog (record : LogRecord.t) (pending_flag : bool) : Js unit :=
  fun w =>
    let d := database w in
    match IDB.add record (logs d) with
    | None => (Thrown "ConstraintError", w)
    | Some logs' =>
        if pending_flag then
          match IDB.add record (pending d) with
          | None => (Thrown "ConstraintError", w)
          | Some pending' =>
              (Normal tt, set_database {| logs := logs'; pending := pending' |} w)
          end
        else (Normal tt, set_database {| logs := logs'; pending := pending d |} w)
    end.

Definition getAllLogs : Js (list LogRecord.t) :=
  fun w => (Normal (IDB.getAll (logs (database w))), w).

Definition getPendingLogs : Js (list LogRecord.t) :=
  fun w => (Normal (IDB.getAll (pending (database w))), w).

Definition clearPendingLogs : Js unit :=
  modify (fun w =>
    set_database {| logs := logs (database w);
                    pending := IDB.clear (pending (database w)) |} w).

Definition deleteLogById (k : Z) : Js unit :=
  modify (fun w =>
    set_database {| logs := IDB.delete k (logs (database w));
                    pending := IDB.delete k (pending (database w)) |} w).

(* ================================================================== *)
(** * main.ts: the handlers *)

(** [input.split(',')]. *)
Fixpoint splitComma (s : string) : list string :=
  match s with
  | EmptyString => [EmptyString]
  | String c rest =>
      if Ascii.eqb c ","%char then EmptyString :: splitComma rest
      else
        match splitComma rest with
        | part :: parts => String c part :: parts
        | [] => [String c EmptyString]
        end
  end.

Section Main.

Variable H : Host.
Variable E : Env.

(** ** Queries of the surroundings *)

(** [Date.now()]. *)
Definition dateNow : Js Z :=
  fun w => (Normal (Date_now E (clockReads w)), set_clockReads (S (clockReads w)) w).

(** [prompt(message, default)]. *)
Definition prompt : Js (option string) :=
  fun w => (Normal (prompt_answer E (promptReads w)), set_promptReads (S (promptReads w)) w).

(** [alert(message)]. *)
Definition alert (message : string) : Js unit :=
  modify (fun w => set_alerts (alerts w ++ [message]) w).

(** [promptForCoords(message)]. The function calls itself for as long as
    the user types something it cannot read; [fuel] bounds the number of
    prompts, and [None] is returned when it runs out. *)
Fixpoint promptForCoords (fuel : nat) : Js (option (float * float)) :=
  match fuel with
  | O => ret None
  | S fuel' =>
      input <- prompt ;;
      match input with
      | None => throw "緯度・経度の入力がキャンセルされました"
      | Some EmptyString => throw "緯度・経度の入力がキャンセルされました"
      | Some input =>
          match splitComma input with
          | [part0; part1] =>
              let la := parseFloat H (trim H part0) in
              let lo := parseFloat H (trim H part1) in
              if (PrimFloat.is_nan la || PrimFloat.is_nan lo)%bool then
                alert "緯度または経度が正しくありません" ;;
                promptForCoords fuel'
              else ret (Some (la, lo))
          | _ =>
              alert "緯度と経度をカンマ区切りで入力してください" ;;
              promptForCoords fuel'
          end
      end
  end.

(** [await getCurrentPositionOrPrompt()]: the position the device
    reports; when the device reports an error instead, what
    [promptForCoords] makes of the lines the user types, with its
    prompts and alerts. The promise rejects when [promptForCoords]
    throws: on a cancelled or empty prompt, and when the lines typed are
    unreadable for so long that the nested calls exhaust the call stack. *)
Definition getCurrentPositionOrPrompt : Js (float * float) :=
  fun w =>
    let w' := set_positionReads (S (positionReads w)) w in
    match position E (positionReads w) with
    | Some p => (Normal p, w')
    | None =>
        (typed <- promptForCoords (stackDepth H) ;;
         match typed with
         | Some p => ret p
         | None => throw "RangeError: Maximum call stack size exceeded"
         end) w'
    end.

(** [watchPosition(callback, errorCallback)] of geo.ts. *)
Definition watchPosition : Js Z :=
  fun w =>
    let w' := set_watchReads (S (watchReads w)) w in
    match watch_handle E (watchReads w) with
    | Some k => (Normal k, w')
    | None => (Thrown "Geolocation is not supported by this browser", w')
    end.

(** [clearWatch(watchId)] of geo.ts. *)
Definition clearWatch (k : Z) : Js unit :=
  modify (fun w => set_clearedWatches (clearedWatches w ++ [k]) w).

(** [await fetch(url, { method: 'POST', ..., body: JSON.stringify(record) })]. *)
Definition fetch (record : LogRecord.t) : Js FetchResult :=
  fun w =>
    (Normal (fetch_response E (List.length (requests w)) record),
     set_requests (requests w ++ [record]) w).

(** ** startSession *)

Definition startSession : Js unit :=
  w <- get ;;
  match currentSession w with
  | Some _ => ret tt
  | None =>
      try_catch
        (p <- getCurrentPositionOrPrompt ;;
         t0 <- dateNow ;;
         let coord := {| lat := fst p; lng := snd p; timestamp := t0 |} in
         t1 <- dateNow ;;
         modify (set_currentSession (Some
           {| startTime := t1; startCoord := Some coord; coords := [coord];
              distance := 0%float; breaks := []; rests := []; fuelLogs := [];
              watchId := None |})) ;;
         k <- watchPosition ;;
         updateSession (set_watchId (Some k)))
        (fun message => alert ("現在位置の取得に失敗しました: " ++ message))
  end.

(** ** handleLocationUpdate *)

Definition handleLocationUpdate (coord : Coordinate) : Js unit :=
  w <- get ;;
  match currentSession w with
  | None => ret tt
  | Some s =>
      match lastOf (coords s) with
      | None => throw "TypeError: Cannot read properties of undefined"
      | Some last_coord =>
          let delta := haversineDistance (math H) last_coord coord in
          if (50 <=? delta * 1000)%float then
            updateSession (fun s => set_distance (distance s + delta)%float s) ;;
            updateSession (fun s => set_coords (coords s ++ [coord]) s)
          else ret tt
      end
  end.

(** ** toggleBreak and toggleRest *)

(** [l[l.length - 1] = f(l[l.length - 1])]: the last object of the array
    is mutated in place. *)
Fixpoint update_last {A} (f : A -> A) (l : list A) : list A :=
  match l with
  | [] => []
  | [x] => [f x]
  | x :: rest => x :: update_last f rest
  end.

(** [l.length > 0 && l[l.length - 1].end === undefined]. *)
Definition last_is_open (l : list BreakLog.t) : bool :=
  match lastOf l with
  | Some b => BreakLog.is_open b
  | None => false
  end.

(** The body shared by [toggleBreak] and [toggleRest], which differ only
    in the array they work on. *)
Definition toggleInterval (read : SessionState -> list BreakLog.t)
    (write : list BreakLog.t -> SessionState -> SessionState) : Js unit :=
  w <- get ;;
  match currentSession w with
  | None => ret tt
  | Some s =>
      if last_is_open (read s) then
        try_catch
          (p <- getCurrentPositionOrPrompt ;;
           now <- dateNow ;;
           updateSession (fun s =>
             write (update_last (BreakLog.close_at now (fst p) (snd p)) (read s)) s))
          (fun _ =>
           now <- dateNow ;;
           updateSession (fun s => write (update_last (BreakLog.close_bare now) (read s)) s))
      else
        try_catch
          (p <- getCurrentPositionOrPrompt ;;
           now <- dateNow ;;
           updateSession (fun s => write (read s ++ [BreakLog.open_at now (fst p) (snd p)]) s))
          (fun _ =>
           now <- dateNow ;;
           updateSession (fun s => write (read s ++ [BreakLog.open_bare now]) s))
  end.

Definition toggleBreak : Js unit := toggleInterval breaks set_breaks.

Definition toggleRest : Js unit := toggleInterval rests set_rests.

(** ** addFuel *)

(** Lines 527 to 531: [let cost = 0; if (costStr) { const c =
    parseFloat(costStr); if (!isNaN(c) && c > 0) cost = c; }]. *)
Definition costOfInput (costStr : option string) : float :=
  match costStr with
  | Some text =>
      if str_truthy text then
        let c := parseFloat H text in
        if (negb (PrimFloat.is_nan c) && (0 <? c)%float)%bool then c else 0%float
      else 0%float
  | None => 0%float
  end.

Definition addFuel : Js unit :=
  w <- get ;;
  match currentSession w with
  | None => ret tt
  | Some _ =>
      amountStr <- prompt ;;
      match amountStr with
      | None => ret tt
      | Some EmptyString => ret tt
      | Some amountStr =>
          let amount := parseFloat H amountStr in
          if (PrimFloat.is_nan amount || (amount <=? 0)%float)%bool then
            alert "数値を入力してください。"
          else
            costStr <- prompt ;;
            let cost := costOfInput costStr in
            try_catch
              (p <- getCurrentPositionOrPrompt ;;
               now <- dateNow ;;
               updateSession (fun s => set_fuelLogs (fuelLogs s ++
                 [{| FuelEvent.time := now; FuelEvent.amount := amount;
                     FuelEvent.cost := Some cost;
                     FuelEvent.lat := fst p; FuelEvent.lng := snd p |}]) s))
              (fun _ =>
               now <- dateNow ;;
               updateSession (fun s => set_fuelLogs (fuelLogs s ++
                 [{| FuelEvent.time := now; FuelEvent.amount := amount;
                     FuelEvent.cost := Some cost;
                     FuelEvent.lat := 0%float; FuelEvent.lng := 0%float |}]) s))
      end
  end.

(** ** postLog and sendPendingIfOnline *)

Definition postLog (record : LogRecord.t) : Js unit :=
  w <- get ;;
  if negb (opt_str_truthy (SHEETS_WEBAPP_URL (appConfig w))) then
    throw "SHEETS_WEBAPP_URL is not configured"
  else
    res <- fetch record ;;
    match res with
    | FetchRejected message => throw message
    | FetchResponse ok status body =>
        if negb ok then throw ("Failed to post log: HTTP " ++ intToString status)
        else
          match body with
          | BodyInvalid message => throw message
          | BodyJson text body_ok =>
              if negb body_ok then throw ("Server error: " ++ text) else ret tt
          end
    end.

(** The [for (const record of pending)] loop. The result tells whether the
    loop ran to its end ([true]) or left the function through the
    [return] of the [catch] block ([false]); the [console.warn] there
    only writes to the console. *)
Fixpoint postEach (records : list LogRecord.t) : Js bool :=
  match records with
  | [] => ret true
  | record :: rest =>
      posted <- try_catch (postLog record ;; ret true) (fun _ => ret false) ;;
      if posted then postEach rest else ret false
  end.

Definition sendPendingIfOnline : Js unit :=
  w <- get ;;
  if negb (onLine w) then ret tt
  else if negb (opt_str_truthy (SHEETS_WEBAPP_URL (appConfig w))) then ret tt
  else
    queued <- getPendingLogs ;;
    match queued with
    | [] => ret tt
    | _ :: _ =>
        finished <- postEach queued ;;
        if finished then clearPendingLogs else ret tt
    end.

(** ** totalBreakMs and totalRestMs *)

(** [list.reduce((sum, b) => sum + ((b.end || Date.now()) - b.start), sum0)]. *)
Fixpoint sumIntervals (l : list BreakLog.t) (sum : Z) : Js Z :=
  match l with
  | [] => ret sum
  | b :: rest =>
      e <- (if opt_int_truthy (BreakLog.end_ b)
            then ret (match BreakLog.end_ b with Some e => e | None => 0 end)
            else dateNow) ;;
      sumIntervals rest (sum + (e - BreakLog.start b))
  end.

Definition totalBreakMs (session : SessionState) : Js Z :=
  sumIntervals (breaks session) 0.

Definition totalRestMs (session : SessionState) : Js Z :=
  sumIntervals (rests session) 0.

(** ** endSession *)

(** [list.forEach((x, idx) => out.push(f idx x))], collecting what is pushed. *)
Fixpoint mapi {A B} (f : nat -> A -> B) (idx : nat) (l : list A) : list B :=
  match l with
  | [] => []
  | x :: rest => f idx x :: mapi f (S idx) rest
  end.

(** [la !== undefined ? `(${la.toFixed(5)},${(lo ?? 0).toFixed(5)})` : ''] *)
Definition coordText (la lo : option float) : string :=
  match la with
  | Some la =>
      ("(" ++ toFixed H la 5 ++ "," ++
       toFixed H (match lo with Some lo => lo | None => 0%float end) 5 ++ ")")%string
  | None => EmptyString
  end.

(** One line of the note for a break ([label] 休憩) or a rest (休息). *)
Definition intervalLine (label : string) (idx : nat) (b : BreakLog.t) : string :=
  let sTime := toISOString H (BreakLog.start b) in
  let eTime :=
    match BreakLog.end_ b with
    | Some e => if negb (e =? 0) then toISOString H e else EmptyString
    | None => EmptyString
    end in
  let sCoord := coordText (BreakLog.startLat b) (BreakLog.startLng b) in
  let eCoord := coordText (BreakLog.endLat b) (BreakLog.endLng b) in
  (label ++ intToString (Z.of_nat idx + 1) ++ ":" ++ sTime ++ sCoord ++ "-" ++ eTime ++ eCoord)%string.

(** One line of the note for a fuel stop. *)
Definition fuelLine (idx : nat) (fuel : FuelEvent.t) : string :=
  ("給油" ++ intToString (Z.of_nat idx + 1) ++ ":" ++ toISOString H (FuelEvent.time fuel) ++
   "(" ++ toFixed H (FuelEvent.lat fuel) 5 ++ "," ++ toFixed H (FuelEvent.lng fuel) 5 ++ ") " ++
   numberToString H (FuelEvent.amount fuel) ++ "L ¥" ++
   numberToString H (match FuelEvent.cost fuel with Some c => c | None => 0%float end))%string.

(** [f.cost || 0]. *)
Definition costOrZero (fuel : FuelEvent.t) : float :=
  match FuelEvent.cost fuel with
  | Some c => if num_truthy c then c else 0%float
  | None => 0%float
  end.

(** Lines 562 to 579: stop the location watch, take the arrival
    position (zeros when none can be had) and push it onto the track.
    The result is [endCoord]. *)
Definition closeTrack (session : SessionState) : Js Coordinate :=
  match watchId session with
  | Some k => clearWatch k
  | None => ret tt
  end ;;
  t0 <- dateNow ;;
  fix_ <- try_catch
            (p <- getCurrentPositionOrPrompt ;;
             t <- dateNow ;;
             ret (p, t))
            (fun _ => ret ((0%float, 0%float), t0)) ;;
  let endCoord := {| lat := fst (fst fix_); lng := snd (fst fix_); timestamp := snd fix_ |} in
  updateSession (fun s => set_coords (coords s ++ [endCoord]) s) ;;
  ret endCoord.

(** Lines 580 to 647: the record built from the session. *)
Definition composeRecord (session : SessionState) (endCoord : Coordinate) : Js LogRecord.t :=
  let totalDistance := distance session in
  totalBreak <- totalBreakMs session ;;
  totalRest <- totalRestMs session ;;
  now <- dateNow ;;
  let drivingMs := now - startTime session - totalBreak - totalRest in
  arrival <- dateNow ;;
  userNote <- prompt ;;
  let mapsLink (c : Coordinate) : string :=
    ("https://www.google.com/maps?q=" ++ numberToString H (lat c) ++ "," ++
     numberToString H (lng c))%string in
  let note0 :=
    match userNote with
    | Some text => if str_truthy (trim H text) then trim H text else EmptyString
    | None => EmptyString
    end in
  let restMinutes := totalRest / 60000 in
  let notes :=
    (if 0 <? restMinutes then [("休息合計:" ++ intToString restMinutes ++ "分")%string] else [])
    ++ mapi (intervalLine "休憩") 0 (breaks session)
    ++ mapi (intervalLine "休息") 0 (rests session)
    ++ mapi fuelLine 0 (fuelLogs session) in
  ret {| LogRecord.id := None;
         LogRecord.date := beforeT (toISOString H (startTime session));
         LogRecord.departureName :=
           Some (match startCoord session with
                 | Some c => mapsLink c
                 | None => EmptyString
                 end);
         LogRecord.arrivalName := Some (mapsLink endCoord);
         LogRecord.departureTime := toISOString H (startTime session);
         LogRecord.arrivalTime := Some (toISOString H arrival);
         LogRecord.drivingMinutes := drivingMs / 60000;
         LogRecord.breakMinutes := totalBreak / 60000;
         LogRecord.distanceKm := parseFloat H (toFixed H totalDistance 3);
         LogRecord.fuelLitres :=
           fold_left (fun sum f => (sum + FuelEvent.amount f)%float) (fuelLogs session) 0%float;
         LogRecord.fuelCost :=
           fold_left (fun sum f => (sum + costOrZero f)%float) (fuelLogs session) 0%float;
         LogRecord.departureLat :=
           match startCoord session with Some c => lat c | None => 0%float end;
         LogRecord.departureLng :=
           match startCoord session with Some c => lng c | None => 0%float end;
         LogRecord.arrivalLat := lat endCoord;
         LogRecord.arrivalLng := lng endCoord;
         LogRecord.note := Some (join " | " (filter str_truthy (note0 :: notes))) |}.

Definition endSession : Js unit :=
  w <- get ;;
  match currentSession w with
  | None => ret tt
  | Some session =>
      endCoord <- closeTrack session ;;
      w1 <- get ;;
      match currentSession w1 with
      | None => ret tt
      | Some session1 =>
          record <- composeRecord session1 endCoord ;;
          w2 <- get ;;
          saveLog record (negb (onLine w2)) ;;
          sendPendingIfOnline ;;
          modify (set_currentSession None)
      end
  end.

End Main.

(* ================================================================== *)
(** * Definitions used in the statements *)

(** ** Fixtures: a host, a database and records to run the model on *)

(** Stand-ins for the host's numeric and text functions, enough to
    evaluate the handlers. *)
Definition sampleMath : MathLib :=
  {| Math_sin := fun x => x;
     Math_cos := fun _ => 1%float;
     Math_sqrt := PrimFloat.sqrt;
     Math_atan2 := fun y x => (y / x)%float;
     Math_pow := fun x _ => (x * x)%float |}.

(** A host whose [parseFloat] knows the few inputs used below and
    whose formatting functions return fixed text. *)
Definition sampleHost : Host :=
  {| math := sampleMath;
     toISOString := fun t => ("1970-01-01T" ++ intToString t)%string;
     toFixed := fun _ _ => "0.000"%string;
     numberToString := fun _ => "0"%string;
     parseFloat := fun s =>
       if String.eqb s "10.5" then 10.5%float
       else if String.eqb s "3000" then 3000%float
       else if String.eqb s "-7" then (-7)%float
       else if String.eqb s "0" then 0%float
       else if String.eqb s "0.000" then 0%float
       else nan;
     trim := fun s => s;
     stackDepth := 1000 |}.

(** A finished record as [endSession] builds it, not yet stored. *)
Definition sampleRecord (day : string) : LogRecord.t :=
  {| LogRecord.id := None; LogRecord.date := day;
     LogRecord.departureName := None; LogRecord.arrivalName := None;
     LogRecord.departureTime := day; LogRecord.arrivalTime := None;
     LogRecord.drivingMinutes := 60; LogRecord.breakMinutes := 0;
     LogRecord.distanceKm := 12.5%float; LogRecord.fuelLitres := 0%float;
     LogRecord.fuelCost := 0%float;
     LogRecord.departureLat := 0%float; LogRecord.departureLng := 0%float;
     LogRecord.arrivalLat := 0%float; LogRecord.arrivalLng := 0%float;
     LogRecord.note := None |}.

(** A configuration with a sink endpoint and no AI key. *)
Definition sampleConfig : Config :=
  {| SHEETS_WEBAPP_URL := Some "https://script.example/exec"%string;
     OPENAI_API_KEY := None |}.

(** The application right after [init()] on an empty database. *)
Definition freshWorld (online : bool) : World :=
  {| currentSession := None; appConfig := sampleConfig; onLine := online;
     database := emptyDatabase; clockReads := 0; positionReads := 0;
     promptReads := 0; watchReads := 0; requests := []; alerts := [];
     clearedWatches := [] |}.

(** The [online] and [offline] events change [navigator.onLine]. *)
Definition set_onLine (v : bool) (w : World) : World :=
  {| currentSession := currentSession w; appConfig := appConfig w; onLine := v;
     database := database w; clockReads := clockReads w;
     positionReads := positionReads w; promptReads := promptReads w;
     watchReads := watchReads w; requests := requests w; alerts := alerts w;
     clearedWatches := clearedWatches w |}.

(** What the sink's [doPost] answers after appending a row. *)
Definition okResponse : FetchResult :=
  FetchResponse true 200 (BodyJson "{ok:true}" true).

(** A clock that advances one second per reading, a device that always
    has a position, a user who cancels every prompt, and a network whose
    [failing] requests (counted from 0) are refused. *)
Definition sampleEnv (failing : list nat) : Env :=
  {| Date_now := fun k => 1000 * Z.of_nat k;
     position := fun _ => Some (35.5%float, 139.5%float);
     prompt_answer := fun _ => None;
     watch_handle := fun k => Some (Z.of_nat k);
     fetch_response := fun k _ =>
       if existsb (Nat.eqb k) failing then FetchRejected "Failed to fetch" else okResponse |}.

(** Three records saved while offline, then the connection comes back. *)
Definition threeQueued : World :=
  set_onLine true
    (exec (saveLog (sampleRecord "2024-05-01") true ;;
           saveLog (sampleRecord "2024-05-02") true ;;
           saveLog (sampleRecord "2024-05-03") true)%js (freshWorld false)).

(** A session on the road: started at (35, 139), nothing recorded yet. *)
Definition drivingSession : SessionState :=
  {| startTime := 1000;
     startCoord := Some {| lat := 35%float; lng := 139%float; timestamp := 0 |};
     coords := [{| lat := 35%float; lng := 139%float; timestamp := 0 |}];
     distance := 0%float; breaks := []; rests := []; fuelLogs := [];
     watchId := Some 7 |}.

(** The application with that session active, online. *)
Definition drivingWorld : World := set_currentSession (Some drivingSession) (freshWorld true).

(** The same surroundings, but with a user who answers the prompts with
    [answers], in this order, and cancels after that. *)
Definition withPrompts (answers : list (option string)) (E : Env) : Env :=
  {| Date_now := Date_now E; position := position E;
     prompt_answer := fun k => nth k answers None;
     watch_handle := watch_handle E; fetch_response := fetch_response E |}.

(** ** Outbox synchronisation *)

(** When [postLog] returns normally: the request went through, the status
    is a success and the body's [ok] is truthy. *)
Definition responseOk (r : FetchResult) : bool :=
  match r with
  | FetchResponse true _ (BodyJson _ true) => true
  | _ => false
  end.

(** The records a pass hands to [fetch] when the queue is [records] and
    [n] requests were sent before, and whether every one was accepted. *)
Fixpoint attempt (E : Env) (n : nat) (records : list LogRecord.t)
  : list LogRecord.t * bool :=
  match records with
  | [] => ([], true)
  | r :: rest =>
      if responseOk (fetch_response E n r) then
        (r :: fst (attempt E (S n) rest), snd (attempt E (S n) rest))
      else ([r], false)
  end.

(** The requests of a trace that the sink acknowledged, in order. *)
Fixpoint delivered (E : Env) (n : nat) (trace : list LogRecord.t) : list LogRecord.t :=
  match trace with
  | [] => []
  | r :: rest =>
      if responseOk (fetch_response E n r) then r :: delivered E (S n) rest
      else delivered E (S n) rest
  end.

(** The not-yet-synchronised records, as [getPendingLogs] lists them. *)
Definition queue (w : World) : list LogRecord.t := IDB.getAll (pending (database w)).

(** The canonical records, as [getAllLogs] lists them. *)
Definition canonical (w : World) : list LogRecord.t := IDB.getAll (logs (database w)).

(** [appConfig.SHEETS_WEBAPP_URL] is truthy. *)
Definition endpointSet (w : World) : bool :=
  opt_str_truthy (SHEETS_WEBAPP_URL (appConfig w)).

(** What one pass of [sendPendingIfOnline] leaves behind, read off the
    queue and the network's answers. *)
Definition afterPass (E : Env) (w : World) : World :=
  if negb (onLine w) then w
  else if negb (endpointSet w) then w
  else
    match queue w with
    | [] => w
    | _ :: _ =>
        let a := attempt E (List.length (requests w)) (queue w) in
        let w1 := set_requests (requests w ++ fst a) w in
        if snd a then
          set_database {| logs := logs (database w1);
                          pending := IDB.clear (pending (database w1)) |} w1
        else w1
    end.

(** ** Binary64 arithmetic: order and rounded addition *)

(** The value of a finite binary64 number with mantissa [m] and exponent
    [e], scaled by 2^1074 so that it is an integer. *)
Definition scaled (m e : Z) : Z := m * 2 ^ (e + 1074).

(** The exponent is the one binary64 prescribes for the mantissa's
    length: [canonical_mantissa] for precision 53 and least exponent
    -1074. *)
Definition canon (m : positive) (e : Z) : Prop :=
  e = Z.max (Zpos (digits2_pos m) + e - 53) (-1074).

(** [r] is a positive number, or positive infinity, of value at least
    that of mantissa [mx] and exponent [ex]. *)
Definition at_least (mx : positive) (ex : Z) (r : spec_float) : Prop :=
  match r with
  | S754_finite false m e => scaled (Zpos mx) ex <= scaled (Zpos m) e /\ -1074 <= e
  | S754_infinity false => True
  | _ => False
  end.

(** Zero of either sign, a positive finite number or positive infinity. *)
Definition SFnonneg (x : spec_float) : Prop :=
  match x with
  | S754_zero _ => True
  | S754_infinity false => True
  | S754_finite false _ _ => True
  | _ => False
  end.

(** A positive finite number or positive infinity. *)
Definition SFpositive (x : spec_float) : Prop :=
  match x with
  | S754_infinity false => True
  | S754_finite false _ _ => True
  | _ => False
  end.

(** ** Location updates *)

(** The session after an accepted update: the distance grows by [delta]
    and the point goes to the end of the track. *)
Definition accept (coord : Coordinate) (delta : float) (s : SessionState) : SessionState :=
  set_coords (coords s ++ [coord]) (set_distance (distance s + delta)%float s).

(** ** Breaks and rests *)

(** The array a toggle leaves behind, given the clock reading and the
    position (if any) it obtained. *)
Definition toggled (now : Z) (p : option (float * float)) (l : list BreakLog.t)
  : list BreakLog.t :=
  match p with
  | Some p =>
      if last_is_open l then update_last (BreakLog.close_at now (fst p) (snd p)) l
      else l ++ [BreakLog.open_at now (fst p) (snd p)]
  | None =>
      if last_is_open l then update_last (BreakLog.close_bare now) l
      else l ++ [BreakLog.open_bare now]
  end.

(** The position one call of [getCurrentPositionOrPrompt] resolves with,
    from the device or typed in; [None] when the promise rejects. *)
Definition located (H : Host) (E : Env) (w : World) : option (float * float) :=
  match completion (getCurrentPositionOrPrompt H E) w with
  | Normal p => Some p
  | Thrown _ => None
  end.

(** The world that call leaves behind. *)
Definition afterLocating (H : Host) (E : Env) (w : World) : World :=
  exec (getCurrentPositionOrPrompt H E) w.

(** The world after one position request followed by one clock reading. *)
Definition afterFix (H : Host) (E : Env) (w : World) : World :=
  set_clockReads (S (clockReads w)) (afterLocating H E w).

(** One of the two messages with which [promptForCoords] answers a line
    it cannot read. *)
Definition isComplaint (message : string) : Prop :=
  message = "緯度と経度をカンマ区切りで入力してください"%string \/
  message = "緯度または経度が正しくありません"%string.

(** The world after one position request during which the user was
    prompted [asked] times and shown the alerts [shown]. *)
Definition afterDialogue (asked : nat) (shown : list string) (w : World) : World :=
  set_alerts (alerts w ++ shown)
    (set_promptReads (promptReads w + asked)
       (set_positionReads (S (positionReads w)) w)).

(** ** The accumulated distance never decreases *)

(** The things that can happen to an active session before it ends. *)
Inductive SessionAction :=
| LocationUpdate (coord : Coordinate)
| ToggleBreak
| ToggleRest
| AddFuel.

(** The handler an action runs. *)
Definition perform (H : Host) (E : Env) (a : SessionAction) : Js unit :=
  match a with
  | LocationUpdate coord => handleLocationUpdate H coord
  | ToggleBreak => toggleBreak H E
  | ToggleRest => toggleRest H E
  | AddFuel => addFuel H E
  end.

(** The handlers run one after the other, each on the world the one
    before left behind. *)
Definition performAll (H : Host) (E : Env) (actions : list SessionAction) (w : World) : World :=
  fold_left (fun w a => exec (perform H E a) w) actions w.

(** ** Ending a session *)

(** Two worlds that differ at most in the query counters and in what was
    shown to or asked of the user. *)
Definition sameApp (w w' : World) : Prop :=
  currentSession w' = currentSession w /\ database w' = database w /\
  onLine w' = onLine w /\ appConfig w' = appConfig w /\ requests w' = requests w.

(** The last accepted point and the sum of the accepted distances after
    one more action: only a location update at 50 metres or more from
    the last accepted point changes them. *)
Definition accrueStep (M : MathLib) (st : Coordinate * float) (a : SessionAction)
  : Coordinate * float :=
  match a with
  | LocationUpdate coord =>
      let delta := haversineDistance M (fst st) coord in
      if (50 <=? delta * 1000)%float then (coord, (snd st + delta)%float) else st
  | _ => st
  end.

(** The sum of the distances of the accepted updates among [actions],
    added in order to [sum], starting from [last_coord]. *)
Definition accrued (M : MathLib) (last_coord : Coordinate) (sum : float)
    (actions : list SessionAction) : float :=
  snd (fold_left (accrueStep M) actions (last_coord, sum)).

(** ** The distance from a point to itself *)

(** Neither NaN nor an infinity. *)
Definition finiteFloat (x : float) : bool :=
  match Prim2SF x with
  | S754_zero _ | S754_finite _ _ _ => true
  | _ => false
  end.


(* ================================================================== *)
(** * Further code of the repository *)

(** ** db.ts: what the two stores keep true *)

(** The rows are in strictly ascending key order. *)
Fixpoint ascending (rs : list (Z * LogRecord.t)) : bool :=
  match rs with
  | (k1, _) :: (((k2, _) :: _) as rest) => (k1 <? k2) && ascending rest
  | _ => true
  end.

(** The record's [id] is [k]. *)
Definition has_id (k : Z) (r : LogRecord.t) : bool :=
  match LogRecord.id r with
  | Some k' => k' =? k
  | None => false
  end.

(** A row whose key is below [bound] and is the [id] of its record. *)
Definition keyed (bound : Z) (kr : Z * LogRecord.t) : bool :=
  (fst kr <? bound) && has_id (fst kr) (snd kr).

(** A store as IndexedDB keeps it with in-line keys and a key generator:
    ascending keys, each below the generator's next number and written
    into its record. *)
Definition wellKeyed (s : IDB.ObjectStore) : bool :=
  ascending (IDB.rows s) && forallb (keyed (IDB.nextKey s)) (IDB.rows s).

Definition wellKeyedDB (d : Database) : bool :=
  wellKeyed (logs d) && wellKeyed (pending d).

(** ** main.ts: the buttons of the history list *)

(** Lines 220 to 228, the click handler of the synchronise button. *)
Definition syncButtonClick (E : Env) : Js unit :=
  sendPendingIfOnline E ;;
  w <- get ;;
  if negb (opt_str_truthy (SHEETS_WEBAPP_URL (appConfig w))) then
    alert "同期先のURLが設定されていません。config.jsonにSHEETS_WEBAPP_URLを指定してください。"
  else alert "未送信のログを同期しました。".

(** Lines 205 to 211, the click handler of a log's delete button;
    [confirmed] is the answer to the [confirm] dialog, which is only asked
    when the log has an [id]. *)
Definition deleteButtonClick (confirmed : bool) (log : LogRecord.t) : Js unit :=
  match LogRecord.id log with
  | None => ret tt
  | Some k => if confirmed then deleteLogById k else ret tt
  end.

(** ** main.ts: what a running session keeps true *)

(** Every interval but the last has its [end] set. *)
Fixpoint onlyLastOpen (l : list BreakLog.t) : bool :=
  match l with
  | [] => true
  | [_] => true
  | b :: rest => negb (BreakLog.is_open b) && onlyLastOpen rest
  end.

(** Each track point passed the 50-metre test against the one before it. *)
Fixpoint spaced (M : MathLib) (track : list Coordinate) : bool :=
  match track with
  | a :: ((b :: _) as rest) =>
      (50 <=? haversineDistance M a b * 1000)%float && spaced M rest
  | _ => true
  end.

(** [l1] is the front part of [l2]. *)
Definition prefixOf {A} (l1 l2 : list A) : Prop := exists rest, l2 = l1 ++ rest.

(** The ways one handler call can change the session object. *)
Inductive SessionStep (M : MathLib) (s : SessionState) : SessionState -> Prop :=
| step_none : SessionStep M s s
| step_accept (last_coord coord : Coordinate) :
    lastOf (coords s) = Some last_coord ->
    (50 <=? haversineDistance M last_coord coord * 1000)%float = true ->
    SessionStep M s (accept coord (haversineDistance M last_coord coord) s)
| step_break (now : Z) (p : option (float * float)) :
    SessionStep M s (set_breaks (toggled now p (breaks s)) s)
| step_rest (now : Z) (p : option (float * float)) :
    SessionStep M s (set_rests (toggled now p (rests s)) s)
| step_fuel (ev : FuelEvent.t) :
    (0 <? FuelEvent.amount ev)%float = true ->
    SessionStep M s (set_fuelLogs (fuelLogs s ++ [ev]) s).

(** ** main.ts: presses that overlap *)

(** [toggleBreak] and [toggleRest] are [async]: a press runs at once up
    to [await getCurrentPositionOrPrompt()], by when it has chosen
    between closing and opening, and goes on when the position request is
    settled. [toggleChoice] is the first part: [None] when there is no
    session and the handler returns, otherwise whether the press is going
    to close the last interval. *)
Definition toggleChoice (read : SessionState -> list BreakLog.t) : Js (option bool) :=
  w <- get ;;
  match currentSession w with
  | None => ret None
  | Some s => ret (Some (last_is_open (read s)))
  end.

(** The second part: the position request is settled and the press
    closes the interval that is last by then, or appends a new one, as
    it chose. It writes to the array it took from the session when the
    button was pressed, which is the current session's array for as long
    as that session is the current one. *)
Definition toggleSettle (H : Host) (E : Env) (read : SessionState -> list BreakLog.t)
    (write : list BreakLog.t -> SessionState -> SessionState) (closing : bool) : Js unit :=
  if closing then
    try_catch
      (p <- getCurrentPositionOrPrompt H E ;;
       now <- dateNow E ;;
       updateSession (fun s =>
         write (update_last (BreakLog.close_at now (fst p) (snd p)) (read s)) s))
      (fun _ =>
       now <- dateNow E ;;
       updateSession (fun s => write (update_last (BreakLog.close_bare now) (read s)) s))
  else
    try_catch
      (p <- getCurrentPositionOrPrompt H E ;;
       now <- dateNow E ;;
       updateSession (fun s => write (read s ++ [BreakLog.open_at now (fst p) (snd p)]) s))
      (fun _ =>
       now <- dateNow E ;;
       updateSession (fun s => write (read s ++ [BreakLog.open_bare now]) s)).

(** One press from beginning to end, nothing else running in between. *)
Definition pressAlone (H : Host) (E : Env) (read : SessionState -> list BreakLog.t)
    (write : list BreakLog.t -> SessionState -> SessionState) : Js unit :=
  choice <- toggleChoice read ;;
  match choice with
  | Some closing => toggleSettle H E read write closing
  | None => ret tt
  end.

(** Two presses of the same button, the second made while the first is
    still waiting for its position; the requests are settled in the order
    in which they were made. *)
Definition pressTwiceOverlapping (H : Host) (E : Env)
    (read : SessionState -> list BreakLog.t)
    (write : list BreakLog.t -> SessionState -> SessionState) : Js unit :=
  first <- toggleChoice read ;;
  second <- toggleChoice read ;;
  match first with
  | Some closing => toggleSettle H E read write closing
  | None => ret tt
  end ;;
  match second with
  | Some closing => toggleSettle H E read write closing
  | None => ret tt
  end.

(** The array a settled press leaves behind, given what it chose, the
    clock reading and the position (if any) it obtained. *)
Definition settled (closing : bool) (now : Z) (p : option (float * float))
    (l : list BreakLog.t) : list BreakLog.t :=
  match p with
  | Some p =>
      if closing then update_last (BreakLog.close_at now (fst p) (snd p)) l
      else l ++ [BreakLog.open_at now (fst p) (snd p)]
  | None =>
      if closing then update_last (BreakLog.close_bare now) l
      else l ++ [BreakLog.open_bare now]
  end.

(** ** main.ts: durations *)

(** The end a closed interval shows to [b.end || Date.now()]. *)
Definition closedAt (b : BreakLog.t) : option Z :=
  match BreakLog.end_ b with
  | Some e => if e =? 0 then None else Some e
  | None => None
  end.

(** The sum of [end - start] over intervals that are all closed. *)
Definition closedTotal (l : list BreakLog.t) : Z :=
  fold_left (fun sum b =>
               sum + (match closedAt b with Some e => e | None => 0 end - BreakLog.start b))
            l 0.

Definition formatDuration (ms : Z) : string :=
  let totalSeconds := ms / 1000 in
  let h := totalSeconds / 3600 in
  let m := Z.rem totalSeconds 3600 / 60 in
  let s := Z.rem totalSeconds 60 in
  (intToString h ++ "時間" ++ intToString m ++ "分" ++ intToString s ++ "秒")%string.

Definition formatMinutes (min : Z) : string :=
  let h := min / 60 in
  let m := Z.rem min 60 in
  (intToString h ++ "時間" ++ intToString m ++ "分")%string.

(** ** main.ts: coordinates typed in by hand *)

(** What one typed line is read as: a pair of numbers, or nothing when it
    does not have exactly two comma-separated parts or a part is not a
    number. *)
Definition readCoords (H : Host) (input : string) : option (float * float) :=
  match splitComma input with
  | [part0; part1] =>
      let la := parseFloat H (trim H part0) in
      let lo := parseFloat H (trim H part1) in
      if (PrimFloat.is_nan la || PrimFloat.is_nan lo)%bool then None else Some (la, lo)
  | _ => None
  end.

(** The message shown for a line that [readCoords] cannot read. *)
Definition complaint (input : string) : string :=
  match splitComma input with
  | [_; _] => "緯度または経度が正しくありません"%string
  | _ => "緯度と経度をカンマ区切りで入力してください"%string
  end.

(** The world after [retries] unreadable lines, answered with the alerts
    [shown], and one more line read. *)
Definition afterPrompts (retries : nat) (shown : list string) (w : World) : World :=
  set_alerts (alerts w ++ shown) (set_promptReads (S (promptReads w + retries)) w).

(** ** The spreadsheet script that receives the posts *)

(** A value as [JSON.parse] returns it. The members of an object are
    kept in the order of the text; of two members with one name the later
    one is the one a property read sees. *)
#[local] Set Warnings "-register-all".

Inductive Json : Type :=
| JNull
| JBool (b : bool)
| JNum (x : float)
| JStr (s : string)
| JArr (items : list Json)
| JObj (members : list (string * Json)).

Definition json_truthy (v : Json) : bool :=
  match v with
  | JNull => false
  | JBool b => b
  | JNum x => num_truthy x
  | JStr s => str_truthy s
  | JArr _ => true
  | JObj _ => true
  end.

(** [data.name] for a value that is not [null]: [None] is [undefined]. *)
Definition member (name : string) (data : Json) : option Json :=
  match data with
  | JObj members =>
      fold_left (fun found kv => if String.eqb (fst kv) name then Some (snd kv) else found)
                members None
  | _ => None
  end.

(** [value || fallback]. *)
Definition orElse (value : option Json) (fallback : Json) : Json :=
  match value with
  | Some v => if json_truthy v then v else fallback
  | None => fallback
  end.

(** The first sheet: its rows down to the last one with content, so that
    [getLastRow()] is the length of the list and [appendRow] adds at its
    end. *)
Definition Sheet : Type := list (list Json).

Definition getLastRow (sheet : Sheet) : nat := List.length sheet.

Definition appendRow (row : list Json) (sheet : Sheet) : Sheet := sheet ++ [row].

Definition headerRow : list Json :=
  map JStr
    ["日付"; "出発地名"; "到着地名"; "出発時刻"; "到着時刻"; "運転時間(分)"; "休憩合計(分)";
     "走行距離(km)"; "給油量(L)"; "給油費用(円)"; "出発緯度"; "出発経度"; "到着緯度";
     "到着経度"; "メモ/休息詳細"]%string.

Definition onOpen (sheet : Sheet) : Sheet :=
  if (getLastRow sheet =? 0)%nat then appendRow headerRow sheet else sheet.

(** What the script answers: the object it hands to [JSON.stringify]. *)
Inductive Reply : Type :=
| ReplyOk (rowNumber : nat)
| ReplyError (error : string).

Definition rowOf (data : Json) : list Json :=
  [ orElse (member "date" data) (JStr EmptyString);
    orElse (member "departureName" data) (JStr EmptyString);
    orElse (member "arrivalName" data) (JStr EmptyString);
    orElse (member "departureTime" data) (JStr EmptyString);
    orElse (member "arrivalTime" data) (JStr EmptyString);
    orElse (member "drivingMinutes" data) (JNum 0);
    orElse (member "breakMinutes" data) (JNum 0);
    orElse (member "distanceKm" data) (JNum 0);
    orElse (member "fuelLitres" data) (JNum 0);
    orElse (member "fuelCost" data) (JNum 0);
    orElse (member "departureLat" data) (JNum 0);
    orElse (member "departureLng" data) (JNum 0);
    orElse (member "arrivalLat" data) (JNum 0);
    orElse (member "arrivalLng" data) (JNum 0);
    orElse (member "note" data) (JStr EmptyString) ].

(** [doPost(e)] with [e.postData.contents = contents]. [JSON_parse] is
    the host's parser, [None] where it throws. Reading a property of
    [null] throws before anything is written. *)
Definition doPost (JSON_parse : string -> option Json) (contents : string) (sheet : Sheet)
  : Completion Reply * Sheet :=
  match JSON_parse contents with
  | None => (Normal (ReplyError "Invalid JSON"), sheet)
  | Some JNull => (Thrown "TypeError: Cannot read properties of null", sheet)
  | Some data =>
      let sheet' := appendRow (rowOf data) sheet in
      (Normal (ReplyOk (getLastRow sheet')), sheet')
  end.

(** A series of posts, one after the other; the answers oldest first. *)
Fixpoint doPosts (JSON_parse : string -> option Json) (bodies : list string) (sheet : Sheet)
  : list (Completion Reply) * Sheet :=
  match bodies with
  | [] => ([], sheet)
  | contents :: later =>
      let (reply, sheet') := doPost JSON_parse contents sheet in
      let (replies, sheet'') := doPosts JSON_parse later sheet' in
      (reply :: replies, sheet'')
  end.

(** The body parses to something other than [null]. *)
Definition readable (JSON_parse : string -> option Json) (contents : string) : bool :=
  match JSON_parse contents with
  | None => false
  | Some JNull => false
  | Some _ => true
  end.

(** The value [doPost] reads its fields from. *)
Definition parsed (JSON_parse : string -> option Json) (contents : string) : Json :=
  match JSON_parse contents with
  | Some data => data
  | None => JNull
  end.

(** A cell as [x || fallback] can leave it: a truthy value or the
    fallback itself. *)
Definition filled (fallback cell : Json) : Prop :=
  json_truthy cell = true \/ cell = fallback.

(** A parser for the two bodies used below. *)
Definition sampleParse (contents : string) : option Json :=
  if String.eqb contents "{date,km,km}" then
    Some (JObj [("date", JStr "2024-05-01"); ("distanceKm", JNum 3); ("distanceKm", JNum 12.5);
                ("fuelCost", JNull); ("id", JNum 7)]%string)
  else if String.eqb contents "null" then Some JNull
  else if String.eqb contents "[]" then Some (JArr [])
  else None.

(** ** Fixtures for the end of a session *)

(** The sample surroundings with a device that gives no position and a
    user who cancels the manual prompt. *)
Definition noFixEnv : Env :=
  {| Date_now := Date_now (sampleEnv []); position := fun _ => None;
     prompt_answer := prompt_answer (sampleEnv []);
     watch_handle := watch_handle (sampleEnv []);
     fetch_response := fetch_response (sampleEnv []) |}.

(** An interval from [from] to [to], without coordinates. *)
Definition closedInterval (from to : Z) : BreakLog.t :=
  {| BreakLog.start := from; BreakLog.end_ := Some to;
     BreakLog.startLat := None; BreakLog.startLng := None;
     BreakLog.endLat := None; BreakLog.endLng := None |}.

(** Every interval of the list has an [end] that is set and not 0. *)
Definition allClosed (l : list BreakLog.t) : bool :=
  forallb (fun b => match closedAt b with Some _ => true | None => false end) l.

(* ================================================================== *)
(** * Outbox synchronisation *)

Lemma set_requests_same (w : World) : set_requests (requests w) w = w.
Proof. destruct w; reflexivity. Qed.

(** With an endpoint configured, [postLog] sends one request and returns
    normally exactly when the response is acceptable. *)
Lemma postLog_run (E : Env) (r : LogRecord.t) (w : World) :
  endpointSet w = true ->
  exists c,
    postLog E r w = (c, set_requests (requests w ++ [r]) w) /\
    (responseOk (fetch_response E (List.length (requests w)) r) = true -> c = Normal tt) /\
    (responseOk (fetch_response E (List.length (requests w)) r) = false ->
     exists m, c = Thrown m).
Proof.
  intros Hurl. unfold endpointSet in Hurl.
  unfold postLog, bind, get, fetch, throw, ret. rewrite Hurl. cbn.
  destruct (fetch_response E (List.length (requests w)) r) as [m | ok st body]; cbn.
  - eexists; split; [reflexivity | split; [discriminate | eauto]].
  - destruct ok; cbn.
    + destruct body as [m | text bok]; cbn.
      * eexists; split; [reflexivity | split; [discriminate | eauto]].
      * destruct bok; cbn; eexists; (split; [reflexivity | split; [trivial; discriminate | intros; try discriminate; eauto]]).
    + eexists; split; [reflexivity | split; [discriminate | eauto]].
Qed.

(** The loop hands to [fetch] exactly the records [attempt] lists. *)
Lemma postEach_run (E : Env) (records : list LogRecord.t) :
  forall w, endpointSet w = true ->
    postEach E records w =
      (Normal (snd (attempt E (List.length (requests w)) records)),
       set_requests (requests w ++ fst (attempt E (List.length (requests w)) records)) w).
Proof.
  induction records as [| r rest IH]; intros w Hurl.
  - cbn. rewrite app_nil_r, set_requests_same. reflexivity.
  - destruct (postLog_run E r w Hurl) as (c & Hrun & Hok & Hko).
    cbn [postEach attempt]. unfold bind at 1. unfold try_catch, bind at 1.
    rewrite Hrun.
    destruct (responseOk (fetch_response E (List.length (requests w)) r)) eqn:Hr.
    + rewrite (Hok eq_refl). cbn [ret].
      rewrite IH by exact Hurl. cbn.
      rewrite length_app, Nat.add_1_r. cbn [List.length].
      rewrite <- app_assoc. reflexivity.
    + destruct (Hko eq_refl) as (m & ->). cbn. reflexivity.
Qed.

(** [sendPendingIfOnline] always completes normally, in the world
    [afterPass] describes. *)
Lemma sendPendingIfOnline_run (E : Env) (w : World) :
  sendPendingIfOnline E w = (Normal tt, afterPass E w).
Proof.
  unfold sendPendingIfOnline, afterPass, endpointSet.
  unfold bind at 1. cbn [get].
  destruct (onLine w); cbn [negb]; [| reflexivity].
  destruct (opt_str_truthy (SHEETS_WEBAPP_URL (appConfig w))) eqn:Hurl; cbn [negb];
    [| reflexivity].
  unfold bind at 1. unfold getPendingLogs, queue.
  destruct (IDB.getAll (pending (database w))) as [| r rest] eqn:Hq; [reflexivity |].
  unfold bind. rewrite postEach_run by exact Hurl.
  destruct (snd (attempt E (List.length (requests w)) (r :: rest))); reflexivity.
Qed.

Lemma afterPass_canonical (E : Env) (w : World) :
  logs (database (afterPass E w)) = logs (database w).
Proof.
  unfold afterPass.
  destruct (onLine w), (endpointSet w); cbn; try reflexivity.
  destruct (queue w); [reflexivity |].
  destruct (snd (attempt E (List.length (requests w)) (t :: l))); reflexivity.
Qed.

Lemma attempt_all_ok (E : Env) (records : list LogRecord.t) :
  forall n,
    (forall i r, nth_error records i = Some r ->
                 responseOk (fetch_response E (n + i) r) = true) ->
    attempt E n records = (records, true).
Proof.
  induction records as [| r rest IH]; intros n Hall; [reflexivity |].
  cbn [attempt].
  pose proof (Hall 0%nat r eq_refl) as H0. rewrite Nat.add_0_r in H0. rewrite H0.
  rewrite IH; [reflexivity |].
  intros i r' Hi. replace (S n + i)%nat with (n + S i)%nat by lia.
  apply Hall. exact Hi.
Qed.

(** C1. With three records queued, the first post accepted and the second
    refused, a pass leaves the queue as it was: the same three records in
    the same order (the whole database is untouched). [postLog] ran at
    most twice: the requests sent are none (offline, or no endpoint) or
    exactly the first two records, so the third was never posted. *)
Theorem sync_stops_at_first_failure (E : Env) (w : World) (r1 r2 r3 : LogRecord.t) :
  queue w = [r1; r2; r3] ->
  responseOk (fetch_response E (List.length (requests w)) r1) = true ->
  responseOk (fetch_response E (S (List.length (requests w))) r2) = false ->
  let w' := exec (sendPendingIfOnline E) w in
  completion (sendPendingIfOnline E) w = Normal tt /\
  queue w' = [r1; r2; r3] /\
  database w' = database w /\
  (requests w' = requests w \/ requests w' = requests w ++ [r1; r2]) /\
  (List.length (requests w') <= List.length (requests w) + 2)%nat.
Proof.
  intros Hq H1 H2 w'. subst w'. unfold exec, completion.
  rewrite sendPendingIfOnline_run. cbn [fst snd].
  split; [reflexivity |].
  unfold afterPass. rewrite Hq.
  destruct (onLine w); cbn [negb].
  2:{ repeat split; auto; lia. }
  destruct (endpointSet w); cbn [negb].
  2:{ repeat split; auto; lia. }
  cbn [attempt]. rewrite H1, H2. cbn [fst snd].
  repeat split; auto.
  cbn. rewrite length_app. cbn. lia.
Qed.

Lemma sync_stops_at_first_failure_witness :
  let E := sampleEnv [1%nat] in
  queue (exec (sendPendingIfOnline E) threeQueued) = queue threeQueued /\
  requests (exec (sendPendingIfOnline E) threeQueued) =
    [LogRecord.with_id 1 (sampleRecord "2024-05-01");
     LogRecord.with_id 2 (sampleRecord "2024-05-02")].
Proof.
  intros E.
  destruct (sync_stops_at_first_failure E threeQueued
              (LogRecord.with_id 1 (sampleRecord "2024-05-01"))
              (LogRecord.with_id 2 (sampleRecord "2024-05-02"))
              (LogRecord.with_id 3 (sampleRecord "2024-05-03")))
    as (_ & Hq & _ & _ & _); [reflexivity | reflexivity | reflexivity |].
  split; [exact Hq | reflexivity].
Defined.

(** C2. Online, with an endpoint configured and every post of the pass
    accepted, a pass posts each queued record once, in queue order, and
    leaves the pending store empty; the canonical store is the one it
    was before the pass, so every record it held is still there. *)
Theorem sync_all_posted_clears_queue (E : Env) (w : World) :
  onLine w = true ->
  endpointSet w = true ->
  (forall i r, nth_error (queue w) i = Some r ->
     responseOk (fetch_response E (List.length (requests w) + i) r) = true) ->
  let w' := exec (sendPendingIfOnline E) w in
  completion (sendPendingIfOnline E) w = Normal tt /\
  queue w' = [] /\
  logs (database w') = logs (database w) /\
  canonical w' = canonical w /\
  requests w' = requests w ++ queue w.
Proof.
  intros Hon Hurl Hall w'. subst w'. unfold exec, completion, canonical.
  rewrite sendPendingIfOnline_run. cbn [fst snd].
  rewrite afterPass_canonical.
  split; [reflexivity |]. split; [| split; [reflexivity | split; [reflexivity |]]].
  - unfold afterPass. rewrite Hon, Hurl. cbn [negb].
    destruct (queue w) as [| r rest] eqn:Hq; [exact Hq |].
    rewrite attempt_all_ok by exact Hall. reflexivity.
  - unfold afterPass. rewrite Hon, Hurl. cbn [negb].
    destruct (queue w) as [| r rest] eqn:Hq.
    + rewrite app_nil_r. reflexivity.
    + rewrite attempt_all_ok by exact Hall. reflexivity.
Qed.

Lemma sync_all_posted_clears_queue_witness :
  let E := sampleEnv [] in
  queue (exec (sendPendingIfOnline E) threeQueued) = [] /\
  canonical (exec (sendPendingIfOnline E) threeQueued) =
    [LogRecord.with_id 1 (sampleRecord "2024-05-01");
     LogRecord.with_id 2 (sampleRecord "2024-05-02");
     LogRecord.with_id 3 (sampleRecord "2024-05-03")].
Proof.
  intros E.
  destruct (sync_all_posted_clears_queue E threeQueued) as (_ & Hq & _ & Hc & _).
  - reflexivity.
  - reflexivity.
  - intros i r _. reflexivity.
  - split; [exact Hq | rewrite Hc; reflexivity].
Defined.

(** C3. Two passes over three queued records, the network refusing only
    the second request: the first pass delivers the first record and
    stops at the second, leaving all three queued; the second pass posts
    the queue from its front again, so the sink acknowledges the first
    record twice. *)
Theorem delivered_twice_after_partial_pass :
  let E := sampleEnv [1%nat] in
  let r1 := LogRecord.with_id 1 (sampleRecord "2024-05-01") in
  let r2 := LogRecord.with_id 2 (sampleRecord "2024-05-02") in
  let r3 := LogRecord.with_id 3 (sampleRecord "2024-05-03") in
  let w1 := exec (sendPendingIfOnline E) threeQueued in
  let w2 := exec (sendPendingIfOnline E) w1 in
  queue threeQueued = [r1; r2; r3] /\
  requests w1 = [r1; r2] /\
  delivered E 0 (requests w1) = [r1] /\
  queue w1 = [r1; r2; r3] /\
  requests w2 = [r1; r2; r1; r2; r3] /\
  delivered E 0 (requests w2) = [r1; r1; r2; r3] /\
  queue w2 = [].
Proof.
  cbv zeta. unfold exec. rewrite !sendPendingIfOnline_run. cbn [snd].
  repeat split; reflexivity.
Qed.

(* ================================================================== *)
(** * endSession without a session *)

(** C4 as stated: [endSession] in the idle state fails with an error. On
    the idle application it completes normally instead, and shows no
    alert either. *)
Lemma endSession_idle_raises_nothing :
  let c := endSession sampleHost (sampleEnv []) in
  ~ (exists m, completion c (freshWorld true) = Thrown m) /\
  alerts (exec c (freshWorld true)) = [].
Proof.
  cbv zeta. split; [| reflexivity].
  intros (m & Hm). cbn in Hm. discriminate Hm.
Qed.

(** C4, amended. With no session, [endSession] is a silent no-op: it
    completes normally and leaves the world as it found it, so no record
    reaches either store and nothing is sent or shown. Hence a run of
    [endSession] that changes the canonical store started from an active
    session. *)
Theorem endSession_idle_noop (H : Host) (E : Env) (w : World) :
  (currentSession w = None -> endSession H E w = (Normal tt, w)) /\
  (canonical (exec (endSession H E) w) <> canonical w ->
   exists s, currentSession w = Some s).
Proof.
  assert (Hidle : currentSession w = None -> endSession H E w = (Normal tt, w)).
  { intros Hs. unfold endSession, bind, get. rewrite Hs. reflexivity. }
  split; [exact Hidle |].
  intros Hchanged. destruct (currentSession w) as [s |] eqn:Hs; [eauto |].
  exfalso. apply Hchanged. unfold exec. rewrite Hidle by reflexivity. reflexivity.
Qed.

Lemma endSession_idle_noop_witness :
  endSession sampleHost (sampleEnv []) (freshWorld false) = (Normal tt, freshWorld false).
Proof.
  apply (proj1 (endSession_idle_noop sampleHost (sampleEnv []) (freshWorld false))).
  reflexivity.
Defined.

(* ================================================================== *)
(** * Binary64 arithmetic: order and rounded addition *)

Lemma pow2_gt0 k : 0 <= k -> 0 < 2 ^ k.
Proof. intros; apply Z.pow_pos_nonneg; lia. Qed.

Lemma pow2_mono a b : 0 <= a <= b -> 2 ^ a <= 2 ^ b.
Proof. intros. apply Z.pow_le_mono_r; lia. Qed.

(** A mantissa of [d] binary digits lies between 2^(d-1) and 2^d. *)
Lemma digits2_bounds m :
  2 ^ (Zpos (digits2_pos m) - 1) <= Zpos m < 2 ^ Zpos (digits2_pos m).
Proof.
  induction m as [p IH | p IH |]; cbn [digits2_pos].
  - rewrite Pos2Z.inj_succ.
    replace (Z.succ (Zpos (digits2_pos p)) - 1)
      with (Z.succ (Zpos (digits2_pos p) - 1)) by lia.
    rewrite !Z.pow_succ_r by lia. lia.
  - rewrite Pos2Z.inj_succ.
    replace (Z.succ (Zpos (digits2_pos p)) - 1)
      with (Z.succ (Zpos (digits2_pos p) - 1)) by lia.
    rewrite !Z.pow_succ_r by lia. lia.
  - cbn. lia.
Qed.

(** Appending [d] zero bits multiplies by 2^d. *)
Lemma iter_xO m d : Zpos (Pos.iter xO m d) = Zpos m * 2 ^ Zpos d.
Proof.
  induction d as [| d IH] using Pos.peano_ind.
  - cbn. lia.
  - rewrite Pos.iter_succ, Pos2Z.inj_succ, Z.pow_succ_r by lia.
    rewrite Pos2Z.inj_xO, IH. lia.
Qed.

Lemma shr_1_m mrs : 0 <= shr_m mrs -> shr_m (shr_1 mrs) = shr_m mrs / 2.
Proof.
  destruct mrs as [m r s]. cbn [shr_m]. intros Hm.
  destruct m as [| p | p]; cbn; [reflexivity | | lia].
  destruct p as [p | p |]; cbn [shr_m].
  - rewrite Pos2Z.inj_xI. apply Z.div_unique with 1; lia.
  - rewrite Pos2Z.inj_xO. apply Z.div_unique with 0; lia.
  - reflexivity.
Qed.

(** The mantissa after [p] one-bit right shifts is the quotient by 2^p. *)
Lemma iter_shr_1_m p : forall mrs, 0 <= shr_m mrs ->
  shr_m (iter_pos shr_1 p mrs) = shr_m mrs / 2 ^ Zpos p.
Proof.
  assert (Hnn : forall m, 0 <= m -> 0 <= m / 2) by (intros; apply Z.div_pos; lia).
  assert (Hnn2 : forall m k, 0 <= m -> 0 <= m / 2 ^ Zpos k).
  { intros. apply Z.div_pos; [lia | apply pow2_gt0; lia]. }
  induction p as [p IH | p IH |]; intros mrs Hm; cbn [iter_pos].
  - rewrite IH, IH, shr_1_m by (rewrite ?IH, ?shr_1_m; auto; rewrite ?shr_1_m; auto).
    rewrite !Z.div_div by (try apply pow2_gt0; lia).
    f_equal. rewrite Pos2Z.inj_xI. rewrite <- Z.pow_add_r by lia.
    replace (2 * Zpos p + 1) with (Z.succ (Zpos p + Zpos p)) by lia.
    rewrite Z.pow_succ_r by lia. reflexivity.
  - rewrite IH, IH by (rewrite ?IH; auto).
    rewrite !Z.div_div by (try apply pow2_gt0; lia).
    f_equal. rewrite Pos2Z.inj_xO. rewrite <- Z.pow_add_r by lia. f_equal. lia.
  - rewrite shr_1_m by assumption. reflexivity.
Qed.

(** The value lies between two consecutive powers of two fixed by the
    mantissa's length and the exponent. *)
Lemma scaled_bounds (m : positive) (e : Z) :
  -1074 <= e ->
  2 ^ (Zpos (digits2_pos m) + e + 1073) <= scaled (Zpos m) e
    < 2 ^ (Zpos (digits2_pos m) + e + 1074).
Proof.
  intros He. unfold scaled.
  pose proof (digits2_bounds m) as [Hlo Hhi].
  pose proof (pow2_gt0 (e + 1074) ltac:(lia)) as Hp.
  replace (Zpos (digits2_pos m) + e + 1073) with ((Zpos (digits2_pos m) - 1) + (e + 1074)) by lia.
  replace (Zpos (digits2_pos m) + e + 1074) with (Zpos (digits2_pos m) + (e + 1074)) by lia.
  rewrite (Z.pow_add_r 2 (Zpos (digits2_pos m) - 1) (e + 1074)) by lia.
  rewrite (Z.pow_add_r 2 (Zpos (digits2_pos m)) (e + 1074)) by lia.
  split.
  - apply Z.mul_le_mono_nonneg_r; lia.
  - apply Z.mul_lt_mono_pos_r; lia.
Qed.

Lemma mag_le (mx m : positive) (ex e : Z) :
  -1074 <= ex -> -1074 <= e ->
  scaled (Zpos mx) ex <= scaled (Zpos m) e ->
  Zpos (digits2_pos mx) + ex <= Zpos (digits2_pos m) + e.
Proof.
  intros Hex He Hle.
  pose proof (scaled_bounds mx ex Hex) as [Hlo _].
  pose proof (scaled_bounds m e He) as [_ Hhi].
  assert (Hlt : 2 ^ (Zpos (digits2_pos mx) + ex + 1073) < 2 ^ (Zpos (digits2_pos m) + e + 1074)) by lia.
  apply Z.pow_lt_mono_r_iff in Hlt; lia.
Qed.

Lemma shr_record_of_loc_m m l : shr_m (shr_record_of_loc m l) = m.
Proof. destruct l as [| []]; reflexivity. Qed.

(** One truncation step keeps the value at or above any representable
    number below it. *)
Lemma shr_fexp_ge (mx m : positive) (ex e : Z) (l : location) :
  canon mx ex -> -1074 <= e ->
  scaled (Zpos mx) ex <= scaled (Zpos m) e ->
  0 < shr_m (fst (shr_fexp 53 1024 (Zpos m) e l)) /\
  -1074 <= snd (shr_fexp 53 1024 (Zpos m) e l) /\
  scaled (Zpos mx) ex <=
    scaled (shr_m (fst (shr_fexp 53 1024 (Zpos m) e l))) (snd (shr_fexp 53 1024 (Zpos m) e l)).
Proof.
  intros Hcan He Hle. unfold canon in Hcan.
  assert (Hex : -1074 <= ex) by lia.
  pose proof (mag_le mx m ex e Hex He Hle) as Hmag.
  unfold shr_fexp, fexp, emin. cbn [Zdigits2].
  set (d := Zpos (digits2_pos m)) in *. set (dx := Zpos (digits2_pos mx)) in *.
  replace (3 - 1024 - 53) with (-1074) by reflexivity.
  destruct (Z.max (d + e - 53) (-1074) - e) as [| n | n] eqn:Hn; cbn [shr fst snd];
    rewrite ?shr_record_of_loc_m; try (split; [lia | split; [lia | exact Hle]]).
  rewrite iter_shr_1_m by (rewrite shr_record_of_loc_m; lia).
  rewrite shr_record_of_loc_m.
  pose proof (digits2_bounds m) as [Hlo Hhi]. fold d in Hlo, Hhi.
  pose proof (pow2_gt0 (Zpos n) ltac:(lia)) as Hpn.
  destruct (Z.eq_dec (e + Zpos n) ex) as [Heq | Hne].
  - (* same exponent as the bound *)
    assert (Hq : Zpos mx <= Zpos m / 2 ^ Zpos n).
    { apply Z.div_le_lower_bound; [lia |].
      unfold scaled in Hle. rewrite <- Heq in Hle.
      replace (e + Zpos n + 1074) with (Zpos n + (e + 1074)) in Hle by lia.
      rewrite Z.pow_add_r in Hle by lia.
      pose proof (pow2_gt0 (e + 1074) ltac:(lia)) as Hpe.
      rewrite Z.mul_assoc in Hle.
      apply Z.mul_le_mono_pos_r in Hle; lia. }
    split; [lia | split; [lia |]].
    rewrite Heq. unfold scaled.
    apply Z.mul_le_mono_nonneg_r; [| lia].
    apply Z.lt_le_incl, pow2_gt0. lia.
  - (* a larger exponent: the result has a full mantissa *)
    assert (Hc : e + Zpos n = d + e - 53) by lia.
    assert (Hq : 2 ^ 52 <= Zpos m / 2 ^ Zpos n).
    { apply Z.div_le_lower_bound; [lia |].
      rewrite <- Z.pow_add_r by lia.
      replace (Zpos n + 52) with (d - 1) by lia. exact Hlo. }
    split; [lia | split; [lia |]].
    pose proof (scaled_bounds mx ex Hex) as [_ Hxhi]. fold dx in Hxhi.
    apply Z.le_trans with (2 ^ (dx + ex + 1074)); [lia |].
    apply Z.le_trans with (2 ^ 52 * 2 ^ (e + Zpos n + 1074)).
    + rewrite <- Z.pow_add_r by lia. apply pow2_mono. lia.
    + unfold scaled. apply Z.mul_le_mono_nonneg_r; [| lia].
      apply Z.lt_le_incl, pow2_gt0. lia.
Qed.

Lemma scaled_mono (a b e : Z) : -1074 <= e -> a <= b -> scaled a e <= scaled b e.
Proof.
  intros He Hab. unfold scaled. apply Z.mul_le_mono_nonneg_r; [| exact Hab].
  apply Z.lt_le_incl, pow2_gt0. lia.
Qed.

Lemma round_nearest_even_ge m l : m <= round_nearest_even m l.
Proof. destruct l as [| []]; cbn; try lia. destruct (Z.even m); lia. Qed.

(** Rounding to nearest never lands below a representable number that
    the exact value is at or above. *)
Lemma binary_round_aux_ge (mx mz : positive) (ex ez : Z) (l : location) :
  canon mx ex -> -1074 <= ez ->
  scaled (Zpos mx) ex <= scaled (Zpos mz) ez ->
  at_least mx ex (binary_round_aux 53 1024 false (Zpos mz) ez l).
Proof.
  intros Hcan Hez Hle. unfold binary_round_aux.
  pose proof (shr_fexp_ge mx mz ex ez l Hcan Hez Hle) as (Hpos1 & He1 & Hle1).
  destruct (shr_fexp 53 1024 (Zpos mz) ez l) as [mrs1 e1]. cbn [fst snd] in *.
  pose proof (round_nearest_even_ge (shr_m mrs1) (loc_of_shr_record mrs1)) as Hr.
  destruct (round_nearest_even (shr_m mrs1) (loc_of_shr_record mrs1)) as [| m1 | m1];
    try lia.
  assert (Hle2 : scaled (Zpos mx) ex <= scaled (Zpos m1) e1).
  { eapply Z.le_trans; [exact Hle1 | apply scaled_mono; assumption]. }
  pose proof (shr_fexp_ge mx m1 ex e1 loc_Exact Hcan He1 Hle2) as (Hpos2 & He2 & Hle3).
  destruct (shr_fexp 53 1024 (Zpos m1) e1 loc_Exact) as [mrs2 e2]. cbn [fst snd] in *.
  destruct (shr_m mrs2) as [| m2 | m2]; try lia.
  destruct (e2 <=? 1024 - 53); cbn; auto.
Qed.

Lemma shl_align_scaled (m : positive) (e e' : Z) :
  -1074 <= e -> -1074 <= e' ->
  scaled (Zpos (fst (shl_align m e e'))) (snd (shl_align m e e')) = scaled (Zpos m) e /\
  -1074 <= snd (shl_align m e e') /\
  (e' <= e -> snd (shl_align m e e') = e').
Proof.
  intros He He'. unfold shl_align.
  destruct (e' - e) as [| d | d] eqn:Hd; cbn [fst snd].
  - split; [reflexivity | split; lia].
  - split; [reflexivity | split; lia].
  - split; [| split; lia].
    unfold scaled. rewrite iter_xO.
    replace (e + 1074) with (Zpos d + (e' + 1074)) by lia.
    rewrite (Z.pow_add_r 2 (Zpos d) (e' + 1074)) by lia. ring.
Qed.

Lemma binary_round_ge (mx m : positive) (ex e : Z) :
  canon mx ex -> -1074 <= e ->
  scaled (Zpos mx) ex <= scaled (Zpos m) e ->
  at_least mx ex (binary_round 53 1024 false m e).
Proof.
  intros Hcan He Hle. unfold binary_round.
  assert (Hf : -1074 <= fexp 53 1024 (Zpos (digits2_pos m) + e)).
  { unfold fexp, emin. lia. }
  pose proof (shl_align_scaled m e _ He Hf) as (Hs & Hz & _).
  destruct (shl_align m e (fexp 53 1024 (Zpos (digits2_pos m) + e))) as [mz ez].
  cbn [fst snd] in *.
  apply binary_round_aux_ge; [assumption | assumption | lia].
Qed.

Lemma canonical_canon m e : canonical_mantissa 53 1024 m e = true -> canon m e.
Proof.
  unfold canonical_mantissa, canon, fexp, emin. intros Hc.
  apply Z.eqb_eq in Hc. lia.
Qed.

Lemma bounded_canon m e : bounded 53 1024 m e = true -> canon m e.
Proof.
  unfold bounded. intros Hb. apply andb_prop in Hb. apply canonical_canon, Hb.
Qed.

(** On canonical mantissas the comparison of [SFcompare] agrees with
    the order of the values. *)
Lemma at_least_leb (mx : positive) (ex : Z) (r : spec_float) :
  canon mx ex -> valid_binary r = true -> at_least mx ex r ->
  SFleb (S754_finite false mx ex) r = true.
Proof.
  intros Hcx Hv Hal. destruct r as [s | s | | s m e]; cbn [at_least] in Hal; try contradiction.
  - destruct s; [contradiction | reflexivity].
  - destruct s; [contradiction |]. destruct Hal as [Hle He].
    cbn in Hv. apply bounded_canon in Hv.
    assert (Hex : -1074 <= ex) by (unfold canon in Hcx; lia).
    unfold SFleb. cbn.
    destruct (Z.compare_spec ex e) as [Heq | Hlt | Hgt].
    + subst e. change (Pos.compare_cont Eq mx m) with (Pos.compare mx m).
      destruct (Pos.compare_spec mx m) as [| |Hgt]; try reflexivity.
      exfalso. unfold scaled in Hle.
      pose proof (pow2_gt0 (ex + 1074) ltac:(lia)).
      apply Z.mul_le_mono_pos_r in Hle; lia.
    + reflexivity.
    + exfalso.
      pose proof (scaled_bounds mx ex Hex) as [Hlo _].
      pose proof (scaled_bounds m e He) as [_ Hhi].
      unfold canon in Hcx, Hv.
      assert (Hm : Zpos (digits2_pos m) + e < Zpos (digits2_pos mx) + ex) by lia.
      assert (2 ^ (Zpos (digits2_pos m) + e + 1074) <= 2 ^ (Zpos (digits2_pos mx) + ex + 1073)).
      { apply pow2_mono. lia. }
      lia.
Qed.

(** Adding a positive number to a non-negative one gives, after
    rounding, at least the non-negative one. *)
Lemma SFadd_ge (x y : spec_float) :
  valid_binary x = true -> valid_binary y = true ->
  valid_binary (SF64add x y) = true ->
  SFnonneg x -> SFpositive y ->
  SFleb x (SF64add x y) = true.
Proof.
  intros Hvx Hvy Hvr Hx Hy. unfold SF64add in *.
  destruct x as [sx | sx | | sx mx ex]; cbn in Hx; try contradiction;
    destruct y as [sy | sy | | sy my ey]; cbn in Hy; try contradiction;
    try (destruct sx; try contradiction); try (destruct sy; try contradiction);
    try reflexivity.
  - (* finite + finite *)
    cbn in Hvx, Hvy. pose proof (bounded_canon _ _ Hvx) as Hcx.
    pose proof (bounded_canon _ _ Hvy) as Hcy.
    assert (Hex : -1074 <= ex) by (unfold canon in Hcx; lia).
    assert (Hey : -1074 <= ey) by (unfold canon in Hcy; lia).
    apply at_least_leb; [assumption | assumption |].
    cbn [SFadd cond_Zopp].
    pose proof (shl_align_scaled mx ex (Z.min ex ey) Hex ltac:(lia)) as (Hsx & _ & Hzx).
    pose proof (shl_align_scaled my ey (Z.min ex ey) Hey ltac:(lia)) as (Hsy & _ & Hzy).
    rewrite Hzx in Hsx by lia.
    cbn [Z.add binary_normalize].
    apply binary_round_ge; [assumption | lia |].
    rewrite <- Hsx. apply scaled_mono; lia.
Qed.

Ltac cmp_cases :=
  change (Pos.compare_cont Eq) with Pos.compare;
  repeat match goal with
  | |- context [Z.compare ?a ?b] => destruct (Z.compare_spec a b); cbn
  | |- context [Pos.compare ?a ?b] => destruct (Pos.compare_spec a b); cbn
  end; try congruence; try lia.

Lemma SFcompare_Lt_Gt x y : SFcompare x y = Some Lt -> SFcompare y x = Some Gt.
Proof.
  destruct x as [sx | sx | | sx mx ex], y as [sy | sy | | sy my ey]; cbn;
    try destruct sx; try destruct sy; cbn; try congruence; cmp_cases.
Qed.

Lemma float_ltb_leb (x y : float) : (x <? y)%float = true -> (y <=? x)%float = false.
Proof.
  rewrite ltb_spec, leb_spec. unfold SFltb, SFleb.
  destruct (SFcompare (Prim2SF x) (Prim2SF y)) as [[| |] |] eqn:Hc; try discriminate.
  intros _. rewrite (SFcompare_Lt_Gt _ _ Hc). reflexivity.
Qed.

Lemma SFleb_trans x y z : SFleb x y = true -> SFleb y z = true -> SFleb x z = true.
Proof.
  unfold SFleb.
  destruct x as [sx | sx | | sx mx ex], y as [sy | sy | | sy my ey], z as [sz | sz | | sz mz ez]; cbn;
    try destruct sx; try destruct sy; try destruct sz; cbn; try congruence; cmp_cases.
Qed.

Lemma float_leb_trans (x y z : float) :
  (x <=? y)%float = true -> (y <=? z)%float = true -> (x <=? z)%float = true.
Proof. rewrite !leb_spec. apply SFleb_trans. Qed.

(** Rounding keeps the sign it is given. *)
Lemma binary_round_aux_sign (s : bool) (m e : Z) (l : location) :
  match binary_round_aux 53 1024 s m e l with
  | S754_zero s' | S754_infinity s' | S754_finite s' _ _ => s' = s
  | S754_nan => True
  end.
Proof.
  unfold binary_round_aux.
  destruct (shr_fexp 53 1024 m e l) as [mrs1 e1].
  destruct (shr_fexp 53 1024 _ e1 loc_Exact) as [mrs2 e2].
  destruct (shr_m mrs2); [reflexivity | | exact I].
  destruct (e2 <=? 1024 - 53); reflexivity.
Qed.

Lemma SFleb_zero_nonneg x : SFleb (S754_zero false) x = true <-> SFnonneg x.
Proof.
  destruct x as [s | [] | | [] m e]; cbn; intuition congruence.
Qed.

Lemma SFleb_nonneg x y : SFnonneg x -> SFleb x y = true -> SFnonneg y.
Proof.
  destruct x as [sx | [] | | [] mx ex], y as [sy | [] | | [] my ey]; cbn; intuition congruence.
Qed.

Lemma SFleb_refl x : x <> S754_nan -> SFleb x x = true.
Proof.
  destruct x as [s | [] | | [] m e]; cbn; try congruence; intros _; unfold SFleb; cbn; cmp_cases.
Qed.

(** A number whose product with 1000 is at least 50 is positive. *)
Lemma mul_1000_positive (d : spec_float) :
  SFleb (Prim2SF 50) (SF64mul d (Prim2SF 1000)) = true -> SFpositive d.
Proof.
  change (Prim2SF 50) with (S754_finite false 7036874417766400 (-47)).
  change (Prim2SF 1000) with (S754_finite false 8796093022208000 (-43)).
  unfold SF64mul.
  destruct d as [s | s | | s m e]; cbn [SFmul xorb];
    try (destruct s; cbn; intros; (exact I || congruence)).
  - cbn; congruence.
  - destruct s; [| intros _; exact I].
    match goal with
    | |- context [binary_round_aux ?p ?q ?b ?mm ?ee ?ll] =>
        pose proof (binary_round_aux_sign b mm ee ll) as Hs;
        change (binary_round_aux 53 1024 b mm ee ll)
          with (binary_round_aux p q b mm ee ll) in Hs;
        destruct (binary_round_aux p q b mm ee ll) as [s' | s' | | s' m' e']
    end; try subst s'; cbn; congruence.
Qed.

Lemma leb_0_nonneg (d : float) : (0 <=? d)%float = true <-> SFnonneg (Prim2SF d).
Proof. rewrite leb_spec. apply SFleb_zero_nonneg. Qed.

(** The arithmetic of an accepted update: a distance that passes the
    50-metre test, added to a non-negative total, gives a total that is
    no smaller and still non-negative. *)
Lemma float_add_accepted (d delta : float) :
  (0 <=? d)%float = true -> (50 <=? delta * 1000)%float = true ->
  (d <=? d + delta)%float = true /\ (0 <=? d + delta)%float = true.
Proof.
  intros Hd Hdelta.
  apply leb_0_nonneg in Hd.
  rewrite leb_spec, mul_spec in Hdelta. apply mul_1000_positive in Hdelta.
  assert (Hle : (d <=? d + delta)%float = true).
  { rewrite leb_spec, add_spec.
    apply SFadd_ge; try apply Prim2SF_valid; try assumption.
    rewrite <- add_spec. apply Prim2SF_valid. }
  split; [exact Hle |].
  apply leb_0_nonneg. rewrite leb_spec in Hle. eapply SFleb_nonneg; eassumption.
Qed.

Lemma float_leb_refl (d : float) : (0 <=? d)%float = true -> (d <=? d)%float = true.
Proof.
  intros Hd. apply leb_0_nonneg in Hd. rewrite leb_spec. apply SFleb_refl.
  intros Hn. rewrite Hn in Hd. exact Hd.
Qed.

(* ================================================================== *)
(** * Location updates *)

(** What [handleLocationUpdate] does to a session with a non-empty track. *)
Lemma handleLocationUpdate_run (H : Host) (coord last_coord : Coordinate)
    (w : World) (s : SessionState) :
  currentSession w = Some s ->
  lastOf (coords s) = Some last_coord ->
  handleLocationUpdate H coord w =
    (Normal tt,
     if (50 <=? haversineDistance (math H) last_coord coord * 1000)%float
     then set_currentSession (Some (accept coord (haversineDistance (math H) last_coord coord) s)) w
     else w).
Proof.
  intros Hs Hlast. unfold handleLocationUpdate, bind, get. rewrite Hs, Hlast.
  destruct (50 <=? haversineDistance (math H) last_coord coord * 1000)%float;
    [| reflexivity].
  unfold updateSession, modify. cbn. rewrite Hs. reflexivity.
Qed.

(** C5. A location update whose haversine distance from the last accepted
    point is under 50 metres changes nothing at all; one at 50 metres or
    more puts the point at the end of the track, adds exactly that
    distance and touches no other part of the session. Either way the
    old track is a prefix of the new one. *)
Theorem location_update_threshold (H : Host) (coord last_coord : Coordinate)
    (w : World) (s : SessionState) :
  currentSession w = Some s ->
  lastOf (coords s) = Some last_coord ->
  let delta := haversineDistance (math H) last_coord coord in
  let w' := exec (handleLocationUpdate H coord) w in
  ((delta * 1000 <? 50)%float = true -> w' = w) /\
  ((50 <=? delta * 1000)%float = true ->
     exists s', currentSession w' = Some s' /\
       coords s' = coords s ++ [coord] /\
       distance s' = (distance s + delta)%float /\
       List.length (coords s') = S (List.length (coords s)) /\
       breaks s' = breaks s /\ rests s' = rests s /\ fuelLogs s' = fuelLogs s /\
       startTime s' = startTime s /\ startCoord s' = startCoord s) /\
  (exists s' tail, currentSession w' = Some s' /\ coords s' = coords s ++ tail).
Proof.
  intros Hs Hlast delta w'. subst w'. unfold exec.
  rewrite (handleLocationUpdate_run H coord last_coord w s Hs Hlast). fold delta.
  cbn [snd]. split; [| split].
  - intros Hlt. rewrite (float_ltb_leb _ _ Hlt). reflexivity.
  - intros Hge. rewrite Hge. exists (accept coord delta s). cbn.
    rewrite length_app. cbn. rewrite Nat.add_1_r. repeat split; reflexivity.
  - destruct (50 <=? delta * 1000)%float.
    + exists (accept coord delta s), [coord]. split; reflexivity.
    + exists s, []. rewrite app_nil_r. split; [exact Hs | reflexivity].
Qed.

Lemma location_update_threshold_witness :
  let H := sampleHost in
  let near := {| lat := 35%float; lng := 139%float; timestamp := 5 |} in
  let far := {| lat := 36%float; lng := 139%float; timestamp := 9 |} in
  exec (handleLocationUpdate H near) drivingWorld = drivingWorld /\
  exists s', currentSession (exec (handleLocationUpdate H far) drivingWorld) = Some s' /\
             coords s' = coords drivingSession ++ [far].
Proof.
  intros H near far. split.
  - apply (proj1 (location_update_threshold H near
                    {| lat := 35%float; lng := 139%float; timestamp := 0 |}
                    drivingWorld drivingSession eq_refl eq_refl)).
    vm_compute. reflexivity.
  - destruct (proj1 (proj2 (location_update_threshold H far
                    {| lat := 35%float; lng := 139%float; timestamp := 0 |}
                    drivingWorld drivingSession eq_refl eq_refl)))
      as (s' & Hs' & Hc & _).
    + vm_compute. reflexivity.
    + exists s'. split; assumption.
Defined.

(* ================================================================== *)
(** * Asking for the position *)

Lemma promptForCoords_step (H : Host) (E : Env) (fuel : nat) (w : World) :
  promptForCoords H E (S fuel) w =
    match prompt_answer E (promptReads w) with
    | None => (Thrown "緯度・経度の入力がキャンセルされました"%string, afterPrompts 0 [] w)
    | Some EmptyString =>
        (Thrown "緯度・経度の入力がキャンセルされました"%string, afterPrompts 0 [] w)
    | Some input =>
        match readCoords H input with
        | Some p => (Normal (Some p), afterPrompts 0 [] w)
        | None => promptForCoords H E fuel (afterPrompts 0 [complaint input] w)
        end
    end.
Proof.
  assert (Hw : afterPrompts 0 [] w = set_promptReads (S (promptReads w)) w).
  { unfold afterPrompts, set_alerts, set_promptReads. cbn.
    rewrite app_nil_r, Nat.add_0_r. reflexivity. }
  assert (Hw1 : forall msg, afterPrompts 0 [msg] w =
            set_alerts (alerts (set_promptReads (S (promptReads w)) w) ++ [msg])
                       (set_promptReads (S (promptReads w)) w)).
  { intros msg. unfold afterPrompts, set_alerts, set_promptReads. cbn.
    rewrite Nat.add_0_r. reflexivity. }
  cbn [promptForCoords]. unfold bind at 1, prompt at 1.
  destruct (prompt_answer E (promptReads w)) as [input |];
    [| unfold throw; rewrite Hw; reflexivity].
  destruct input as [| c rest]; [unfold throw; rewrite Hw; reflexivity |].
  unfold readCoords, complaint.
  destruct (splitComma (String c rest)) as [| p0 [| p1 [| p2 ps]]];
    try (unfold bind, alert, modify; rewrite Hw1; reflexivity).
  destruct (PrimFloat.is_nan (parseFloat H (trim H p0))
            || PrimFloat.is_nan (parseFloat H (trim H p1)))%bool.
  - unfold bind, alert, modify. rewrite Hw1. reflexivity.
  - unfold ret. rewrite Hw. reflexivity.
Qed.

Lemma afterPrompts_next (retries : nat) (shown : list string) (msg : string) (w : World) :
  afterPrompts retries shown (afterPrompts 0 [msg] w) = afterPrompts (S retries) (msg :: shown) w.
Proof.
  unfold afterPrompts, set_alerts, set_promptReads. cbn.
  rewrite <- app_assoc. cbn [app].
  replace (S (S (promptReads w + 0 + retries))) with (S (promptReads w + S retries)) by lia.
  reflexivity.
Qed.

Lemma readCoords_not_nan (H : Host) (input : string) (p : float * float) :
  readCoords H input = Some p ->
  PrimFloat.is_nan (fst p) = false /\ PrimFloat.is_nan (snd p) = false /\
  List.length (splitComma input) = 2%nat.
Proof.
  unfold readCoords.
  destruct (splitComma input) as [| p0 [| p1 [| p2 ps]]]; try discriminate.
  destruct (PrimFloat.is_nan (parseFloat H (trim H p0))
            || PrimFloat.is_nan (parseFloat H (trim H p1)))%bool eqn:Hn; [discriminate |].
  intros Hp. injection Hp as <-. apply orb_false_iff in Hn. cbn. tauto.
Qed.

Lemma complaint_isComplaint (input : string) : isComplaint (complaint input).
Proof.
  unfold isComplaint, complaint.
  destruct (splitComma input) as [| p0 [| p1 [| p2 ps]]]; auto.
Qed.

(** After [retries] unreadable lines, each answered with one complaint,
    a readable line is returned and a cancelled or empty prompt throws. *)
Lemma promptForCoords_after_retries (H : Host) (E : Env) (retries fuel : nat) (w : World) :
  (retries < fuel)%nat ->
  (forall i, (i < retries)%nat ->
     exists input, prompt_answer E (promptReads w + i) = Some input /\
                   input <> EmptyString /\ readCoords H input = None) ->
  exists shown,
    List.length shown = retries /\ Forall isComplaint shown /\
    (forall input p,
       prompt_answer E (promptReads w + retries) = Some input ->
       readCoords H input = Some p ->
       promptForCoords H E fuel w = (Normal (Some p), afterPrompts retries shown w)) /\
    (prompt_answer E (promptReads w + retries) = None \/
     prompt_answer E (promptReads w + retries) = Some EmptyString ->
     promptForCoords H E fuel w =
       (Thrown "緯度・経度の入力がキャンセルされました"%string, afterPrompts retries shown w)).
Proof.
  revert fuel w. induction retries as [| retries IH]; intros fuel w Hfuel Hbad.
  - destruct fuel as [| fuel]; [lia |]. exists []. split; [reflexivity |].
    split; [constructor |]. rewrite Nat.add_0_r. split.
    + intros input p Hans Hread. rewrite promptForCoords_step, Hans, Hread.
      destruct input; [discriminate Hread | reflexivity].
    + intros [Hans | Hans]; rewrite promptForCoords_step, Hans; reflexivity.
  - destruct fuel as [| fuel]; [lia |].
    destruct (Hbad 0%nat ltac:(lia)) as (first & Hfirst & Hne & Hunread).
    rewrite Nat.add_0_r in Hfirst.
    destruct (IH fuel (afterPrompts 0 [complaint first] w) ltac:(lia)) as (shown & Hlen & Hc & Hgood & Hstop).
    { intros i Hi. destruct (Hbad (S i) ltac:(lia)) as (input & Hin & Hrest).
      exists input. split; [| exact Hrest]. rewrite <- Hin. f_equal.
      unfold afterPrompts. cbn. lia. }
    assert (Hn : (promptReads (afterPrompts 0 [complaint first] w) + retries
                  = promptReads w + S retries)%nat)
      by (unfold afterPrompts; cbn; lia).
    rewrite Hn in Hgood, Hstop.
    assert (Hstep : promptForCoords H E (S fuel) w =
              promptForCoords H E fuel (afterPrompts 0 [complaint first] w)).
    { rewrite promptForCoords_step, Hfirst, Hunread.
      destruct first; [contradiction Hne; reflexivity | reflexivity]. }
    exists (complaint first :: shown). split; [cbn; congruence |].
    split; [constructor; [apply complaint_isComplaint | exact Hc] |]. split.
    + intros input p Hans Hread. rewrite Hstep, (Hgood input p Hans Hread).
      rewrite afterPrompts_next. reflexivity.
    + intros Hans. rewrite Hstep, (Hstop Hans), afterPrompts_next. reflexivity.
Qed.

(** [promptForCoords] changes nothing but the prompt count and the
    alerts, and what it does depends on the world only through the prompt
    count. *)
Lemma promptForCoords_dialogue (H : Host) (E : Env) (fuel : nat) :
  forall w w0 : World,
    promptReads w0 = promptReads w ->
    exists r asked shown,
      promptForCoords H E fuel w =
        (r, set_alerts (alerts w ++ shown) (set_promptReads (promptReads w + asked) w)) /\
      promptForCoords H E fuel w0 =
        (r, set_alerts (alerts w0 ++ shown) (set_promptReads (promptReads w0 + asked) w0)) /\
      Forall isComplaint shown.
Proof.
  assert (Hsame : forall w : World,
            w = set_alerts (alerts w ++ []) (set_promptReads (promptReads w + 0) w)).
  { intros w. destruct w. unfold set_alerts, set_promptReads. cbn.
    rewrite app_nil_r, Nat.add_0_r. reflexivity. }
  assert (Hone : forall w : World,
            afterPrompts 0 [] w =
              set_alerts (alerts w ++ []) (set_promptReads (promptReads w + 1) w)).
  { intros w. unfold afterPrompts, set_alerts, set_promptReads. cbn.
    f_equal; lia. }
  assert (Hmore : forall (w : World) msg asked shown,
            set_alerts (alerts (afterPrompts 0 [msg] w) ++ shown)
              (set_promptReads (promptReads (afterPrompts 0 [msg] w) + asked)
                 (afterPrompts 0 [msg] w)) =
            set_alerts (alerts w ++ msg :: shown)
              (set_promptReads (promptReads w + S asked) w)).
  { intros w msg asked shown. unfold afterPrompts, set_alerts, set_promptReads. cbn.
    rewrite <- app_assoc. cbn [app]. f_equal; lia. }
  induction fuel as [| fuel IH]; intros w w0 Hn.
  - exists (Normal None), 0%nat, []. cbn [promptForCoords]. unfold ret.
    rewrite <- !Hsame. split; [reflexivity | split; [reflexivity | constructor]].
  - rewrite !promptForCoords_step.
    replace (prompt_answer E (promptReads w0)) with (prompt_answer E (promptReads w))
      by (rewrite Hn; reflexivity).
    destruct (prompt_answer E (promptReads w)) as [[| c rest] |].
    + eexists _, 1%nat, []. rewrite !Hone.
      split; [reflexivity | split; [reflexivity | constructor]].
    + destruct (readCoords H (String c rest)) as [p |].
      * eexists _, 1%nat, []. rewrite !Hone.
      split; [reflexivity | split; [reflexivity | constructor]].
      * destruct (IH (afterPrompts 0 [complaint (String c rest)] w)
                     (afterPrompts 0 [complaint (String c rest)] w0))
          as (r & asked & shown & Hr & Hr0 & Hc).
        { unfold afterPrompts. cbn. rewrite Hn. reflexivity. }
        exists r, (S asked), (complaint (String c rest) :: shown).
        rewrite Hr, Hr0, !Hmore.
        split; [reflexivity |]. split; [reflexivity |].
        constructor; [apply complaint_isComplaint | exact Hc].
    + eexists _, 1%nat, []. rewrite !Hone.
      split; [reflexivity | split; [reflexivity | constructor]].
Qed.

(** One position request: what it yields depends on the world only
    through the two counters, it changes nothing but those counters and
    the alerts, and when the device has a position nobody is asked or
    told anything. *)
Lemma getCurrentPositionOrPrompt_run (H : Host) (E : Env) (w w0 : World) :
  positionReads w0 = positionReads w ->
  promptReads w0 = promptReads w ->
  exists outcome asked shown,
    getCurrentPositionOrPrompt H E w = (outcome, afterDialogue asked shown w) /\
    getCurrentPositionOrPrompt H E w0 = (outcome, afterDialogue asked shown w0) /\
    Forall isComplaint shown /\
    (forall p, position E (positionReads w) = Some p ->
       outcome = Normal p /\ asked = 0%nat /\ shown = []).
Proof.
  intros Hpos Hpr. unfold getCurrentPositionOrPrompt. rewrite Hpos.
  destruct (position E (positionReads w)) as [p |].
  - exists (Normal p), 0%nat, [].
    assert (Hsame : forall w1 : World,
              set_positionReads (S (positionReads w)) w1 =
                set_alerts (alerts w1 ++ [])
                  (set_promptReads (promptReads w1 + 0)
                     (set_positionReads (S (positionReads w)) w1))).
    { intros w1. unfold set_alerts, set_promptReads, set_positionReads. cbn.
      rewrite app_nil_r, Nat.add_0_r. reflexivity. }
    unfold afterDialogue. rewrite Hpos, <- !Hsame.
    split; [reflexivity |]. split; [reflexivity |]. split; [constructor |].
    intros q Hq. injection Hq as ->. auto.
  - destruct (promptForCoords_dialogue H E (stackDepth H)
                (set_positionReads (S (positionReads w)) w)
                (set_positionReads (S (positionReads w)) w0))
      as (r & asked & shown & Hr & Hr0 & Hc); [cbn; exact Hpr |].
    unfold bind. rewrite Hr, Hr0. unfold afterDialogue. rewrite Hpos.
    destruct r as [[p |] | m]; eexists _, asked, shown;
      (split; [reflexivity |]); (split; [reflexivity |]);
      (split; [exact Hc |]); intros q Hq; discriminate Hq.
Qed.

Lemma located_device (H : Host) (E : Env) (w : World) (p : float * float) :
  position E (positionReads w) = Some p ->
  located H E w = Some p /\
  afterLocating H E w = set_positionReads (S (positionReads w)) w.
Proof.
  intros Hp. unfold located, afterLocating, completion, exec, getCurrentPositionOrPrompt.
  rewrite Hp. split; reflexivity.
Qed.


(** A position request leaves everything but the two counters and the
    alerts alone. *)
Lemma afterLocating_frame (H : Host) (E : Env) (w : World) :
  currentSession (afterLocating H E w) = currentSession w /\
  database (afterLocating H E w) = database w /\
  requests (afterLocating H E w) = requests w /\
  onLine (afterLocating H E w) = onLine w /\
  appConfig (afterLocating H E w) = appConfig w /\
  clockReads (afterLocating H E w) = clockReads w /\
  watchReads (afterLocating H E w) = watchReads w /\
  clearedWatches (afterLocating H E w) = clearedWatches w /\
  positionReads (afterLocating H E w) = S (positionReads w).
Proof.
  destruct (getCurrentPositionOrPrompt_run H E w w eq_refl eq_refl)
    as (outcome & asked & shown & Hg & _).
  unfold afterLocating, exec. rewrite Hg. cbn. repeat split.
Qed.

Lemma located_counters (H : Host) (E : Env) (w w0 : World) :
  positionReads w0 = positionReads w ->
  promptReads w0 = promptReads w ->
  located H E w0 = located H E w.
Proof.
  intros Hpos Hpr.
  destruct (getCurrentPositionOrPrompt_run H E w w0 Hpos Hpr)
    as (outcome & asked & shown & Hg & Hg0 & _).
  unfold located, completion. rewrite Hg, Hg0. reflexivity.
Qed.

(* ================================================================== *)
(** * Breaks and rests *)

(** What a toggle does to an active session. *)
Lemma toggleInterval_run (H : Host) (E : Env) (read : SessionState -> list BreakLog.t)
    (write : list BreakLog.t -> SessionState -> SessionState)
    (w : World) (s : SessionState) :
  currentSession w = Some s ->
  toggleInterval H E read write w =
    (Normal tt,
     set_currentSession
       (Some (write (toggled (Date_now E (clockReads w)) (located H E w) (read s)) s))
       (afterFix H E w)).
Proof.
  intros Hs.
  destruct (getCurrentPositionOrPrompt_run H E w w eq_refl eq_refl)
    as (outcome & asked & shown & Hg & _).
  unfold toggleInterval, bind at 1. cbn [get]. rewrite Hs.
  unfold toggled, afterFix, afterLocating, located, completion, exec, try_catch, bind,
    dateNow, updateSession, modify.
  destruct (last_is_open (read s)); cbv beta; rewrite Hg;
    destruct outcome as [p | m]; cbn; rewrite Hs; reflexivity.
Qed.

(** C7. From an active session without breaks, and with the clock not
    running backwards between the two presses, two calls of
    [toggleBreak] leave exactly one break, closed, whose start is not
    after its end; a third call leaves exactly two breaks, that closed
    one followed by an open one. *)
Theorem toggleBreak_twice_thrice (H : Host) (E : Env) (w : World) (s : SessionState) :
  currentSession w = Some s ->
  breaks s = [] ->
  Date_now E (clockReads w) <= Date_now E (S (clockReads w)) ->
  let w2 := exec (toggleBreak H E) (exec (toggleBreak H E) w) in
  let w3 := exec (toggleBreak H E) w2 in
  exists (s2 s3 : SessionState) (b1 b2 : BreakLog.t) (e1 : Z),
    currentSession w2 = Some s2 /\ breaks s2 = [b1] /\
    BreakLog.end_ b1 = Some e1 /\ BreakLog.start b1 <= e1 /\
    currentSession w3 = Some s3 /\ breaks s3 = [b1; b2] /\
    BreakLog.is_open b1 = false /\ BreakLog.is_open b2 = true.
Proof.
  intros Hs Hb Hclock w2 w3. subst w3 w2. unfold exec, toggleBreak.
  rewrite (toggleInterval_run H E breaks set_breaks w s Hs). cbn [snd].
  erewrite toggleInterval_run by reflexivity. cbn [snd].
  erewrite toggleInterval_run by reflexivity. cbn [snd].
  unfold afterFix.
  cbn [breaks set_breaks clockReads set_clockReads set_currentSession].
  rewrite Hb. unfold toggled.
  repeat match goal with
         | |- context [located H E ?x] => destruct (located H E x) as [? |]
         end;
    cbn; do 5 eexists; repeat (split; [reflexivity |]);
    (split; [exact Hclock |]); repeat (split; [reflexivity |]); reflexivity.
Qed.

Lemma toggleBreak_twice_thrice_witness :
  let E := sampleEnv [] in
  exists (s2 : SessionState) (b1 : BreakLog.t),
    currentSession (exec (toggleBreak sampleHost E) (exec (toggleBreak sampleHost E) drivingWorld))
      = Some s2 /\
    breaks s2 = [b1] /\ BreakLog.is_open b1 = false.
Proof.
  intros E.
  destruct (toggleBreak_twice_thrice sampleHost E drivingWorld drivingSession)
    as (s2 & s3 & b1 & b2 & e1 & H2 & Hb & He & _ & _ & _ & Hc & _).
  - reflexivity.
  - reflexivity.
  - cbn. lia.
  - exists s2, b1. repeat split; assumption.
Defined.

(* ================================================================== *)
(** * Fuel stops *)

Lemma float_pos_not_nan (c : float) : (0 <? c)%float = true -> PrimFloat.is_nan c = false.
Proof.
  unfold PrimFloat.is_nan. rewrite ltb_spec, eqb_spec. unfold SFltb, SFeqb.
  destruct (Prim2SF c) as [sc | [] | | [] mc ec]; cbn; try congruence;
    change (Pos.compare_cont Eq) with Pos.compare;
    rewrite ?Z.compare_refl, ?Pos.compare_refl; cbn; congruence.
Qed.


Lemma addFuel_rejects (H : Host) (E : Env) (w : World) (s : SessionState)
    (amountStr : string) :
  currentSession w = Some s ->
  prompt_answer E (promptReads w) = Some amountStr ->
  str_truthy amountStr = true ->
  (PrimFloat.is_nan (parseFloat H amountStr) || (parseFloat H amountStr <=? 0)%float)%bool = true ->
  addFuel H E w =
    (Normal tt,
     set_alerts (alerts w ++ ["数値を入力してください。"%string])
                (set_promptReads (S (promptReads w)) w)).
Proof.
  intros Hs Hans Htruthy Hbad.
  unfold addFuel, bind at 1. cbn [get]. rewrite Hs.
  unfold bind at 1. unfold prompt at 1. rewrite Hans.
  destruct amountStr as [| ch rest]; [discriminate Htruthy |].
  rewrite Hbad. reflexivity.
Qed.

Lemma addFuel_appends (H : Host) (E : Env) (w : World) (s : SessionState)
    (amountStr : string) :
  currentSession w = Some s ->
  prompt_answer E (promptReads w) = Some amountStr ->
  str_truthy amountStr = true ->
  (PrimFloat.is_nan (parseFloat H amountStr) || (parseFloat H amountStr <=? 0)%float)%bool = false ->
  exists la lo,
    addFuel H E w =
      (Normal tt,
       set_currentSession
         (Some (set_fuelLogs (fuelLogs s ++
            [{| FuelEvent.time := Date_now E (clockReads w);
                FuelEvent.amount := parseFloat H amountStr;
                FuelEvent.cost := Some (costOfInput H (prompt_answer E (S (promptReads w))));
                FuelEvent.lat := la; FuelEvent.lng := lo |}]) s))
         (afterFix H E (set_promptReads (S (S (promptReads w))) w))).
Proof.
  intros Hs Hans Htruthy Hgood.
  unfold addFuel, bind at 1. cbn [get]. rewrite Hs.
  unfold bind at 1. unfold prompt at 1. rewrite Hans.
  destruct amountStr as [| ch rest]; [discriminate Htruthy |].
  rewrite Hgood.
  set (w1 := set_promptReads (S (S (promptReads w))) w).
  destruct (getCurrentPositionOrPrompt_run H E w1 w1 eq_refl eq_refl)
    as (outcome & asked & shown & Hg & _).
  unfold bind, prompt, try_catch, dateNow, updateSession, modify, afterFix, afterLocating,
    exec.
  cbv beta.
  repeat match goal with
         | |- context [getCurrentPositionOrPrompt H E ?x] => progress change x with w1
         end.
  rewrite Hg. destruct outcome as [p | m]; cbn; rewrite Hs; do 2 eexists; reflexivity.
Qed.



(* ================================================================== *)
(** * The accumulated distance never decreases *)

Lemma addFuel_distance (H : Host) (E : Env) (w : World) (s : SessionState) :
  currentSession w = Some s ->
  exists s', currentSession (exec (addFuel H E) w) = Some s' /\ distance s' = distance s.
Proof.
  intros Hs. unfold exec.
  destruct (prompt_answer E (promptReads w)) as [amountStr |] eqn:Hans.
  - destruct (str_truthy amountStr) eqn:Htruthy.
    + destruct (PrimFloat.is_nan (parseFloat H amountStr)
                || (parseFloat H amountStr <=? 0)%float)%bool eqn:Hbad.
      * rewrite (addFuel_rejects H E w s amountStr Hs Hans Htruthy Hbad).
        exists s. split; [exact Hs | reflexivity].
      * destruct (addFuel_appends H E w s amountStr Hs Hans Htruthy Hbad) as (la & lo & ->).
        eexists. split; reflexivity.
    + destruct amountStr; [| discriminate Htruthy].
      unfold addFuel, bind, get, prompt. rewrite Hs, Hans. cbn. eauto.
  - unfold addFuel, bind, get, prompt. rewrite Hs, Hans. cbn. eauto.
Qed.

Lemma perform_distance (H : Host) (E : Env) (a : SessionAction) (w : World) (s : SessionState) :
  currentSession w = Some s ->
  (0 <=? distance s)%float = true ->
  exists s', currentSession (exec (perform H E a) w) = Some s' /\
             (distance s <=? distance s')%float = true /\
             (0 <=? distance s')%float = true.
Proof.
  intros Hs Hd.
  assert (Hsame : forall s', distance s' = distance s ->
            (distance s <=? distance s')%float = true /\ (0 <=? distance s')%float = true).
  { intros s' ->. split; [apply float_leb_refl |]; exact Hd. }
  destruct a as [coord | | |]; cbn [perform].
  - destruct (lastOf (coords s)) as [last_coord |] eqn:Hlast.
    + unfold exec. rewrite (handleLocationUpdate_run H coord last_coord w s Hs Hlast).
      cbn [snd].
      destruct (50 <=? haversineDistance (math H) last_coord coord * 1000)%float eqn:Hacc.
      * eexists. split; [reflexivity |]. cbn.
        apply float_add_accepted; assumption.
      * exists s. split; [exact Hs | apply Hsame; reflexivity].
    + unfold exec, handleLocationUpdate, bind, get. rewrite Hs, Hlast. cbn.
      exists s. split; [exact Hs | apply Hsame; reflexivity].
  - unfold exec, toggleBreak. rewrite (toggleInterval_run H E _ _ w s Hs).
    eexists. split; [reflexivity | apply Hsame; reflexivity].
  - unfold exec, toggleRest. rewrite (toggleInterval_run H E _ _ w s Hs).
    eexists. split; [reflexivity | apply Hsame; reflexivity].
  - destruct (addFuel_distance H E w s Hs) as (s' & Hs' & Hd').
    exists s'. split; [exact Hs' | apply Hsame; exact Hd'].
Qed.

Lemma performAll_distance (H : Host) (E : Env) (actions : list SessionAction) :
  forall (w : World) (s : SessionState),
    currentSession w = Some s ->
    (0 <=? distance s)%float = true ->
    exists s', currentSession (performAll H E actions w) = Some s' /\
               (distance s <=? distance s')%float = true /\
               (0 <=? distance s')%float = true.
Proof.
  induction actions as [| a rest IH]; intros w s Hs Hd.
  - exists s. split; [exact Hs | split; [apply float_leb_refl |]; exact Hd].
  - destruct (perform_distance H E a w s Hs Hd) as (s1 & Hs1 & Hle1 & Hd1).
    destruct (IH _ s1 Hs1 Hd1) as (s2 & Hs2 & Hle2 & Hd2).
    exists s2. split; [exact Hs2 | split; [| exact Hd2]].
    eapply float_leb_trans; eassumption.
Qed.

(** C6. Along any run of location updates, break and rest toggles and
    fuel entries on an active session whose distance is at least 0 (it is
    0 when the session starts), the session stays active and the distance
    at any earlier moment is at most the distance at any later moment.
    An accepted update adds a distance of at least 50 metres, and
    binary64 addition of a positive number never rounds below the other
    operand. *)
Theorem distance_never_decreases (H : Host) (E : Env)
    (earlier later : list SessionAction) (w : World) (s : SessionState) :
  currentSession w = Some s ->
  (0 <=? distance s)%float = true ->
  exists s1 s2,
    currentSession (performAll H E earlier w) = Some s1 /\
    currentSession (performAll H E later (performAll H E earlier w)) = Some s2 /\
    (distance s <=? distance s1)%float = true /\
    (distance s1 <=? distance s2)%float = true.
Proof.
  intros Hs Hd.
  destruct (performAll_distance H E earlier w s Hs Hd) as (s1 & Hs1 & Hle1 & Hd1).
  destruct (performAll_distance H E later _ s1 Hs1 Hd1) as (s2 & Hs2 & Hle2 & _).
  exists s1, s2. auto.
Qed.

Lemma distance_never_decreases_witness :
  let E := withPrompts [Some "10.5"%string; None] (sampleEnv []) in
  let far := {| lat := 36%float; lng := 139%float; timestamp := 9 |} in
  exists s1 s2,
    currentSession (performAll sampleHost E [ToggleBreak; LocationUpdate far] drivingWorld)
      = Some s1 /\
    currentSession (performAll sampleHost E [AddFuel; ToggleBreak]
                      (performAll sampleHost E [ToggleBreak; LocationUpdate far] drivingWorld))
      = Some s2 /\
    (distance s1 <=? distance s2)%float = true.
Proof.
  intros E far.
  destruct (distance_never_decreases sampleHost E [ToggleBreak; LocationUpdate far]
              [AddFuel; ToggleBreak] drivingWorld drivingSession)
    as (s1 & s2 & H1 & H2 & _ & Hle).
  - reflexivity.
  - vm_compute. reflexivity.
  - exists s1, s2. auto.
Defined.

(* ================================================================== *)
(** * Ending a session *)

Lemma sameApp_refl (w : World) : sameApp w w.
Proof. repeat split. Qed.

Lemma sameApp_trans (w1 w2 w3 : World) : sameApp w1 w2 -> sameApp w2 w3 -> sameApp w1 w3.
Proof.
  unfold sameApp. intros (? & ? & ? & ? & ?) (? & ? & ? & ? & ?).
  repeat split; congruence.
Qed.

Lemma sumIntervals_run (E : Env) (l : list BreakLog.t) :
  forall (sum : Z) (w : World),
    exists z w', sumIntervals E l sum w = (Normal z, w') /\ sameApp w w'.
Proof.
  induction l as [| b rest IH]; intros sum w; cbn [sumIntervals].
  - exists sum, w. split; [reflexivity | apply sameApp_refl].
  - unfold bind at 1.
    destruct (opt_int_truthy (BreakLog.end_ b)).
    + cbn [ret]. apply IH.
    + unfold dateNow at 1.
      destruct (IH (sum + (Date_now E (clockReads w) - BreakLog.start b))
                   (set_clockReads (S (clockReads w)) w)) as (z & w' & Hrun & Hsame).
      exists z, w'. split; [exact Hrun |].
      eapply sameApp_trans; [| exact Hsame]. repeat split.
Qed.

Lemma composeRecord_run (H : Host) (E : Env) (s : SessionState) (endCoord : Coordinate)
    (w : World) :
  exists record w',
    composeRecord H E s endCoord w = (Normal record, w') /\ sameApp w w' /\
    LogRecord.id record = None /\
    LogRecord.distanceKm record = parseFloat H (toFixed H (distance s) 3) /\
    LogRecord.arrivalLat record = lat endCoord /\
    LogRecord.arrivalLng record = lng endCoord.
Proof.
  unfold composeRecord, totalBreakMs, totalRestMs.
  destruct (sumIntervals_run E (breaks s) 0 w) as (tb & w1 & Hb & Hs1).
  destruct (sumIntervals_run E (rests s) 0 w1) as (tr & w2 & Hr & Hs2).
  unfold bind at 1. rewrite Hb. unfold bind at 1. rewrite Hr.
  unfold bind, dateNow, prompt, ret.
  eexists. eexists. split; [reflexivity |].
  split; [| repeat split].
  eapply sameApp_trans; [exact Hs1 |]. eapply sameApp_trans; [exact Hs2 |].
  destruct Hs2 as (? & ? & ? & ? & ?). repeat split.
Qed.

(** Closing the track: the watch is cleared, one position is asked for,
    and the arrival point goes onto the track whatever comes of it. *)
Lemma closeTrack_full (H : Host) (E : Env) (w : World) (s : SessionState) :
  currentSession w = Some s ->
  exists endCoord w' shown,
    closeTrack H E s w = (Normal endCoord, w') /\
    currentSession w' = Some (set_coords (coords s ++ [endCoord]) s) /\
    database w' = database w /\ onLine w' = onLine w /\ appConfig w' = appConfig w /\
    requests w' = requests w /\
    alerts w' = alerts w ++ shown /\ Forall isComplaint shown /\
    (forall p, position E (positionReads w) = Some p -> shown = []) /\
    clearedWatches w' =
      clearedWatches w ++ match watchId s with Some k => [k] | None => [] end /\
    endCoord =
      match located H E w with
      | Some p => {| lat := fst p; lng := snd p; timestamp := Date_now E (S (clockReads w)) |}
      | None => {| lat := 0%float; lng := 0%float; timestamp := Date_now E (clockReads w) |}
      end.
Proof.
  intros Hs.
  unfold closeTrack, bind, clearWatch, modify, dateNow, try_catch, updateSession, ret,
    located, completion.
  destruct (watchId s) as [k |]; cbv beta;
    match goal with
    | |- context [getCurrentPositionOrPrompt H E (set_clockReads ?n ?x)] =>
        destruct (getCurrentPositionOrPrompt_run H E w (set_clockReads n x) eq_refl eq_refl)
          as (outcome & asked & shown & Hg & Hg0 & Hc & Hdev)
    end;
    rewrite Hg0, Hg; destruct outcome as [p | m]; cbn; rewrite Hs;
    do 2 eexists; exists shown; (split; [reflexivity |]); cbn; rewrite ?app_nil_r;
    repeat split; try exact Hc; intros q Hq; apply (Hdev q Hq).
Qed.

Lemma closeTrack_run (H : Host) (E : Env) (w : World) (s : SessionState) :
  currentSession w = Some s ->
  exists endCoord w',
    closeTrack H E s w = (Normal endCoord, w') /\
    currentSession w' = Some (set_coords (coords s ++ [endCoord]) s) /\
    database w' = database w /\ onLine w' = onLine w /\ appConfig w' = appConfig w /\
    requests w' = requests w.
Proof.
  intros Hs.
  destruct (closeTrack_full H E w s Hs)
    as (endCoord & w' & shown & Hrun & Hs' & Hdb & Hon & Hcfg & Hrq & _).
  exists endCoord, w'. auto 10.
Qed.

Lemma insert_row_In (k : Z) (r : LogRecord.t) (rs : list (Z * LogRecord.t)) :
  In (k, r) (IDB.insert_row k r rs).
Proof.
  induction rs as [| [k' r'] rest IH]; cbn; [auto |].
  destruct (k <? k'); cbn; auto.
Qed.

Lemma insert_row_keeps (k : Z) (r : LogRecord.t) (rs : list (Z * LogRecord.t)) x :
  In x rs -> In x (IDB.insert_row k r rs).
Proof.
  induction rs as [| [k' r'] rest IH]; cbn; [auto |].
  destruct (k <? k'); cbn; intuition.
Qed.

Lemma lastOf_app {A} (l : list A) (x : A) : lastOf (l ++ [x]) = Some x.
Proof.
  induction l as [| y rest IH]; [reflexivity |].
  cbn [app lastOf]. destruct (rest ++ [x]) eqn:Hr.
  - destruct rest; discriminate Hr.
  - exact IH.
Qed.

Lemma addFuel_track (H : Host) (E : Env) (w : World) (s : SessionState) :
  currentSession w = Some s ->
  exists s', currentSession (exec (addFuel H E) w) = Some s' /\
             distance s' = distance s /\ coords s' = coords s.
Proof.
  intros Hs. unfold exec.
  destruct (prompt_answer E (promptReads w)) as [amountStr |] eqn:Hans.
  - destruct (str_truthy amountStr) eqn:Htruthy.
    + destruct (PrimFloat.is_nan (parseFloat H amountStr)
                || (parseFloat H amountStr <=? 0)%float)%bool eqn:Hbad.
      * rewrite (addFuel_rejects H E w s amountStr Hs Hans Htruthy Hbad).
        exists s. split; [exact Hs | split; reflexivity].
      * destruct (addFuel_appends H E w s amountStr Hs Hans Htruthy Hbad) as (la & lo & ->).
        eexists. split; [reflexivity | split; reflexivity].
    + destruct amountStr; [| discriminate Htruthy].
      unfold addFuel, bind, get, prompt. rewrite Hs, Hans. cbn. eauto.
  - unfold addFuel, bind, get, prompt. rewrite Hs, Hans. cbn. eauto.
Qed.

Lemma perform_accrued (H : Host) (E : Env) (a : SessionAction) (w : World)
    (s : SessionState) (last_coord : Coordinate) :
  currentSession w = Some s ->
  lastOf (coords s) = Some last_coord ->
  exists s', currentSession (exec (perform H E a) w) = Some s' /\
    lastOf (coords s') = Some (fst (accrueStep (math H) (last_coord, distance s) a)) /\
    distance s' = snd (accrueStep (math H) (last_coord, distance s) a).
Proof.
  intros Hs Hlast. destruct a as [coord | | |]; cbn [perform accrueStep fst snd].
  - unfold exec. rewrite (handleLocationUpdate_run H coord last_coord w s Hs Hlast).
    cbn [snd].
    destruct (50 <=? haversineDistance (math H) last_coord coord * 1000)%float.
    + eexists. split; [reflexivity |]. cbn. split; [apply lastOf_app | reflexivity].
    + exists s. auto.
  - unfold exec, toggleBreak. rewrite (toggleInterval_run H E _ _ w s Hs).
    eexists. split; [reflexivity |]. cbn. auto.
  - unfold exec, toggleRest. rewrite (toggleInterval_run H E _ _ w s Hs).
    eexists. split; [reflexivity |]. cbn. auto.
  - destruct (addFuel_track H E w s Hs) as (s' & Hs' & Hd & Hc).
    exists s'. rewrite Hc, Hd. auto.
Qed.

Lemma performAll_accrued (H : Host) (E : Env) (actions : list SessionAction) :
  forall (w : World) (s : SessionState) (last_coord : Coordinate),
    currentSession w = Some s ->
    lastOf (coords s) = Some last_coord ->
    exists s', currentSession (performAll H E actions w) = Some s' /\
               distance s' = accrued (math H) last_coord (distance s) actions.
Proof.
  induction actions as [| a rest IH]; intros w s last_coord Hs Hlast.
  - exists s. split; [exact Hs | reflexivity].
  - destruct (perform_accrued H E a w s last_coord Hs Hlast) as (s1 & Hs1 & Hl1 & Hd1).
    destruct (IH _ s1 _ Hs1 Hl1) as (s2 & Hs2 & Hd2).
    exists s2. split; [exact Hs2 |].
    rewrite Hd2, Hd1. unfold accrued. cbn [fold_left].
    destruct (accrueStep (math H) (last_coord, distance s) a); reflexivity.
Qed.

(** C10. Take an active session, let any location updates, toggles and
    fuel entries happen, then end it. [endSession] pushes the arrival
    coordinate onto the track whatever its distance from the last
    accepted point (no threshold is consulted) and leaves the
    accumulated distance as it was; the record is built from that
    session, so its [distanceKm] is the sum of the accepted updates'
    distances put through [toFixed(3)] and [parseFloat], with nothing
    added for the leg to the arrival point. That record, with the key
    the store assigns, is in the canonical store afterwards and the
    session is gone. *)
Theorem endSession_distance_without_last_leg (H : Host) (E : Env)
    (actions : list SessionAction) (w : World) (s : SessionState)
    (last_coord : Coordinate) :
  currentSession w = Some s ->
  lastOf (coords s) = Some last_coord ->
  let wd := performAll H E actions w in
  let total := accrued (math H) last_coord (distance s) actions in
  exists (sd : SessionState) (endCoord : Coordinate) (w1 : World)
         (record : LogRecord.t) (w2 : World),
    currentSession wd = Some sd /\
    distance sd = total /\
    closeTrack H E sd wd = (Normal endCoord, w1) /\
    currentSession w1 = Some (set_coords (coords sd ++ [endCoord]) sd) /\
    composeRecord H E (set_coords (coords sd ++ [endCoord]) sd) endCoord w1
      = (Normal record, w2) /\
    LogRecord.distanceKm record = parseFloat H (toFixed H total 3) /\
    LogRecord.arrivalLat record = lat endCoord /\
    LogRecord.arrivalLng record = lng endCoord /\
    completion (endSession H E) wd = Normal tt /\
    currentSession (exec (endSession H E) wd) = None /\
    In (LogRecord.with_id (IDB.nextKey (logs (database wd))) record)
       (canonical (exec (endSession H E) wd)).
Proof.
  intros Hs Hlast wd total.
  destruct (performAll_accrued H E actions w s last_coord Hs Hlast) as (sd & Hsd & Hd).
  fold wd in Hsd. fold total in Hd.
  destruct (closeTrack_run H E wd sd Hsd) as (endCoord & w1 & Hclose & Hs1 & Hdb1 & Hon1 & Hcfg1 & Hrq1).
  destruct (composeRecord_run H E (set_coords (coords sd ++ [endCoord]) sd) endCoord w1)
    as (record & w2 & Hcomp & (Hs2 & Hdb2 & Hon2 & Hcfg2 & Hrq2) & Hid & Hkm & Hla & Hlo).
  exists sd, endCoord, w1, record, w2.
  split; [exact Hsd |]. split; [exact Hd |]. split; [exact Hclose |].
  split; [exact Hs1 |]. split; [exact Hcomp |].
  split; [rewrite Hkm, <- Hd; reflexivity |]. split; [exact Hla |]. split; [exact Hlo |].
  assert (Hrun : exists w3,
            endSession H E wd = (Normal tt, set_currentSession None (afterPass E w3)) /\
            IDB.rows (logs (database w3)) =
              IDB.insert_row (IDB.nextKey (logs (database wd)))
                (LogRecord.with_id (IDB.nextKey (logs (database wd))) record)
                (IDB.rows (logs (database wd)))).
  { unfold endSession, bind at 1. cbn [get]. rewrite Hsd.
    unfold bind at 1. rewrite Hclose.
    unfold bind at 1. cbn [get]. rewrite Hs1.
    unfold bind at 1. rewrite Hcomp.
    unfold bind at 1. cbn [get].
    unfold bind at 1. unfold saveLog, IDB.add. rewrite Hid.
    rewrite Hdb2, Hdb1.
    destruct (negb (onLine w2));
      unfold bind; rewrite sendPendingIfOnline_run; cbn [modify];
      eexists; (split; [reflexivity | reflexivity]). }
  destruct Hrun as (w3 & Hrun & Hrows).
  unfold completion, exec. rewrite Hrun. cbn [fst snd].
  split; [reflexivity |]. split; [reflexivity |].
  unfold canonical. cbn [database set_currentSession]. rewrite afterPass_canonical.
  unfold IDB.getAll. rewrite Hrows.
  set (k := IDB.nextKey (logs (database wd))).
  change (LogRecord.with_id k record) with (snd (k, LogRecord.with_id k record)).
  apply in_map, insert_row_In.
Qed.

Lemma endSession_distance_without_last_leg_witness :
  let H := sampleHost in
  let E := sampleEnv [] in
  let far := {| lat := 36%float; lng := 139%float; timestamp := 9 |} in
  let wd := performAll H E [LocationUpdate far; ToggleBreak] drivingWorld in
  exists record,
    In (LogRecord.with_id 1 record) (canonical (exec (endSession H E) wd)) /\
    LogRecord.distanceKm record =
      parseFloat H (toFixed H (accrued (math H) {| lat := 35%float; lng := 139%float; timestamp := 0 |}
                                 0%float [LocationUpdate far; ToggleBreak]) 3) /\
    LogRecord.arrivalLat record = 35.5%float.
Proof.
  intros H E far wd.
  destruct (endSession_distance_without_last_leg H E [LocationUpdate far; ToggleBreak]
              drivingWorld drivingSession
              {| lat := 35%float; lng := 139%float; timestamp := 0 |} eq_refl eq_refl)
    as (sd & endCoord & w1 & record & w2 & Hsd & _ & Hclose & _ & _ & Hkm & Hla & _ & _ & _ & Hin).
  exists record. split; [exact Hin | split; [exact Hkm |]].
  rewrite Hla. vm_compute in Hsd. injection Hsd as <-.
  vm_compute in Hclose. injection Hclose as <- _. reflexivity.
Defined.

(* ================================================================== *)
(** * Starting a session *)

(** A session that [startSession] has just created starts from distance 0
    with the start point as its whole track and no events. *)
Lemma startSession_fresh (H : Host) (E : Env) (w : World) (p : float * float) (k : Z) :
  currentSession w = None ->
  position E (positionReads w) = Some p ->
  watch_handle E (watchReads w) = Some k ->
  exists s, currentSession (exec (startSession H E) w) = Some s /\
    distance s = 0%float /\
    coords s = [{| lat := fst p; lng := snd p; timestamp := Date_now E (clockReads w) |}] /\
    startCoord s = lastOf (coords s) /\
    breaks s = [] /\ rests s = [] /\ fuelLogs s = [] /\ watchId s = Some k.
Proof.
  intros Hs Hp Hk.
  unfold exec, startSession, bind at 1. cbn [get]. rewrite Hs.
  unfold try_catch, bind, getCurrentPositionOrPrompt, dateNow, modify, watchPosition,
    updateSession.
  rewrite Hp. cbn. rewrite Hk. cbn.
  eexists. split; [reflexivity |]. cbn. repeat split.
Qed.

(** While a session is active [startSession] does nothing. *)
Lemma startSession_active_noop (H : Host) (E : Env) (w : World) (s : SessionState) :
  currentSession w = Some s -> startSession H E w = (Normal tt, w).
Proof.
  intros Hs. unfold startSession, bind, get. rewrite Hs. reflexivity.
Qed.

(* ================================================================== *)
(** * The distance from a point to itself *)

Lemma float_sub_self (x : float) : finiteFloat x = true -> (x - x)%float = 0%float.
Proof.
  unfold finiteFloat. intros Hx. apply Prim2SF_inj. rewrite sub_spec.
  change (Prim2SF 0) with (S754_zero false). unfold SF64sub.
  destruct (Prim2SF x) as [s | s | | s m e]; try discriminate Hx.
  - destruct s; reflexivity.
  - cbn [SFsub]. rewrite Z.sub_diag. reflexivity.
Qed.

Lemma float_zero_product (c1 c2 : float) :
  finiteFloat c1 = true -> finiteFloat c2 = true ->
  (0 + 0 * c1 * c2)%float = 0%float.
Proof.
  unfold finiteFloat. intros H1 H2. apply Prim2SF_inj.
  rewrite add_spec, !mul_spec. change (Prim2SF 0) with (S754_zero false).
  destruct (Prim2SF c1) as [s1 | s1 | | s1 m1 e1]; try discriminate H1;
    destruct (Prim2SF c2) as [s2 | s2 | | s2 m2 e2]; try discriminate H2;
    destruct s1, s2; reflexivity.
Qed.

(** With the values ECMAScript prescribes for [Math.sin(0)], [0 ** 2],
    [Math.sqrt(0)], [Math.sqrt(1)] and [Math.atan2(0, 1)], and a cosine
    that is finite at the point's latitude, the distance from a point
    with finite coordinates to itself is exactly [0]. *)
Lemma haversineDistance_self (M : MathLib) (a : Coordinate) :
  finiteFloat (lat a) = true ->
  finiteFloat (lng a) = true ->
  Math_sin M 0%float = 0%float ->
  Math_pow M 0%float 2%float = 0%float ->
  finiteFloat (Math_cos M (toRadians (lat a))) = true ->
  Math_sqrt M 0%float = 0%float ->
  Math_sqrt M 1%float = 1%float ->
  Math_atan2 M 0%float 1%float = 0%float ->
  haversineDistance M a a = 0%float.
Proof.
  intros Hlat Hlng Hsin Hpow Hcos Hsqrt0 Hsqrt1 Hatan.
  unfold haversineDistance. cbv zeta.
  rewrite (float_sub_self _ Hlat), (float_sub_self _ Hlng).
  replace (toRadians 0 / 2)%float with 0%float by reflexivity.
  rewrite Hsin, Hpow, (float_zero_product _ _ Hcos Hcos).
  replace (1 - 0)%float with 1%float by reflexivity.
  rewrite Hsqrt0, Hsqrt1, Hatan. reflexivity.
Qed.

(** A position with an infinite latitude, which the manual prompt lets
    through ([parseFloat] reads the word Infinity and [isNaN] does not
    reject it), is at a NaN distance from itself whenever the host's
    functions hand NaN on, as ECMAScript prescribes. *)
Lemma haversineDistance_self_infinite (M : MathLib) (a : Coordinate) :
  lat a = infinity ->
  Math_sin M nan = nan ->
  (forall y, Math_pow M nan y = nan) ->
  Math_sqrt M nan = nan ->
  (forall x, Math_atan2 M nan x = nan) ->
  PrimFloat.is_nan (haversineDistance M a a) = true /\
  PrimFloat.eqb (haversineDistance M a a) 0%float = false.
Proof.
  intros Hlat Hsin Hpow Hsqrt Hatan.
  assert (Hnan_add : forall y, (nan + y)%float = nan).
  { intros y. apply Prim2SF_inj. rewrite add_spec.
    change (Prim2SF nan) with S754_nan. reflexivity. }
  assert (Hd : haversineDistance M a a = nan).
  { unfold haversineDistance. cbv zeta. rewrite Hlat.
    replace (toRadians (infinity - infinity) / 2)%float with nan by reflexivity.
    rewrite Hsin, Hpow, Hnan_add, Hsqrt, Hatan. reflexivity. }
  rewrite Hd. split; reflexivity.
Qed.
















(* ================================================================== *)
(** * Further consequences *)

(** Any number of updates that all lie under 50 metres from the last
    accepted point leave the whole world, and so the distance and the
    track, as they were. *)
Lemma jitter_is_ignored (H : Host) (E : Env) (updates : list Coordinate)
    (w : World) (s : SessionState) (last_coord : Coordinate) :
  currentSession w = Some s ->
  lastOf (coords s) = Some last_coord ->
  (forall c, In c updates ->
     (haversineDistance (math H) last_coord c * 1000 <? 50)%float = true) ->
  performAll H E (map LocationUpdate updates) w = w.
Proof.
  intros Hs Hlast. induction updates as [| c rest IH]; intros Hnear; [reflexivity |].
  cbn [map].
  change (performAll H E (LocationUpdate c :: map LocationUpdate rest) w)
    with (performAll H E (map LocationUpdate rest) (snd (handleLocationUpdate H c w))).
  rewrite (handleLocationUpdate_run H c last_coord w s Hs Hlast). cbn [snd].
  rewrite (float_ltb_leb _ _ (Hnear c (or_introl eq_refl))).
  apply IH. intros c' Hc'. apply Hnear. right. exact Hc'.
Qed.

(** A record built by the application (it carries no [id]) and saved
    while offline lands in both stores, each store writing its own key
    into its copy. *)
Lemma saveLog_offline_queues (record : LogRecord.t) (w : World) :
  LogRecord.id record = None ->
  completion (saveLog record true) w = Normal tt /\
  In (LogRecord.with_id (IDB.nextKey (logs (database w))) record)
     (canonical (exec (saveLog record true) w)) /\
  In (LogRecord.with_id (IDB.nextKey (pending (database w))) record)
     (queue (exec (saveLog record true) w)) /\
  (forall r, In r (canonical w) -> In r (canonical (exec (saveLog record true) w))).
Proof.
  intros Hid. unfold completion, exec, saveLog, IDB.add, canonical, queue, IDB.getAll.
  rewrite Hid. cbn. split; [reflexivity |]. split; [| split].
  - set (k := IDB.nextKey (logs (database w))).
    change (LogRecord.with_id k record) with (snd (k, LogRecord.with_id k record)).
    apply in_map, insert_row_In.
  - set (k := IDB.nextKey (pending (database w))).
    change (LogRecord.with_id k record) with (snd (k, LogRecord.with_id k record)).
    apply in_map, insert_row_In.
  - intros r Hr. apply in_map_iff in Hr. destruct Hr as (x & <- & Hx).
    apply in_map, insert_row_keeps, Hx.
Qed.

(* ================================================================== *)
(** * The stores' keys *)

Lemma insert_row_last (k : Z) (r : LogRecord.t) (rs : list (Z * LogRecord.t)) :
  forallb (fun kr => fst kr <? k) rs = true ->
  IDB.insert_row k r rs = rs ++ [(k, r)].
Proof.
  induction rs as [| [k' r'] rest IH]; cbn; [reflexivity |].
  intros Hall. apply andb_prop in Hall. destruct Hall as [Hk Hrest].
  apply Z.ltb_lt in Hk. destruct (k <? k') eqn:Hlt; [apply Z.ltb_lt in Hlt; lia |].
  rewrite IH by exact Hrest. reflexivity.
Qed.

Lemma keyed_below (bound : Z) (rs : list (Z * LogRecord.t)) :
  forallb (keyed bound) rs = true -> forallb (fun kr => fst kr <? bound) rs = true.
Proof.
  induction rs as [| kr rest IH]; cbn; [reflexivity |].
  intros Hall. apply andb_prop in Hall. destruct Hall as [Hk Hrest].
  unfold keyed in Hk. apply andb_prop in Hk. rewrite (proj1 Hk), IH by exact Hrest.
  reflexivity.
Qed.

Lemma keyed_raise (b b' : Z) (rs : list (Z * LogRecord.t)) :
  b <= b' -> forallb (keyed b) rs = true -> forallb (keyed b') rs = true.
Proof.
  intros Hb. induction rs as [| kr rest IH]; cbn; [reflexivity |].
  intros Hall. apply andb_prop in Hall. destruct Hall as [Hk Hrest].
  rewrite IH by exact Hrest. unfold keyed in *. apply andb_prop in Hk.
  destruct Hk as [Hlt Hid]. rewrite Hid. apply Z.ltb_lt in Hlt.
  replace (fst kr <? b') with true by (symmetry; apply Z.ltb_lt; lia). reflexivity.
Qed.

Lemma ascending_insert (k : Z) (r : LogRecord.t) (rs : list (Z * LogRecord.t)) :
  ascending rs = true -> IDB.has_key k rs = false ->
  ascending (IDB.insert_row k r rs) = true.
Proof.
  induction rs as [| [k1 r1] rest IH]; [reflexivity |].
  intros Hasc Hfree. cbn [IDB.insert_row].
  cbn in Hfree. apply orb_false_elim in Hfree. destruct Hfree as [Hne Hfree].
  apply Z.eqb_neq in Hne.
  destruct (k <? k1) eqn:Hlt.
  - cbn [ascending]. rewrite Hlt. exact Hasc.
  - apply Z.ltb_ge in Hlt.
    destruct rest as [| [k2 r2] rest'].
    + cbn. replace (k1 <? k) with true by (symmetry; apply Z.ltb_lt; lia). reflexivity.
    + cbn [ascending] in Hasc. apply andb_prop in Hasc. destruct Hasc as [H12 Hasc].
      specialize (IH Hasc Hfree). cbn [IDB.insert_row] in IH |- *.
      destruct (k <? k2) eqn:Hlt2.
      * cbn [ascending]. replace (k1 <? k) with true by (symmetry; apply Z.ltb_lt; lia).
        rewrite Hlt2. cbn. exact Hasc.
      * cbn [ascending]. rewrite H12. cbn. exact IH.
Qed.

Lemma forallb_insert (P : Z * LogRecord.t -> bool) (k : Z) (r : LogRecord.t)
    (rs : list (Z * LogRecord.t)) :
  P (k, r) = true -> forallb P rs = true -> forallb P (IDB.insert_row k r rs) = true.
Proof.
  intros Hp. induction rs as [| [k1 r1] rest IH]; cbn; [rewrite Hp; reflexivity |].
  intros Hall. apply andb_prop in Hall. destruct Hall as [H1 Hrest].
  destruct (k <? k1); cbn; rewrite ?Hp, ?H1, ?Hrest, ?IH by assumption; reflexivity.
Qed.

Lemma has_id_with_id (k : Z) (r : LogRecord.t) : has_id k (LogRecord.with_id k r) = true.
Proof. unfold has_id. cbn. apply Z.eqb_refl. Qed.

Lemma add_wellKeyed (r : LogRecord.t) (s s' : IDB.ObjectStore) :
  wellKeyed s = true -> IDB.add r s = Some s' -> wellKeyed s' = true.
Proof.
  unfold wellKeyed, IDB.add. intros Hwf Hadd.
  apply andb_prop in Hwf. destruct Hwf as [Hasc Hkeys].
  destruct (LogRecord.id r) as [k |] eqn:Hid.
  - destruct (IDB.has_key k (IDB.rows s)) eqn:Hfree; [discriminate Hadd |].
    injection Hadd as <-. cbn [IDB.rows IDB.nextKey].
    rewrite (ascending_insert _ _ _ Hasc Hfree). cbn [andb].
    apply forallb_insert.
    + unfold keyed, has_id. cbn [fst snd]. rewrite Hid, Z.eqb_refl.
      replace (k <? Z.max (IDB.nextKey s) (k + 1)) with true
        by (symmetry; apply Z.ltb_lt; lia).
      reflexivity.
    + eapply keyed_raise; [| exact Hkeys]. lia.
  - injection Hadd as <-. cbn [IDB.rows IDB.nextKey].
    rewrite (insert_row_last _ _ _ (keyed_below _ _ Hkeys)).
    assert (Hnew : keyed (IDB.nextKey s + 1)
                     (IDB.nextKey s, LogRecord.with_id (IDB.nextKey s) r) = true).
    { unfold keyed. cbn [fst snd]. rewrite has_id_with_id.
      replace (IDB.nextKey s <? IDB.nextKey s + 1) with true
        by (symmetry; apply Z.ltb_lt; lia).
      reflexivity. }
    rewrite forallb_app. cbn [forallb]. rewrite Hnew.
    rewrite (keyed_raise (IDB.nextKey s) (IDB.nextKey s + 1)) by (lia || exact Hkeys).
    rewrite andb_true_r. cbn [andb].
    apply keyed_below in Hkeys. clear Hnew.
    induction (IDB.rows s) as [| [k1 r1] rest IH]; [reflexivity |].
    cbn [forallb fst] in Hkeys. apply andb_prop in Hkeys. destruct Hkeys as [Hk1 Hrest].
    destruct rest as [| [k2 r2] rest']; cbn [app ascending] in *.
    + rewrite Hk1. reflexivity.
    + apply andb_prop in Hasc. destruct Hasc as [H12 Hasc].
      rewrite H12. cbn [andb]. apply IH; assumption.
Qed.

Lemma ascending_head (k : Z) (r : LogRecord.t) (rest : list (Z * LogRecord.t)) :
  ascending ((k, r) :: rest) = true ->
  forallb (fun kr => k <? fst kr) rest = true /\ ascending rest = true.
Proof.
  revert k r. induction rest as [| [k2 r2] rest' IH]; intros k r Hasc; [split; reflexivity |].
  cbn [ascending] in Hasc. apply andb_prop in Hasc. destruct Hasc as [H12 Hasc].
  split; [| exact Hasc].
  destruct (IH k2 r2 Hasc) as [Hall _]. cbn [forallb fst]. rewrite H12. cbn [andb].
  apply Z.ltb_lt in H12. clear - Hall H12.
  induction rest' as [| kr rest IH]; [reflexivity |].
  cbn [forallb] in *. apply andb_prop in Hall. destruct Hall as [Hk Hrest].
  rewrite IH by exact Hrest. apply Z.ltb_lt in Hk.
  replace (k <? fst kr) with true by (symmetry; apply Z.ltb_lt; lia). reflexivity.
Qed.

Lemma ascending_cons (k : Z) (r : LogRecord.t) (rest : list (Z * LogRecord.t)) :
  forallb (fun kr => k <? fst kr) rest = true -> ascending rest = true ->
  ascending ((k, r) :: rest) = true.
Proof.
  destruct rest as [| [k2 r2] rest']; [reflexivity |].
  cbn [forallb fst]. intros Hall Hasc. apply andb_prop in Hall.
  cbn [ascending]. rewrite (proj1 Hall). exact Hasc.
Qed.

Lemma forallb_filter {A} (P Q : A -> bool) (l : list A) :
  forallb P l = true -> forallb P (filter Q l) = true.
Proof.
  induction l as [| x rest IH]; [reflexivity |]. cbn. intros Hall.
  apply andb_prop in Hall. destruct Hall as [Hx Hrest].
  destruct (Q x); cbn; rewrite ?Hx; auto.
Qed.

Lemma ascending_filter (Q : Z * LogRecord.t -> bool) (rs : list (Z * LogRecord.t)) :
  ascending rs = true -> ascending (filter Q rs) = true.
Proof.
  induction rs as [| [k r] rest IH]; [reflexivity |].
  intros Hasc. destruct (ascending_head _ _ _ Hasc) as [Hall Hrest].
  cbn [filter]. destruct (Q (k, r)); [| auto].
  apply ascending_cons; [apply forallb_filter; exact Hall | auto].
Qed.

Lemma delete_wellKeyed (k : Z) (s : IDB.ObjectStore) :
  wellKeyed s = true -> wellKeyed (IDB.delete k s) = true.
Proof.
  unfold wellKeyed, IDB.delete. cbn [IDB.rows IDB.nextKey]. intros Hwf.
  apply andb_prop in Hwf. destruct Hwf as [Hasc Hkeys].
  rewrite ascending_filter, forallb_filter by assumption. reflexivity.
Qed.

Lemma clear_wellKeyed (s : IDB.ObjectStore) : wellKeyed (IDB.clear s) = true.
Proof. reflexivity. Qed.

Lemma saveLog_wellKeyed (record : LogRecord.t) (flag : bool) (w : World) :
  wellKeyedDB (database w) = true ->
  wellKeyedDB (database (exec (saveLog record flag) w)) = true.
Proof.
  unfold wellKeyedDB, exec, saveLog. intros Hwf.
  apply andb_prop in Hwf. destruct Hwf as [Hl Hp].
  destruct (IDB.add record (logs (database w))) as [l' |] eqn:Hal; cbn [snd];
    [| rewrite Hl, Hp; reflexivity].
  destruct flag.
  - destruct (IDB.add record (pending (database w))) as [p' |] eqn:Hap; cbn;
      [| rewrite Hl, Hp; reflexivity].
    rewrite (add_wellKeyed _ _ _ Hl Hal), (add_wellKeyed _ _ _ Hp Hap). reflexivity.
  - cbn. rewrite (add_wellKeyed _ _ _ Hl Hal), Hp. reflexivity.
Qed.

Lemma afterPass_wellKeyed (E : Env) (w : World) :
  wellKeyedDB (database w) = true -> wellKeyedDB (database (afterPass E w)) = true.
Proof.
  intros Hwf. unfold afterPass.
  destruct (onLine w), (endpointSet w); cbn [negb]; try exact Hwf.
  destruct (queue w); [exact Hwf |].
  destruct (snd (attempt E (List.length (requests w)) (t :: l))); [| exact Hwf].
  unfold wellKeyedDB in *. cbn. apply andb_prop in Hwf. rewrite (proj1 Hwf). reflexivity.
Qed.

(** The record [composeRecord] hands back, and that it asks nothing of
    the application's own state. *)
Lemma composeRecord_fields (H : Host) (E : Env) (s : SessionState) (endCoord : Coordinate)
    (w : World) :
  exists record w',
    composeRecord H E s endCoord w = (Normal record, w') /\ sameApp w w' /\
    alerts w' = alerts w /\ clearedWatches w' = clearedWatches w /\
    LogRecord.id record = None /\
    LogRecord.distanceKm record = parseFloat H (toFixed H (distance s) 3) /\
    LogRecord.fuelLitres record =
      fold_left (fun sum f => (sum + FuelEvent.amount f)%float) (fuelLogs s) 0%float /\
    LogRecord.fuelCost record =
      fold_left (fun sum f => (sum + costOrZero f)%float) (fuelLogs s) 0%float /\
    LogRecord.departureLat record =
      match startCoord s with Some c => lat c | None => 0%float end /\
    LogRecord.departureLng record =
      match startCoord s with Some c => lng c | None => 0%float end /\
    LogRecord.arrivalLat record = lat endCoord /\
    LogRecord.arrivalLng record = lng endCoord.
Proof.
  unfold composeRecord, totalBreakMs, totalRestMs.
  assert (Hsum : forall l sum w0, exists z w1,
            sumIntervals E l sum w0 = (Normal z, w1) /\ sameApp w0 w1 /\
            alerts w1 = alerts w0 /\ clearedWatches w1 = clearedWatches w0).
  { induction l as [| b rest IH]; intros sum w0; cbn [sumIntervals].
    - exists sum, w0. repeat split.
    - unfold bind at 1. destruct (opt_int_truthy (BreakLog.end_ b)).
      + cbn [ret]. apply IH.
      + unfold dateNow at 1.
        destruct (IH (sum + (Date_now E (clockReads w0) - BreakLog.start b))
                     (set_clockReads (S (clockReads w0)) w0))
          as (z & w1 & Hrun & (? & ? & ? & ? & ?) & ? & ?).
        exists z, w1. split; [exact Hrun |]. repeat split; assumption. }
  destruct (Hsum (breaks s) 0 w) as (tb & w1 & Hb & (? & ? & ? & ? & ?) & ? & ?).
  destruct (Hsum (rests s) 0 w1) as (tr & w2 & Hr & (? & ? & ? & ? & ?) & ? & ?).
  unfold bind at 1. rewrite Hb. unfold bind at 1. rewrite Hr.
  unfold bind, dateNow, prompt, ret.
  eexists. eexists. split; [reflexivity |]. cbn.
  repeat split; cbn; congruence.
Qed.

(** [endSession] on an active session: it closes the track, builds the
    record, saves it (queued when offline), runs one pass and drops the
    session; it never rejects. *)
Lemma endSession_run (H : Host) (E : Env) (w : World) (s : SessionState) :
  currentSession w = Some s ->
  exists (endCoord : Coordinate) (record : LogRecord.t) (w2 : World),
    endSession H E w =
      (Normal tt,
       set_currentSession None (afterPass E (exec (saveLog record (negb (onLine w))) w2))) /\
    database w2 = database w /\ onLine w2 = onLine w /\ appConfig w2 = appConfig w /\
    requests w2 = requests w /\
    (exists shown, alerts w2 = alerts w ++ shown /\ Forall isComplaint shown /\
       (forall p, position E (positionReads w) = Some p -> shown = [])) /\
    clearedWatches w2 =
      clearedWatches w ++ match watchId s with Some k => [k] | None => [] end /\
    endCoord =
      match located H E w with
      | Some p => {| lat := fst p; lng := snd p; timestamp := Date_now E (S (clockReads w)) |}
      | None => {| lat := 0%float; lng := 0%float; timestamp := Date_now E (clockReads w) |}
      end /\
    LogRecord.id record = None /\
    LogRecord.distanceKm record = parseFloat H (toFixed H (distance s) 3) /\
    LogRecord.fuelLitres record =
      fold_left (fun sum f => (sum + FuelEvent.amount f)%float) (fuelLogs s) 0%float /\
    LogRecord.fuelCost record =
      fold_left (fun sum f => (sum + costOrZero f)%float) (fuelLogs s) 0%float /\
    LogRecord.departureLat record =
      match startCoord s with Some c => lat c | None => 0%float end /\
    LogRecord.departureLng record =
      match startCoord s with Some c => lng c | None => 0%float end /\
    LogRecord.arrivalLat record = lat endCoord /\
    LogRecord.arrivalLng record = lng endCoord.
Proof.
  intros Hs.
  destruct (closeTrack_full H E w s Hs)
    as (endCoord & w1 & shown & Hclose & Hs1 & Hdb1 & Hon1 & Hcfg1 & Hrq1 & Hal1 & Hc1
        & Hdev1 & Hcw1 & Hec).
  destruct (composeRecord_fields H E (set_coords (coords s ++ [endCoord]) s) endCoord w1)
    as (record & w2 & Hcomp & (Hs2 & Hdb2 & Hon2 & Hcfg2 & Hrq2) & Hal2 & Hcw2
        & Hid & Hkm & Hfl & Hfc & Hdla & Hdlo & Hala & Halo).
  exists endCoord, record, w2.
  split.
  - unfold endSession, bind at 1. cbn [get]. rewrite Hs.
    unfold bind at 1. rewrite Hclose.
    unfold bind at 1. cbn [get]. rewrite Hs1.
    unfold bind at 1. rewrite Hcomp.
    unfold bind at 1. cbn [get].
    assert (Hsave : exists w3, saveLog record (negb (onLine w2)) w2 = (Normal tt, w3)).
    { unfold saveLog, IDB.add. rewrite Hid. destruct (negb (onLine w2)); eexists; reflexivity. }
    destruct Hsave as (w3 & Hsave).
    unfold bind at 1. rewrite Hsave.
    unfold bind. rewrite sendPendingIfOnline_run. cbn [modify].
    unfold exec. rewrite <- Hon1, <- Hon2, Hsave. reflexivity.
  - cbn in Hkm, Hfl, Hfc, Hdla, Hdlo.
    split; [congruence |]. split; [congruence |]. split; [congruence |].
    split; [congruence |].
    split; [exists shown; rewrite Hal2; auto |].
    repeat split; try congruence.
Qed.

(** A run that leaves the database, the network trace, the connection
    state and the configuration alone. *)
Lemma frame_of_run {A} (c : Js A) (w : World) :
  (exists a w', c w = (a, w') /\
     database w' = database w /\ requests w' = requests w /\
     onLine w' = onLine w /\ appConfig w' = appConfig w) ->
  database (exec c w) = database w /\ requests (exec c w) = requests w /\
  onLine (exec c w) = onLine w /\ appConfig (exec c w) = appConfig w.
Proof. intros (a & w' & Hrun & Hrest). unfold exec. rewrite Hrun. exact Hrest. Qed.

Ltac frame_done := do 2 eexists; (split; [reflexivity |]); cbn; repeat split.

Lemma addFuel_frame (H : Host) (E : Env) (w : World) :
  database (exec (addFuel H E) w) = database w /\
  requests (exec (addFuel H E) w) = requests w /\
  onLine (exec (addFuel H E) w) = onLine w /\
  appConfig (exec (addFuel H E) w) = appConfig w.
Proof.
  apply frame_of_run.
  destruct (currentSession w) as [s |] eqn:Hs;
    [| unfold addFuel, bind, get; rewrite Hs; frame_done].
  destruct (prompt_answer E (promptReads w)) as [amountStr |] eqn:Hans;
    [| unfold addFuel, bind, get, prompt; rewrite Hs, Hans; frame_done].
  destruct (str_truthy amountStr) eqn:Htruthy.
  - destruct (PrimFloat.is_nan (parseFloat H amountStr)
              || (parseFloat H amountStr <=? 0)%float)%bool eqn:Hbad.
    + rewrite (addFuel_rejects H E w s amountStr Hs Hans Htruthy Hbad). frame_done.
    + destruct (addFuel_appends H E w s amountStr Hs Hans Htruthy Hbad) as (la & lo & ->).
      destruct (afterLocating_frame H E (set_promptReads (S (S (promptReads w))) w))
        as (_ & Hdb & Hrq & Hon & Hcfg & _).
      do 2 eexists. split; [reflexivity |]. unfold afterFix. cbn.
      rewrite Hdb, Hrq, Hon, Hcfg. repeat split.
  - destruct amountStr; [| discriminate Htruthy].
    unfold addFuel, bind, get, prompt. rewrite Hs, Hans. frame_done.
Qed.

Lemma toggleInterval_frame (H : Host) (E : Env) (read : SessionState -> list BreakLog.t)
    (write : list BreakLog.t -> SessionState -> SessionState) (w : World) :
  database (exec (toggleInterval H E read write) w) = database w /\
  requests (exec (toggleInterval H E read write) w) = requests w /\
  onLine (exec (toggleInterval H E read write) w) = onLine w /\
  appConfig (exec (toggleInterval H E read write) w) = appConfig w.
Proof.
  apply frame_of_run.
  destruct (currentSession w) as [s |] eqn:Hs.
  - rewrite (toggleInterval_run H E read write w s Hs).
    destruct (afterLocating_frame H E w) as (_ & Hdb & Hrq & Hon & Hcfg & _).
    do 2 eexists. split; [reflexivity |]. unfold afterFix. cbn.
    rewrite Hdb, Hrq, Hon, Hcfg. repeat split.
  - unfold toggleInterval, bind, get. rewrite Hs. frame_done.
Qed.

Lemma handleLocationUpdate_frame (H : Host) (coord : Coordinate) (w : World) :
  database (exec (handleLocationUpdate H coord) w) = database w /\
  requests (exec (handleLocationUpdate H coord) w) = requests w /\
  onLine (exec (handleLocationUpdate H coord) w) = onLine w /\
  appConfig (exec (handleLocationUpdate H coord) w) = appConfig w.
Proof.
  apply frame_of_run.
  unfold handleLocationUpdate, bind at 1. cbn [get].
  destruct (currentSession w) as [s |] eqn:Hs; [| frame_done].
  destruct (lastOf (coords s)) as [c |]; [| frame_done].
  destruct (50 <=? haversineDistance (math H) c coord * 1000)%float; [| frame_done].
  unfold bind, updateSession, modify. cbn. rewrite Hs. frame_done.
Qed.

(** The handlers of a running session leave the database, the network
    trace, the connection state and the configuration alone. *)
Lemma perform_frame (H : Host) (E : Env) (a : SessionAction) (w : World) :
  database (exec (perform H E a) w) = database w /\
  requests (exec (perform H E a) w) = requests w /\
  onLine (exec (perform H E a) w) = onLine w /\
  appConfig (exec (perform H E a) w) = appConfig w.
Proof.
  destruct a; cbn [perform].
  - apply handleLocationUpdate_frame.
  - apply toggleInterval_frame.
  - apply toggleInterval_frame.
  - apply addFuel_frame.
Qed.

Lemma startSession_frame (H : Host) (E : Env) (w : World) :
  database (exec (startSession H E) w) = database w /\
  requests (exec (startSession H E) w) = requests w /\
  onLine (exec (startSession H E) w) = onLine w /\
  appConfig (exec (startSession H E) w) = appConfig w.
Proof.
  apply frame_of_run.
  unfold startSession, bind at 1. cbn [get].
  destruct (currentSession w) as [s |] eqn:Hs; [frame_done |].
  destruct (getCurrentPositionOrPrompt_run H E w w eq_refl eq_refl)
    as (outcome & asked & shown & Hg & _).
  unfold try_catch, bind, dateNow, modify, watchPosition, updateSession, alert.
  rewrite Hg. destruct outcome as [p | m]; cbn; [| frame_done].
  destruct (watch_handle E (watchReads w)) as [k |]; cbn; frame_done.
Qed.

(** X1. Both stores keep their shape through every operation of the
    program: keys ascending, below the generator's next number, and
    written into the stored record as its [id]. Saving, clearing the
    queue, deleting, a synchronisation pass, starting, running and ending
    a session all preserve it, and the empty database has it. *)
Theorem store_keys_are_kept (H : Host) (E : Env) (w : World) :
  wellKeyedDB (database w) = true ->
  (forall record flag, wellKeyedDB (database (exec (saveLog record flag) w)) = true) /\
  wellKeyedDB (database (exec clearPendingLogs w)) = true /\
  (forall k, wellKeyedDB (database (exec (deleteLogById k) w)) = true) /\
  wellKeyedDB (database (exec (sendPendingIfOnline E) w)) = true /\
  wellKeyedDB (database (exec (startSession H E) w)) = true /\
  (forall actions, wellKeyedDB (database (performAll H E actions w)) = true) /\
  wellKeyedDB (database (exec (endSession H E) w)) = true.
Proof.
  intros Hwf.
  assert (Hparts := Hwf). unfold wellKeyedDB in Hparts. apply andb_prop in Hparts.
  destruct Hparts as [Hl Hp].
  split; [intros; apply saveLog_wellKeyed; exact Hwf |].
  split; [unfold wellKeyedDB; cbn; rewrite Hl; reflexivity |].
  split; [intros k; unfold wellKeyedDB; cbn; rewrite !delete_wellKeyed by assumption;
          reflexivity |].
  split; [unfold exec; rewrite sendPendingIfOnline_run; apply afterPass_wellKeyed, Hwf |].
  split; [rewrite (proj1 (startSession_frame H E w)); exact Hwf |].
  split.
  - intros actions. revert w Hwf Hl Hp.
    induction actions as [| a rest IH]; intros w Hwf Hl Hp; [exact Hwf |].
    cbn [performAll fold_left]. apply IH.
    + rewrite (proj1 (perform_frame H E a w)). exact Hwf.
    + rewrite (proj1 (perform_frame H E a w)). exact Hl.
    + rewrite (proj1 (perform_frame H E a w)). exact Hp.
  - destruct (currentSession w) as [s |] eqn:Hs.
    + destruct (endSession_run H E w s Hs) as (endCoord & record & w2 & Hrun & Hdb & _).
      unfold exec at 1. rewrite Hrun. cbn [snd database set_currentSession].
      apply afterPass_wellKeyed, saveLog_wellKeyed. rewrite Hdb. exact Hwf.
    + unfold exec, endSession, bind, get. rewrite Hs. exact Hwf.
Qed.

Lemma store_keys_are_kept_witness :
  wellKeyedDB (database (exec (endSession sampleHost (sampleEnv [1%nat])) 
                              (set_currentSession (Some drivingSession) threeQueued))) = true.
Proof.
  apply (store_keys_are_kept sampleHost (sampleEnv [1%nat])
           (set_currentSession (Some drivingSession) threeQueued)).
  vm_compute. reflexivity.
Defined.

(* ================================================================== *)
(** * Saving and deleting logs *)

Lemma saveLog_stores (record : LogRecord.t) (flag : bool) (w : World) :
  wellKeyedDB (database w) = true ->
  LogRecord.id record = None ->
  canonical (exec (saveLog record flag) w) =
    canonical w ++ [LogRecord.with_id (IDB.nextKey (logs (database w))) record] /\
  queue (exec (saveLog record flag) w) =
    (if flag
     then queue w ++ [LogRecord.with_id (IDB.nextKey (pending (database w))) record]
     else queue w).
Proof.
  intros Hwf Hid.
  unfold wellKeyedDB, wellKeyed in Hwf.
  apply andb_prop in Hwf. destruct Hwf as [Hl Hp].
  apply andb_prop in Hl. destruct Hl as [_ Hl]. apply andb_prop in Hp. destruct Hp as [_ Hp].
  unfold exec, saveLog, IDB.add, canonical, queue, IDB.getAll. rewrite Hid.
  destruct flag; cbn;
    rewrite ?(insert_row_last _ _ _ (keyed_below _ _ Hl)),
            ?(insert_row_last _ _ _ (keyed_below _ _ Hp)), ?map_app;
    repeat split.
Qed.

(** X2. A record built by the application (it carries no [id]) is put
    after every record already in the canonical store, with the key the
    store assigns written into it; with the pending flag it is likewise
    put at the end of the queue, and without the flag the queue is left
    as it was. Nothing already stored is moved or changed. *)
Theorem saveLog_appends_in_order (record : LogRecord.t) (flag : bool) (w : World) :
  wellKeyedDB (database w) = true ->
  LogRecord.id record = None ->
  let w' := exec (saveLog record flag) w in
  completion (saveLog record flag) w = Normal tt /\
  canonical w' =
    canonical w ++ [LogRecord.with_id (IDB.nextKey (logs (database w))) record] /\
  queue w' =
    (if flag
     then queue w ++ [LogRecord.with_id (IDB.nextKey (pending (database w))) record]
     else queue w).
Proof.
  intros Hwf Hid w'. subst w'. split; [| exact (saveLog_stores record flag w Hwf Hid)].
  unfold completion, saveLog, IDB.add. rewrite Hid. destruct flag; reflexivity.
Qed.

Lemma saveLog_appends_in_order_witness :
  canonical (exec (saveLog (sampleRecord "2024-05-04") false) threeQueued) =
    canonical threeQueued ++ [LogRecord.with_id 4 (sampleRecord "2024-05-04")] /\
  queue (exec (saveLog (sampleRecord "2024-05-04") false) threeQueued) = queue threeQueued.
Proof.
  destruct (saveLog_appends_in_order (sampleRecord "2024-05-04") false threeQueued)
    as (_ & Hc & Hq); [vm_compute; reflexivity | reflexivity |].
  split; [exact Hc | exact Hq].
Defined.

Lemma rows_of_keyed (b k : Z) (rs : list (Z * LogRecord.t)) :
  forallb (keyed b) rs = true ->
  map snd (filter (fun kr => negb (fst kr =? k)) rs) =
    filter (fun r => negb (has_id k r)) (map snd rs).
Proof.
  induction rs as [| [k1 r1] rest IH]; [reflexivity |].
  cbn [forallb map filter fst snd]. intros Hall.
  apply andb_prop in Hall. destruct Hall as [Hk Hrest].
  unfold keyed in Hk. apply andb_prop in Hk. destruct Hk as [_ Hid]. cbn [fst snd] in Hid.
  assert (Hsame : has_id k r1 = (k1 =? k)).
  { unfold has_id in *. destruct (LogRecord.id r1) as [k' |]; [| discriminate Hid].
    apply Z.eqb_eq in Hid. subst k'. reflexivity. }
  rewrite Hsame. destruct (k1 =? k); cbn [negb map]; rewrite IH by exact Hrest; reflexivity.
Qed.

Lemma In_keyed_row (b : Z) (r : LogRecord.t) (rs : list (Z * LogRecord.t)) :
  forallb (keyed b) rs = true -> In r (map snd rs) ->
  exists k, LogRecord.id r = Some k /\ In (k, r) rs.
Proof.
  intros Hall Hin. apply in_map_iff in Hin. destruct Hin as ([k r'] & Heq & Hin).
  cbn in Heq. subst r'. exists k. split; [| exact Hin].
  rewrite forallb_forall in Hall. specialize (Hall _ Hin).
  unfold keyed, has_id in Hall. cbn [fst snd] in Hall. apply andb_prop in Hall.
  destruct Hall as [_ Hid]. destruct (LogRecord.id r) as [k' |]; [| discriminate Hid].
  apply Z.eqb_eq in Hid. congruence.
Qed.

Lemma filter_all (P : Z * LogRecord.t -> bool) (rs : list (Z * LogRecord.t)) :
  forallb P rs = true -> filter P rs = rs.
Proof.
  induction rs as [| x rest IH]; [reflexivity |]. cbn. intros Hall.
  apply andb_prop in Hall. destruct Hall as [Hx Hrest]. rewrite Hx, IH by exact Hrest.
  reflexivity.
Qed.

Lemma delete_one_row (k : Z) (r : LogRecord.t) (rs : list (Z * LogRecord.t)) :
  ascending rs = true -> In (k, r) rs ->
  S (List.length (filter (fun kr => negb (fst kr =? k)) rs)) = List.length rs.
Proof.
  induction rs as [| [k1 r1] rest IH]; [contradiction |].
  intros Hasc Hin. destruct (ascending_head _ _ _ Hasc) as [Hall Hrest].
  cbn [filter fst]. destruct (k1 =? k) eqn:Hk.
  - apply Z.eqb_eq in Hk. subst k1. cbn [negb List.length]. f_equal. f_equal.
    apply filter_all. rewrite forallb_forall in *. intros x Hx.
    specialize (Hall x Hx). apply Z.ltb_lt in Hall.
    apply negb_true_iff, Z.eqb_neq. lia.
  - cbn [negb List.length]. f_equal. apply IH; [exact Hrest |].
    destruct Hin as [Heq | Hin]; [| exact Hin].
    injection Heq as Heq _. apply Z.eqb_neq in Hk. contradiction.
Qed.

(** X3. Deleting a log shown in the history list, once confirmed, takes
    exactly that log out of the canonical store: the other logs stay, in
    their order, and the list is one shorter. The queue loses the record
    stored under the same key, if there is one. Without confirmation
    nothing changes. *)
Theorem deleteButtonClick_removes_that_log (log : LogRecord.t) (w : World) :
  wellKeyedDB (database w) = true ->
  In log (canonical w) ->
  exists k, LogRecord.id log = Some k /\
    let w' := exec (deleteButtonClick true log) w in
    canonical w' = filter (fun r => negb (has_id k r)) (canonical w) /\
    ~ In log (canonical w') /\
    (forall r, In r (canonical w) -> has_id k r = false -> In r (canonical w')) /\
    S (List.length (canonical w')) = List.length (canonical w) /\
    queue w' = filter (fun r => negb (has_id k r)) (queue w) /\
    exec (deleteButtonClick false log) w = w.
Proof.
  intros Hwf Hin. unfold wellKeyedDB, wellKeyed in Hwf.
  apply andb_prop in Hwf. destruct Hwf as [Hl Hp].
  apply andb_prop in Hl. destruct Hl as [Hlasc Hlkeys].
  apply andb_prop in Hp. destruct Hp as [_ Hpkeys].
  destruct (In_keyed_row _ _ _ Hlkeys Hin) as (k & Hid & Hrow).
  exists k. split; [exact Hid |].
  unfold exec, deleteButtonClick. rewrite Hid.
  unfold canonical, queue, IDB.getAll. cbn.
  rewrite (rows_of_keyed _ k _ Hlkeys), (rows_of_keyed _ k _ Hpkeys).
  split; [reflexivity |]. split; [| split; [| split; [| split; reflexivity]]].
  - intros Hstill. apply filter_In in Hstill. destruct Hstill as [_ Hno].
    unfold has_id in Hno. rewrite Hid, Z.eqb_refl in Hno. discriminate Hno.
  - intros r Hr Hother. apply filter_In. rewrite Hother. auto.
  - rewrite <- (rows_of_keyed _ k _ Hlkeys), !length_map.
    eapply delete_one_row; eassumption.
Qed.

Lemma deleteButtonClick_removes_that_log_witness :
  canonical (exec (deleteButtonClick true (LogRecord.with_id 2 (sampleRecord "2024-05-02")))
                  threeQueued) =
    [LogRecord.with_id 1 (sampleRecord "2024-05-01");
     LogRecord.with_id 3 (sampleRecord "2024-05-03")].
Proof.
  destruct (deleteButtonClick_removes_that_log
              (LogRecord.with_id 2 (sampleRecord "2024-05-02")) threeQueued)
    as (k & Hid & Hc & _); [vm_compute; reflexivity | cbn; auto |].
  injection Hid as <-. rewrite Hc. reflexivity.
Defined.

(** X4. The two stores number their records independently, and
    [deleteLogById] is given the canonical store's key. When the two
    generators are out of step (any record saved while online makes them
    so), a record saved while offline and then deleted by the [id] the
    history list shows for it disappears from the canonical store but
    its queued copy stays in the queue, to be posted by a later pass.
    When the generators agree, the queued copy goes too. *)
Theorem deleted_log_can_stay_queued (record : LogRecord.t) (w : World) :
  wellKeyedDB (database w) = true ->
  LogRecord.id record = None ->
  let shown := IDB.nextKey (logs (database w)) in
  let queuedKey := IDB.nextKey (pending (database w)) in
  let w' := exec (deleteLogById shown) (exec (saveLog record true) w) in
  ~ In (LogRecord.with_id shown record) (canonical w') /\
  (shown <> queuedKey -> In (LogRecord.with_id queuedKey record) (queue w')) /\
  (shown = queuedKey -> queue w' = queue w).
Proof.
  intros Hwf Hid shown queuedKey w'.
  destruct (saveLog_stores record true w Hwf Hid) as (Hc & Hq).
  pose proof (saveLog_wellKeyed record true w Hwf) as Hwf1.
  set (w1 := exec (saveLog record true) w) in *.
  fold shown in Hc. fold queuedKey in Hq.
  unfold wellKeyedDB, wellKeyed in Hwf1.
  apply andb_prop in Hwf1. destruct Hwf1 as [Hl Hp].
  apply andb_prop in Hl. destruct Hl as [_ Hlkeys].
  apply andb_prop in Hp. destruct Hp as [_ Hpkeys].
  assert (Hcan : canonical w' = filter (fun r => negb (has_id shown r)) (canonical w1)).
  { unfold w', exec, canonical, IDB.getAll. cbn. apply rows_of_keyed with (b := IDB.nextKey (logs (database w1))). exact Hlkeys. }
  assert (Hque : queue w' = filter (fun r => negb (has_id shown r)) (queue w1)).
  { unfold w', exec, queue, IDB.getAll. cbn. apply rows_of_keyed with (b := IDB.nextKey (pending (database w1))). exact Hpkeys. }
  split; [| split].
  - rewrite Hcan. intros Hstill. apply filter_In in Hstill. destruct Hstill as [_ Hno].
    rewrite has_id_with_id in Hno. discriminate Hno.
  - intros Hne. rewrite Hque, Hq. apply filter_In. split.
    + apply in_or_app. right. left. reflexivity.
    + unfold has_id. cbn. apply negb_true_iff, Z.eqb_neq. auto.
  - intros Heq. rewrite Hque, Hq, filter_app. cbn [filter].
    rewrite <- Heq, has_id_with_id. cbn [negb]. rewrite app_nil_r.
    unfold wellKeyedDB, wellKeyed in Hwf. apply andb_prop in Hwf. destruct Hwf as [_ Hp0].
    apply andb_prop in Hp0. destruct Hp0 as [_ Hp0keys].
    unfold queue, IDB.getAll.
    rewrite <- (rows_of_keyed _ shown _ Hp0keys). f_equal. apply filter_all.
    rewrite forallb_forall in *. intros x Hx. specialize (Hp0keys x Hx).
    unfold keyed in Hp0keys. apply andb_prop in Hp0keys. destruct Hp0keys as [Hlt _].
    apply Z.ltb_lt in Hlt. apply negb_true_iff, Z.eqb_neq. subst queuedKey. lia.
Qed.

Lemma deleted_log_can_stay_queued_witness :
  let w := set_onLine false (exec (saveLog (sampleRecord "2024-05-01") false) (freshWorld true)) in
  let w' := exec (deleteLogById 2) (exec (saveLog (sampleRecord "2024-05-02") true) w) in
  canonical w' = [LogRecord.with_id 1 (sampleRecord "2024-05-01")] /\
  In (LogRecord.with_id 1 (sampleRecord "2024-05-02")) (queue w').
Proof.
  cbv zeta.
  destruct (deleted_log_can_stay_queued (sampleRecord "2024-05-02")
              (set_onLine false (exec (saveLog (sampleRecord "2024-05-01") false)
                                      (freshWorld true))))
    as (_ & Hq & _); [vm_compute; reflexivity | reflexivity |].
  split; [reflexivity |]. apply Hq. vm_compute. discriminate.
Defined.

(* ================================================================== *)
(** * Every synchronisation pass *)

Lemma attempt_shape (E : Env) (records : list LogRecord.t) :
  forall n,
    exists rest,
      records = fst (attempt E n records) ++ rest /\
      (snd (attempt E n records) = true ->
         rest = [] /\
         forall i r, nth_error records i = Some r ->
                     responseOk (fetch_response E (n + i) r) = true) /\
      (snd (attempt E n records) = false ->
         exists sent r,
           fst (attempt E n records) = sent ++ [r] /\
           responseOk (fetch_response E (n + List.length sent) r) = false /\
           forall i r', nth_error sent i = Some r' ->
                        responseOk (fetch_response E (n + i) r') = true).
Proof.
  induction records as [| r0 tail IH]; intros n.
  - exists []. cbn. split; [reflexivity |]. split; [| discriminate].
    intros _. split; [reflexivity |]. intros [| i] r Hr; discriminate Hr.
  - cbn [attempt]. destruct (responseOk (fetch_response E n r0)) eqn:H0.
    + destruct (IH (S n)) as (rest & Hsplit & Hok & Hko). exists rest. cbn [fst snd].
      split; [cbn; f_equal; exact Hsplit |]. split.
      * intros Hall. destruct (Hok Hall) as [Hrest Hack]. split; [exact Hrest |].
        intros [| i] r Hr; cbn in Hr.
        -- injection Hr as <-. rewrite Nat.add_0_r. exact H0.
        -- replace (n + S i)%nat with (S n + i)%nat by lia. apply Hack, Hr.
      * intros Hstop. destruct (Hko Hstop) as (sent & r & Hfst & Hbad & Hack).
        exists (r0 :: sent), r. split; [cbn; f_equal; exact Hfst |]. split.
        -- cbn [List.length]. replace (n + S (List.length sent))%nat
             with (S n + List.length sent)%nat by lia. exact Hbad.
        -- intros [| i] r' Hr; cbn in Hr.
           ++ injection Hr as <-. rewrite Nat.add_0_r. exact H0.
           ++ replace (n + S i)%nat with (S n + i)%nat by lia. apply Hack, Hr.
    + exists tail. cbn [fst snd]. split; [reflexivity |]. split; [discriminate |].
      intros _. exists [], r0. cbn. rewrite Nat.add_0_r. split; [reflexivity |].
      split; [exact H0 |]. intros [| i] r' Hr; discriminate Hr.
Qed.

Lemma afterPass_sent (E : Env) (w : World) :
  currentSession (afterPass E w) = currentSession w /\
  alerts (afterPass E w) = alerts w /\
  exists sent rest,
    requests (afterPass E w) = requests w ++ sent /\
    queue w = sent ++ rest /\
    (forall i r, nth_error sent i = Some r -> (S i < List.length sent)%nat ->
       responseOk (fetch_response E (List.length (requests w) + i) r) = true) /\
    (queue (afterPass E w) = queue w \/
     (queue (afterPass E w) = [] /\ sent = queue w /\
      forall i r, nth_error (queue w) i = Some r ->
        responseOk (fetch_response E (List.length (requests w) + i) r) = true)).
Proof.
  assert (Hnone : forall w0, w0 = w ->
            currentSession w0 = currentSession w /\ alerts w0 = alerts w /\
            exists sent rest,
              requests w0 = requests w ++ sent /\ queue w = sent ++ rest /\
              (forall i r, nth_error sent i = Some r -> (S i < List.length sent)%nat ->
                 responseOk (fetch_response E (List.length (requests w) + i) r) = true) /\
              (queue w0 = queue w \/
               (queue w0 = [] /\ sent = queue w /\
                forall i r, nth_error (queue w) i = Some r ->
                  responseOk (fetch_response E (List.length (requests w) + i) r) = true))).
  { intros w0 ->. split; [reflexivity |]. split; [reflexivity |].
    exists [], (queue w). rewrite app_nil_r. split; [reflexivity |]. split; [reflexivity |].
    split; [intros [| i] r Hr; discriminate Hr | left; reflexivity]. }
  unfold afterPass.
  destruct (onLine w); cbn [negb]; [| apply Hnone; reflexivity].
  destruct (endpointSet w); cbn [negb]; [| apply Hnone; reflexivity].
  destruct (queue w) as [| r0 tail] eqn:Hq; [apply Hnone; reflexivity |].
  destruct (attempt_shape E (r0 :: tail) (List.length (requests w)))
    as (rest & Hsplit & Hok & Hko).
  destruct (snd (attempt E (List.length (requests w)) (r0 :: tail))) eqn:Hall.
  - destruct (Hok eq_refl) as [-> Hack]. rewrite app_nil_r in Hsplit.
    split; [reflexivity |]. split; [reflexivity |].
    exists (fst (attempt E (List.length (requests w)) (r0 :: tail))), [].
    rewrite app_nil_r. split; [reflexivity |]. split; [exact Hsplit |]. split.
    + intros i r Hr _. apply Hack. rewrite Hsplit. exact Hr.
    + right. split; [reflexivity |]. split; [symmetry; exact Hsplit | exact Hack].
  - destruct (Hko eq_refl) as (sent & r & Hfst & _ & Hack).
    split; [reflexivity |]. split; [reflexivity |].
    exists (fst (attempt E (List.length (requests w)) (r0 :: tail))), rest.
    split; [reflexivity |]. split; [exact Hsplit |]. split.
    + intros i r' Hr Hlt. rewrite Hfst in Hr, Hlt.
      rewrite length_app in Hlt. cbn in Hlt.
      apply Hack. rewrite nth_error_app1 in Hr by lia. exact Hr.
    + left. unfold queue in *. cbn. exact Hq.
Qed.

(** X5. Whatever the network does, a pass of [sendPendingIfOnline]
    completes normally and never touches the canonical store, the
    session or the alerts. What it sends is a front part of the queue, in
    queue order, and every request before the last one sent was
    acknowledged. Afterwards the queue is either exactly what it was or
    empty, and it is emptied only when every queued record was sent and
    acknowledged in this pass. *)
Theorem pass_sends_a_prefix (E : Env) (w : World) :
  let w' := exec (sendPendingIfOnline E) w in
  completion (sendPendingIfOnline E) w = Normal tt /\
  logs (database w') = logs (database w) /\
  currentSession w' = currentSession w /\
  alerts w' = alerts w /\
  exists sent rest,
    requests w' = requests w ++ sent /\
    queue w = sent ++ rest /\
    (forall i r, nth_error sent i = Some r -> (S i < List.length sent)%nat ->
       responseOk (fetch_response E (List.length (requests w) + i) r) = true) /\
    (queue w' = queue w \/
     (queue w' = [] /\ sent = queue w /\
      forall i r, nth_error (queue w) i = Some r ->
        responseOk (fetch_response E (List.length (requests w) + i) r) = true)).
Proof.
  cbv zeta. unfold completion, exec. rewrite sendPendingIfOnline_run. cbn [fst snd].
  split; [reflexivity |]. split; [apply afterPass_canonical |]. apply afterPass_sent.
Qed.

Lemma pass_sends_a_prefix_witness :
  logs (database (exec (sendPendingIfOnline (sampleEnv [1%nat])) threeQueued)) =
    logs (database threeQueued) /\
  alerts (exec (sendPendingIfOnline (sampleEnv [1%nat])) threeQueued) = alerts threeQueued.
Proof.
  destruct (pass_sends_a_prefix (sampleEnv [1%nat]) threeQueued) as (_ & Hl & _ & Ha & _).
  split; [exact Hl | exact Ha].
Defined.


(** X6. A pass that finds the queue empty, or runs offline or without
    an endpoint, changes nothing; in particular the pass after a pass
    that emptied the queue sends nothing more. *)
Theorem pass_after_empty_queue_is_idle (E : Env) (w : World) :
  (onLine w = false \/ endpointSet w = false \/ queue w = [] ->
   sendPendingIfOnline E w = (Normal tt, w)) /\
  (queue (exec (sendPendingIfOnline E) w) = [] ->
   exec (sendPendingIfOnline E) (exec (sendPendingIfOnline E) w)
     = exec (sendPendingIfOnline E) w).
Proof.
  assert (Hidle : forall w0, onLine w0 = false \/ endpointSet w0 = false \/ queue w0 = [] ->
            sendPendingIfOnline E w0 = (Normal tt, w0)).
  { intros w0 Hcase. rewrite sendPendingIfOnline_run. unfold afterPass.
    destruct Hcase as [-> | [Hcase | Hcase]]; [reflexivity | |].
    - rewrite Hcase. destruct (onLine w0); reflexivity.
    - rewrite Hcase. destruct (onLine w0), (endpointSet w0); reflexivity. }
  split; [apply Hidle |].
  intros Hempty. unfold exec at 1. rewrite Hidle; [reflexivity |]. auto.
Qed.

Lemma pass_after_empty_queue_is_idle_witness :
  let w1 := exec (sendPendingIfOnline (sampleEnv [])) threeQueued in
  exec (sendPendingIfOnline (sampleEnv [])) w1 = w1 /\
  sendPendingIfOnline (sampleEnv []) (set_onLine false threeQueued)
    = (Normal tt, set_onLine false threeQueued).
Proof.
  cbv zeta. split.
  - apply (proj2 (pass_after_empty_queue_is_idle (sampleEnv []) threeQueued)). reflexivity.
  - apply (proj1 (pass_after_empty_queue_is_idle (sampleEnv [])
                    (set_onLine false threeQueued))).
    left. reflexivity.
Defined.

(** X7. [postLog] hands at most one request to [fetch]: none, and it
    throws, when no endpoint is configured; exactly one otherwise. It
    returns normally exactly when an endpoint is configured, the request
    was answered with a success status and the body's [ok] is truthy; a
    rejected request, a failure status, an unreadable body and a falsy
    [ok] all make it throw. It changes nothing else. *)
Theorem postLog_outcomes (E : Env) (record : LogRecord.t) (w : World) :
  let answer := fetch_response E (List.length (requests w)) record in
  (endpointSet w = false ->
     postLog E record w = (Thrown "SHEETS_WEBAPP_URL is not configured", w)) /\
  (endpointSet w = true ->
     exec (postLog E record) w = set_requests (requests w ++ [record]) w) /\
  (completion (postLog E record) w = Normal tt <->
     endpointSet w = true /\ responseOk answer = true).
Proof.
  cbv zeta. split; [| split].
  - intros Hno. unfold endpointSet in Hno. unfold postLog, bind, get, throw.
    rewrite Hno. reflexivity.
  - intros Hurl. destruct (postLog_run E record w Hurl) as (c & Hrun & _).
    unfold exec. rewrite Hrun. reflexivity.
  - unfold completion. destruct (endpointSet w) eqn:Hurl.
    + destruct (postLog_run E record w Hurl) as (c & Hrun & Hok & Hko).
      rewrite Hrun. cbn [fst].
      destruct (responseOk (fetch_response E (List.length (requests w)) record)).
      * rewrite (Hok eq_refl). tauto.
      * destruct (Hko eq_refl) as (m & ->). split; [discriminate | intros [_ Hf]; discriminate Hf].
    + unfold endpointSet in Hurl. unfold postLog, bind, get, throw. rewrite Hurl. cbn.
      split; [discriminate | intros [Hf _]; discriminate Hf].
Qed.

Lemma postLog_outcomes_witness :
  exec (postLog (sampleEnv [0%nat]) (sampleRecord "2024-05-01")) (freshWorld true)
    = set_requests [sampleRecord "2024-05-01"] (freshWorld true) /\
  completion (postLog (sampleEnv [0%nat]) (sampleRecord "2024-05-01")) (freshWorld true)
    <> Normal tt.
Proof.
  destruct (postLog_outcomes (sampleEnv [0%nat]) (sampleRecord "2024-05-01") (freshWorld true))
    as (_ & Hsent & Hiff).
  split; [apply Hsent; reflexivity |].
  intros Hok. apply Hiff in Hok. destruct Hok as [_ Hok]. vm_compute in Hok. discriminate Hok.
Defined.

(* ================================================================== *)
(** * The synchronise button *)

Lemma syncButtonClick_run (E : Env) (w : World) :
  syncButtonClick E w =
    (Normal tt,
     set_alerts
       (alerts (afterPass E w) ++
        [if endpointSet w then "未送信のログを同期しました。"%string
         else "同期先のURLが設定されていません。config.jsonにSHEETS_WEBAPP_URLを指定してください。"%string])
       (afterPass E w)).
Proof.
  unfold syncButtonClick, bind at 1. rewrite sendPendingIfOnline_run.
  unfold bind, get.
  assert (Hcfg : appConfig (afterPass E w) = appConfig w).
  { unfold afterPass. destruct (onLine w), (endpointSet w); cbn; try reflexivity.
    destruct (queue w); [reflexivity |].
    destruct (snd (attempt E (List.length (requests w)) (t :: l))); reflexivity. }
  rewrite Hcfg. unfold endpointSet.
  destruct (opt_str_truthy (SHEETS_WEBAPP_URL (appConfig w))); reflexivity.
Qed.

(** X8. With an endpoint configured the synchronise button ends by
    telling the user that the unsent logs were synchronised, whatever the
    pass did: the same message is shown when the device is offline and
    nothing was sent, and when a post was refused and the whole queue is
    still there. Apart from that message the click is one pass. *)
Theorem syncButton_always_reports_success (E : Env) (w : World) :
  endpointSet w = true ->
  let w' := exec (syncButtonClick E) w in
  alerts w' = alerts w ++ ["未送信のログを同期しました。"%string] /\
  database w' = database (exec (sendPendingIfOnline E) w) /\
  requests w' = requests (exec (sendPendingIfOnline E) w) /\
  (onLine w = false -> queue w' = queue w /\ requests w' = requests w) /\
  (forall r rest, queue w = r :: rest ->
     responseOk (fetch_response E (List.length (requests w)) r) = false ->
     queue w' = queue w).
Proof.
  intros Hurl w'. subst w'. unfold exec. rewrite syncButtonClick_run, sendPendingIfOnline_run.
  cbn [snd alerts database requests set_alerts]. rewrite Hurl.
  destruct (afterPass_sent E w) as (_ & Hal & _).
  rewrite Hal. split; [reflexivity |]. split; [reflexivity |]. split; [reflexivity |].
  split.
  - intros Hoff. unfold queue. cbn [database set_alerts]. unfold afterPass. rewrite Hoff.
    split; reflexivity.
  - intros r rest Hq Hbad. unfold queue in *. cbn [database set_alerts].
    unfold afterPass, queue. rewrite Hq, Hurl.
    destruct (onLine w); cbn [negb]; [| exact Hq].
    cbn [attempt]. rewrite Hbad. cbn. exact Hq.
Qed.

Lemma syncButton_always_reports_success_witness :
  let w' := exec (syncButtonClick (sampleEnv [0%nat])) threeQueued in
  alerts w' = ["未送信のログを同期しました。"%string] /\ queue w' = queue threeQueued.
Proof.
  cbv zeta.
  destruct (syncButton_always_reports_success (sampleEnv [0%nat]) threeQueued)
    as (Hal & _ & _ & _ & Hstill); [reflexivity |].
  split; [exact Hal |].
  eapply Hstill; reflexivity.
Defined.

(* ================================================================== *)
(** * What becomes of a finished session's record *)

Lemma afterPass_offline (E : Env) (w : World) : onLine w = false -> afterPass E w = w.
Proof. intros Hoff. unfold afterPass. rewrite Hoff. reflexivity. Qed.

(** X9. A session ended while online is written to the canonical store
    only: its record is saved without the pending flag, so the pass that
    follows can send nothing but records that were queued before, and
    the new record is neither queued nor posted. With an empty queue no
    request is made at all. *)
Theorem endSession_online_posts_nothing_new (H : Host) (E : Env) (w : World)
    (s : SessionState) :
  currentSession w = Some s ->
  onLine w = true ->
  wellKeyedDB (database w) = true ->
  let w' := exec (endSession H E) w in
  exists record,
    LogRecord.distanceKm record = parseFloat H (toFixed H (distance s) 3) /\
    canonical w' =
      canonical w ++ [LogRecord.with_id (IDB.nextKey (logs (database w))) record] /\
    currentSession w' = None /\
    (exists sent rest, requests w' = requests w ++ sent /\ queue w = sent ++ rest) /\
    (queue w' = queue w \/ queue w' = []) /\
    (queue w = [] -> requests w' = requests w /\ queue w' = []).
Proof.
  intros Hs Hon Hwf w'. subst w'.
  destruct (endSession_run H E w s Hs)
    as (endCoord & record & w2 & Hrun & Hdb & Hon2 & Hcfg & Hrq & _ & _ & _ & Hid & Hkm & _).
  exists record. split; [exact Hkm |].
  assert (Hw' : exec (endSession H E) w =
            set_currentSession None (afterPass E (exec (saveLog record false) w2))).
  { unfold exec at 1. rewrite Hrun. cbn [snd]. rewrite Hon. reflexivity. }
  rewrite Hw'. clear Hw' Hrun.
  assert (Hwf2 : wellKeyedDB (database w2) = true) by (rewrite Hdb; exact Hwf).
  destruct (saveLog_stores record false w2 Hwf2 Hid) as (Hc & Hq).
  set (w3 := exec (saveLog record false) w2) in *.
  assert (Hrq3 : requests w3 = requests w).
  { rewrite <- Hrq. unfold w3, exec, saveLog, IDB.add. rewrite Hid. reflexivity. }
  assert (Hq3 : queue w3 = queue w).
  { rewrite Hq. unfold queue. rewrite Hdb. reflexivity. }
  pose proof (afterPass_canonical E w3) as Hlogs.
  destruct (afterPass_sent E w3) as (_ & _ & sent & rest & Hsent & Hsplit & _ & Hafter).
  split.
  { unfold canonical in *. cbn [database set_currentSession]. rewrite Hlogs, Hc.
    rewrite Hdb. reflexivity. }
  split; [reflexivity |].
  split.
  { exists sent, rest. cbn [requests set_currentSession].
    rewrite Hsent, Hrq3, <- Hq3. auto. }
  split.
  { unfold queue in *. cbn [database set_currentSession].
    destruct Hafter as [Hsame | (Hempty & _)]; [left; congruence | right; exact Hempty]. }
  intros Hempty.
  assert (Hidle : afterPass E w3 = w3).
  { unfold afterPass. rewrite Hq3, Hempty.
    destruct (onLine w3), (endpointSet w3); reflexivity. }
  rewrite Hidle. split; [exact Hrq3 |].
  change (queue (set_currentSession None w3)) with (queue w3). congruence.
Qed.

Lemma endSession_online_posts_nothing_new_witness :
  let w' := exec (endSession sampleHost (sampleEnv [])) drivingWorld in
  requests w' = [] /\ queue w' = [] /\ List.length (canonical w') = 1%nat.
Proof.
  cbv zeta.
  destruct (endSession_online_posts_nothing_new sampleHost (sampleEnv []) drivingWorld
              drivingSession eq_refl eq_refl eq_refl)
    as (record & _ & Hc & _ & _ & _ & Hnone).
  destruct (Hnone eq_refl) as [Hr Hq].
  split; [exact Hr | split; [exact Hq |]]. rewrite Hc. reflexivity.
Defined.

(** X10. A session ended while offline is written to both stores and
    nothing is sent. When the connection is back and the sink accepts
    every post, one pass posts the queue with the new record last, each
    record once, and leaves the queue empty while the canonical store
    keeps the record. *)
Theorem endSession_offline_then_synchronised (H : Host) (E : Env) (w : World)
    (s : SessionState) :
  currentSession w = Some s ->
  onLine w = false ->
  endpointSet w = true ->
  wellKeyedDB (database w) = true ->
  (forall n r, responseOk (fetch_response E n r) = true) ->
  let w1 := exec (endSession H E) w in
  let w2 := exec (sendPendingIfOnline E) (set_onLine true w1) in
  exists record,
    canonical w1 =
      canonical w ++ [LogRecord.with_id (IDB.nextKey (logs (database w))) record] /\
    queue w1 =
      queue w ++ [LogRecord.with_id (IDB.nextKey (pending (database w))) record] /\
    requests w1 = requests w /\
    currentSession w1 = None /\
    requests w2 = requests w ++ queue w1 /\
    queue w2 = [] /\
    canonical w2 = canonical w1.
Proof.
  intros Hs Hoff Hurl Hwf Hsink w1 w2.
  destruct (endSession_run H E w s Hs)
    as (endCoord & record & w0 & Hrun & Hdb & Hon0 & Hcfg & Hrq & _ & _ & _ & Hid & _).
  exists record.
  assert (Hwf0 : wellKeyedDB (database w0) = true) by (rewrite Hdb; exact Hwf).
  destruct (saveLog_stores record true w0 Hwf0 Hid) as (Hc & Hq).
  assert (Hw1 : w1 = set_currentSession None (exec (saveLog record true) w0)).
  { unfold w1, exec at 1. rewrite Hrun. cbn [snd]. rewrite Hoff. cbn [negb].
    rewrite afterPass_offline; [reflexivity |].
    unfold exec, saveLog, IDB.add. rewrite Hid. cbn. congruence. }
  set (w3 := exec (saveLog record true) w0) in *.
  assert (Hc1 : canonical w1 =
            canonical w ++ [LogRecord.with_id (IDB.nextKey (logs (database w))) record]).
  { rewrite Hw1. unfold canonical in *. cbn [database set_currentSession].
    rewrite Hc, Hdb. reflexivity. }
  assert (Hq1 : queue w1 =
            queue w ++ [LogRecord.with_id (IDB.nextKey (pending (database w))) record]).
  { rewrite Hw1. unfold queue in *. cbn [database set_currentSession].
    rewrite Hq, Hdb. reflexivity. }
  assert (Hr1 : requests w1 = requests w).
  { rewrite Hw1. cbn [requests set_currentSession]. rewrite <- Hrq.
    unfold w3, exec, saveLog, IDB.add. rewrite Hid. reflexivity. }
  assert (Hurl1 : endpointSet (set_onLine true w1) = true).
  { unfold endpointSet. cbn [appConfig set_onLine]. rewrite Hw1.
    cbn [appConfig set_currentSession].
    replace (appConfig w3) with (appConfig w0)
      by (unfold w3, exec, saveLog, IDB.add; rewrite Hid; reflexivity).
    rewrite Hcfg. exact Hurl. }
  split; [exact Hc1 |]. split; [exact Hq1 |]. split; [exact Hr1 |].
  split; [rewrite Hw1; reflexivity |].
  unfold w2, exec at 1 2 3. rewrite sendPendingIfOnline_run. cbn [snd].
  unfold canonical at 1. rewrite afterPass_canonical.
  unfold afterPass. cbn [onLine set_onLine negb]. rewrite Hurl1. cbn [negb].
  change (queue (set_onLine true w1)) with (queue w1).
  change (requests (set_onLine true w1)) with (requests w1).
  destruct (queue w1) as [| r0 tail] eqn:Hq1'.
  { destruct (queue w); discriminate Hq1. }
  rewrite attempt_all_ok by (intros; apply Hsink).
  cbn [fst snd]. rewrite Hr1. repeat split.
Qed.

Lemma endSession_offline_then_synchronised_witness :
  let w := set_onLine false drivingWorld in
  let w1 := exec (endSession sampleHost (sampleEnv [])) w in
  let w2 := exec (sendPendingIfOnline (sampleEnv [])) (set_onLine true w1) in
  List.length (queue w1) = 1%nat /\ requests w1 = [] /\
  requests w2 = queue w1 /\ queue w2 = [].
Proof.
  cbv zeta.
  destruct (endSession_offline_then_synchronised sampleHost (sampleEnv [])
              (set_onLine false drivingWorld) drivingSession)
    as (record & _ & Hq & Hr & _ & Hr2 & Hq2 & _);
    [reflexivity | reflexivity | reflexivity | reflexivity | intros; reflexivity |].
  split; [rewrite Hq; reflexivity |]. split; [exact Hr |].
  split; [rewrite Hr2; reflexivity | exact Hq2].
Defined.

(* ================================================================== *)
(** * Starting a session that cannot be started cleanly *)

(** The world after a position request that the device did not answer
    and the user ended, after [retries] unreadable lines, with one more
    answer. *)
Lemma getCurrentPositionOrPrompt_typed (H : Host) (E : Env) (w : World) (retries : nat) :
  position E (positionReads w) = None ->
  (retries < stackDepth H)%nat ->
  (forall i, (i < retries)%nat ->
     exists input, prompt_answer E (promptReads w + i) = Some input /\
                   input <> EmptyString /\ readCoords H input = None) ->
  exists shown,
    List.length shown = retries /\ Forall isComplaint shown /\
    (forall input p,
       prompt_answer E (promptReads w + retries) = Some input ->
       readCoords H input = Some p ->
       getCurrentPositionOrPrompt H E w =
         (Normal p, afterPrompts retries shown (set_positionReads (S (positionReads w)) w))) /\
    (prompt_answer E (promptReads w + retries) = None \/
     prompt_answer E (promptReads w + retries) = Some EmptyString ->
     getCurrentPositionOrPrompt H E w =
       (Thrown "緯度・経度の入力がキャンセルされました"%string,
        afterPrompts retries shown (set_positionReads (S (positionReads w)) w))).
Proof.
  intros Hp Hfuel Hbad.
  destruct (promptForCoords_after_retries H E retries (stackDepth H)
              (set_positionReads (S (positionReads w)) w) Hfuel Hbad)
    as (shown & Hlen & Hc & Hgood & Hstop).
  exists shown. split; [exact Hlen |]. split; [exact Hc |].
  unfold getCurrentPositionOrPrompt, bind. rewrite Hp. split.
  - intros input p Hans Hread. rewrite (Hgood input p Hans Hread). reflexivity.
  - intros Hans. rewrite (Hstop Hans). reflexivity.
Qed.

(** X11. When the device reports no position, [startSession] falls back
    on the manual entry. If the user, after any number of lines that
    cannot be read, cancels the prompt or leaves it empty, no session is
    created and no watch is registered; every unreadable line was
    answered with one complaint, and one more alert reports the failure.
    If instead the user then types a readable line, the session starts at
    the typed position, with its watch, and only the complaints were
    shown. In both cases the call itself completes normally. *)
Theorem startSession_without_device_fix (H : Host) (E : Env) (w : World) (retries : nat) :
  currentSession w = None ->
  position E (positionReads w) = None ->
  (retries < stackDepth H)%nat ->
  (forall i, (i < retries)%nat ->
     exists input, prompt_answer E (promptReads w + i) = Some input /\
                   input <> EmptyString /\ readCoords H input = None) ->
  let w' := exec (startSession H E) w in
  (prompt_answer E (promptReads w + retries) = None \/
   prompt_answer E (promptReads w + retries) = Some EmptyString ->
     completion (startSession H E) w = Normal tt /\
     currentSession w' = None /\ watchReads w' = watchReads w /\
     exists shown,
       List.length shown = retries /\ Forall isComplaint shown /\
       alerts w' = alerts w ++ shown ++
         ["現在位置の取得に失敗しました: 緯度・経度の入力がキャンセルされました"%string]) /\
  (forall input p k,
     prompt_answer E (promptReads w + retries) = Some input ->
     readCoords H input = Some p ->
     watch_handle E (watchReads w) = Some k ->
     completion (startSession H E) w = Normal tt /\
     exists s shown,
       currentSession w' = Some s /\ watchId s = Some k /\
       startCoord s =
         Some {| lat := fst p; lng := snd p; timestamp := Date_now E (clockReads w) |} /\
       coords s = [{| lat := fst p; lng := snd p; timestamp := Date_now E (clockReads w) |}] /\
       distance s = 0%float /\
       List.length shown = retries /\ Forall isComplaint shown /\
       alerts w' = alerts w ++ shown).
Proof.
  intros Hs Hp Hfuel Hbad w'. subst w'.
  destruct (getCurrentPositionOrPrompt_typed H E w retries Hp Hfuel Hbad)
    as (shown & Hlen & Hc & Hgood & Hstop).
  unfold completion, exec. split.
  - intros Hans.
    assert (Hrun : startSession H E w =
              (Normal tt,
               set_alerts
                 (alerts w ++ shown ++
                    ["現在位置の取得に失敗しました: 緯度・経度の入力がキャンセルされました"%string])
                 (afterPrompts retries shown (set_positionReads (S (positionReads w)) w)))).
    { unfold startSession, bind at 1. cbn [get]. rewrite Hs.
      unfold try_catch, bind at 1. rewrite (Hstop Hans).
      unfold alert, modify. cbn. rewrite <- app_assoc. reflexivity. }
    rewrite Hrun. cbn. rewrite Hs.
    split; [reflexivity |]. split; [reflexivity |]. split; [reflexivity |].
    exists shown. auto.
  - intros input p k Hans Hread Hk.
    assert (Hrun : exists s w1,
              startSession H E w = (Normal tt, w1) /\
              currentSession w1 = Some s /\ watchId s = Some k /\
              startCoord s =
                Some {| lat := fst p; lng := snd p;
                        timestamp := Date_now E (clockReads w) |} /\
              coords s = [{| lat := fst p; lng := snd p;
                             timestamp := Date_now E (clockReads w) |}] /\
              distance s = 0%float /\ alerts w1 = alerts w ++ shown).
    { unfold startSession, bind at 1. cbn [get]. rewrite Hs.
      unfold try_catch, bind at 1. rewrite (Hgood input p Hans Hread).
      unfold bind, dateNow, modify, watchPosition, updateSession. cbn.
      rewrite Hk. cbn. do 2 eexists. split; [reflexivity |]. cbn. auto 10. }
    destruct Hrun as (s & w1 & Hrun & Hs1 & Hw & Hsc & Hco & Hd & Hal).
    rewrite Hrun. cbn [fst snd]. split; [reflexivity |].
    exists s, shown. auto 10.
Qed.

Lemma startSession_without_device_fix_witness :
  let gaveUp := exec (startSession sampleHost (withPrompts [Some "here"%string] noFixEnv))
                  (freshWorld true) in
  let typed := exec (startSession sampleHost
                       (withPrompts [Some "here"%string; Some "10.5,3000"%string] noFixEnv))
                 (freshWorld true) in
  (currentSession gaveUp = None /\ List.length (alerts gaveUp) = 2%nat) /\
  (exists s, currentSession typed = Some s /\
             coords s = [{| lat := 10.5%float; lng := 3000%float; timestamp := 0 |}] /\
             List.length (alerts typed) = 1%nat).
Proof.
  cbv zeta. split.
  - destruct (startSession_without_device_fix sampleHost
                (withPrompts [Some "here"%string] noFixEnv) (freshWorld true) 1
                eq_refl eq_refl) as (Hstop & _).
    + cbn. lia.
    + intros [| i] Hi; [| lia]. exists "here"%string. repeat split. discriminate.
    + destruct (Hstop (or_introl eq_refl)) as (_ & Hnone & _ & shown & Hlen & _ & Hal).
      split; [exact Hnone |]. rewrite Hal, !length_app, Hlen. reflexivity.
  - destruct (startSession_without_device_fix sampleHost
                (withPrompts [Some "here"%string; Some "10.5,3000"%string] noFixEnv)
                (freshWorld true) 1 eq_refl eq_refl) as (_ & Hgood).
    + cbn. lia.
    + intros [| i] Hi; [| lia]. exists "here"%string. repeat split. discriminate.
    + destruct (Hgood "10.5,3000"%string (10.5%float, 3000%float) 0 eq_refl eq_refl eq_refl)
        as (_ & s & shown & Hs & _ & _ & Hco & _ & Hlen & _ & Hal).
      exists s. split; [exact Hs |]. split; [exact Hco |].
      rewrite Hal, length_app, Hlen. reflexivity.
Defined.

(** What [startSession] leaves in the world when everything is
    available. *)
Lemma startSession_run (H : Host) (E : Env) (w : World) (p : float * float) (k : Z) :
  currentSession w = None ->
  position E (positionReads w) = Some p ->
  watch_handle E (watchReads w) = Some k ->
  exists s w',
    startSession H E w = (Normal tt, w') /\ currentSession w' = Some s /\
    distance s = 0%float /\ watchId s = Some k /\ fuelLogs s = [] /\
    breaks s = [] /\ rests s = [] /\
    startCoord s = Some {| lat := fst p; lng := snd p; timestamp := Date_now E (clockReads w) |} /\
    coords s = [{| lat := fst p; lng := snd p; timestamp := Date_now E (clockReads w) |}] /\
    startTime s = Date_now E (S (clockReads w)) /\
    database w' = database w /\ onLine w' = onLine w /\ appConfig w' = appConfig w /\
    requests w' = requests w /\ alerts w' = alerts w /\
    clearedWatches w' = clearedWatches w /\
    positionReads w' = S (positionReads w) /\ clockReads w' = S (S (clockReads w)).
Proof.
  intros Hs Hp Hk.
  unfold startSession, bind at 1. cbn [get]. rewrite Hs.
  unfold try_catch, bind, getCurrentPositionOrPrompt, dateNow, modify, watchPosition,
    updateSession.
  rewrite Hp. cbn. rewrite Hk. cbn.
  do 2 eexists. split; [reflexivity |]. cbn. repeat split.
Qed.

(** X12. A session started and ended, with nothing in between: the
    watch that [startSession] registered is the one [endSession] clears;
    the record carries the start position as departure and the position
    obtained at the end as arrival; its distance is what [toFixed(3)] and
    [parseFloat] make of 0; and the application is idle again with the
    record at the end of the canonical store. *)
Theorem session_started_and_ended (H : Host) (E : Env) (w : World)
    (p1 p2 : float * float) (k : Z) :
  currentSession w = None ->
  wellKeyedDB (database w) = true ->
  position E (positionReads w) = Some p1 ->
  position E (S (positionReads w)) = Some p2 ->
  watch_handle E (watchReads w) = Some k ->
  let w' := exec (endSession H E) (exec (startSession H E) w) in
  exists record,
    currentSession w' = None /\
    clearedWatches w' = clearedWatches w ++ [k] /\
    canonical w' =
      canonical w ++ [LogRecord.with_id (IDB.nextKey (logs (database w))) record] /\
    LogRecord.departureLat record = fst p1 /\ LogRecord.departureLng record = snd p1 /\
    LogRecord.arrivalLat record = fst p2 /\ LogRecord.arrivalLng record = snd p2 /\
    LogRecord.distanceKm record = parseFloat H (toFixed H 0%float 3) /\
    LogRecord.fuelLitres record = 0%float /\ LogRecord.fuelCost record = 0%float.
Proof.
  intros Hs Hwf Hp1 Hp2 Hk w'. subst w'.
  destruct (startSession_run H E w p1 k Hs Hp1 Hk)
    as (s & w1 & Hstart & Hs1 & Hd & Hwid & Hfuel & _ & _ & Hsc & _ & _
        & Hdb1 & Hon1 & _ & _ & _ & Hcw1 & Hpr1 & _).
  assert (Hw1 : exec (startSession H E) w = w1) by (unfold exec; rewrite Hstart; reflexivity).
  rewrite Hw1.
  destruct (endSession_run H E w1 s Hs1)
    as (endCoord & record & w2 & Hrun & Hdb2 & _ & _ & _ & _ & Hcw2 & Hec & Hid & Hkm
        & Hfl & Hfc & Hdla & Hdlo & Hala & Halo).
  exists record.
  assert (Hw' : exec (endSession H E) w1 =
            set_currentSession None
              (afterPass E (exec (saveLog record (negb (onLine w1))) w2))).
  { unfold exec at 1. rewrite Hrun. reflexivity. }
  rewrite Hw'.
  assert (Hwf2 : wellKeyedDB (database w2) = true) by (rewrite Hdb2, Hdb1; exact Hwf).
  destruct (saveLog_stores record (negb (onLine w1)) w2 Hwf2 Hid) as (Hc & _).
  split; [reflexivity |].
  split.
  { change (clearedWatches (set_currentSession None
              (afterPass E (exec (saveLog record (negb (onLine w1))) w2))))
      with (clearedWatches (afterPass E (exec (saveLog record (negb (onLine w1))) w2))).
    assert (Hcw : forall w0, clearedWatches (afterPass E w0) = clearedWatches w0).
    { intros w0. unfold afterPass. destruct (onLine w0), (endpointSet w0); cbn; try reflexivity.
      destruct (queue w0); [reflexivity |].
      destruct (snd (attempt E (List.length (requests w0)) (t :: l))); reflexivity. }
    rewrite Hcw.
    assert (Hcs : clearedWatches (exec (saveLog record (negb (onLine w1))) w2)
                  = clearedWatches w2).
    { unfold exec, saveLog, IDB.add. rewrite Hid. destruct (negb (onLine w1)); reflexivity. }
    rewrite Hcs, Hcw2, Hcw1, Hwid. reflexivity. }
  split.
  { unfold canonical in *.
    change (database (set_currentSession None
              (afterPass E (exec (saveLog record (negb (onLine w1))) w2))))
      with (database (afterPass E (exec (saveLog record (negb (onLine w1))) w2))).
    rewrite afterPass_canonical, Hc, Hdb2, Hdb1. reflexivity. }
  rewrite <- Hpr1 in Hp2. rewrite (proj1 (located_device H E w1 p2 Hp2)) in Hec.
  subst endCoord. cbn [lat lng] in Hala, Halo.
  rewrite Hsc in Hdla, Hdlo. cbn [lat lng] in Hdla, Hdlo.
  rewrite Hd in Hkm. rewrite Hfuel in Hfl, Hfc. cbn in Hfl, Hfc.
  repeat split; assumption.
Qed.

Lemma session_started_and_ended_witness :
  let w' := exec (endSession sampleHost (sampleEnv []))
              (exec (startSession sampleHost (sampleEnv [])) (freshWorld true)) in
  currentSession w' = None /\ clearedWatches w' = [0] /\
  List.length (canonical w') = 1%nat.
Proof.
  cbv zeta.
  destruct (session_started_and_ended sampleHost (sampleEnv []) (freshWorld true)
              (35.5%float, 139.5%float) (35.5%float, 139.5%float) 0
              eq_refl eq_refl eq_refl eq_refl eq_refl)
    as (record & Hs & Hcw & Hc & _).
  split; [exact Hs | split; [exact Hcw |]]. rewrite Hc. reflexivity.
Defined.

(* ================================================================== *)
(** * What a running session keeps true *)

Lemma float_not_nan (x : float) : PrimFloat.is_nan x = false -> Prim2SF x <> S754_nan.
Proof.
  unfold PrimFloat.is_nan. rewrite eqb_spec. intros Hx Hn. rewrite Hn in Hx.
  discriminate Hx.
Qed.

Lemma float_is_nan (x : float) : PrimFloat.is_nan x = true -> Prim2SF x = S754_nan.
Proof.
  unfold PrimFloat.is_nan. rewrite eqb_spec. unfold SFeqb.
  destruct (Prim2SF x) as [s | [] | | [] m e]; cbn; try reflexivity; try discriminate;
    change (Pos.compare_cont Eq) with Pos.compare;
    rewrite ?Z.compare_refl, ?Pos.compare_refl; cbn; discriminate.
Qed.

(** A number that is neither NaN nor at most zero is above zero. *)
Lemma float_valid_positive (x : float) :
  PrimFloat.is_nan x = false -> (x <=? 0)%float = false -> (0 <? x)%float = true.
Proof.
  intros Hn Hle. apply float_not_nan in Hn. revert Hle.
  rewrite leb_spec, ltb_spec. change (Prim2SF 0) with (S754_zero false).
  destruct (Prim2SF x) as [s | [] | | [] m e]; cbn; congruence.
Qed.

(** Every handler call changes the session in one of the ways of
    [SessionStep], and keeps it active. *)
Lemma perform_step (H : Host) (E : Env) (a : SessionAction) (w : World) (s : SessionState) :
  currentSession w = Some s ->
  exists s', currentSession (exec (perform H E a) w) = Some s' /\
             SessionStep (math H) s s'.
Proof.
  intros Hs. destruct a as [coord | | |]; cbn [perform].
  - destruct (lastOf (coords s)) as [last_coord |] eqn:Hlast.
    + unfold exec. rewrite (handleLocationUpdate_run H coord last_coord w s Hs Hlast).
      cbn [snd].
      destruct (50 <=? haversineDistance (math H) last_coord coord * 1000)%float eqn:Hacc.
      * eexists. split; [reflexivity |]. apply step_accept; assumption.
      * exists s. split; [exact Hs | apply step_none].
    + unfold exec, handleLocationUpdate, bind, get. rewrite Hs, Hlast. cbn.
      exists s. split; [exact Hs | apply step_none].
  - unfold exec, toggleBreak. rewrite (toggleInterval_run H E _ _ w s Hs).
    eexists. split; [reflexivity | apply step_break].
  - unfold exec, toggleRest. rewrite (toggleInterval_run H E _ _ w s Hs).
    eexists. split; [reflexivity | apply step_rest].
  - unfold exec.
    destruct (prompt_answer E (promptReads w)) as [amountStr |] eqn:Hans.
    + destruct (str_truthy amountStr) eqn:Htruthy.
      * destruct (PrimFloat.is_nan (parseFloat H amountStr)
                  || (parseFloat H amountStr <=? 0)%float)%bool eqn:Hbad.
        -- rewrite (addFuel_rejects H E w s amountStr Hs Hans Htruthy Hbad).
           exists s. split; [exact Hs | apply step_none].
        -- destruct (addFuel_appends H E w s amountStr Hs Hans Htruthy Hbad)
             as (la & lo & ->).
           eexists. split; [reflexivity |]. apply step_fuel. cbn.
           apply orb_false_elim in Hbad. apply float_valid_positive; apply Hbad.
      * destruct amountStr; [| discriminate Htruthy].
        unfold addFuel, bind, get, prompt. rewrite Hs, Hans. cbn.
        exists s. split; [exact Hs | apply step_none].
    + unfold addFuel, bind, get, prompt. rewrite Hs, Hans. cbn.
      exists s. split; [exact Hs | apply step_none].
Qed.

(** A property of the session that every step keeps holds after any run
    of handler calls. *)
Lemma performAll_keeps (H : Host) (E : Env) (P : SessionState -> Prop) :
  (forall s s', SessionStep (math H) s s' -> P s -> P s') ->
  forall (actions : list SessionAction) (w : World) (s : SessionState),
    currentSession w = Some s -> P s ->
    exists s', currentSession (performAll H E actions w) = Some s' /\ P s'.
Proof.
  intros Hkeep actions. induction actions as [| a rest IH]; intros w s Hs Hp.
  - exists s. auto.
  - destruct (perform_step H E a w s Hs) as (s1 & Hs1 & Hstep).
    apply (IH _ s1 Hs1). eapply Hkeep; eassumption.
Qed.

Lemma exists_last_or_nil {A} (l : list A) :
  l = [] \/ exists init b, l = init ++ [b].
Proof.
  destruct l as [| x rest]; [left; reflexivity | right].
  destruct (exists_last (l := x :: rest)) as (init & b & Heq); [discriminate |].
  exists init, b. exact Heq.
Qed.

Lemma onlyLastOpen_snoc (init : list BreakLog.t) (b : BreakLog.t) :
  onlyLastOpen (init ++ [b]) = forallb (fun x => negb (BreakLog.is_open x)) init.
Proof.
  induction init as [| x rest IH]; [reflexivity |].
  cbn [app forallb]. rewrite <- IH.
  destruct (rest ++ [b]) eqn:Hr; [destruct rest; discriminate Hr | reflexivity].
Qed.

Lemma update_last_snoc {A} (f : A -> A) (init : list A) (b : A) :
  update_last f (init ++ [b]) = init ++ [f b].
Proof.
  induction init as [| x rest IH]; [reflexivity |].
  cbn [app]. rewrite <- IH.
  destruct (rest ++ [b]) eqn:Hr; [destruct rest; discriminate Hr | reflexivity].
Qed.

Lemma last_is_open_snoc (init : list BreakLog.t) (b : BreakLog.t) :
  last_is_open (init ++ [b]) = BreakLog.is_open b.
Proof. unfold last_is_open. rewrite lastOf_app. reflexivity. Qed.

(** A toggle flips whether the last interval is open, keeps every
    earlier interval as it was, and keeps "only the last may be open". *)
Lemma toggled_shape (now : Z) (p : option (float * float)) (l : list BreakLog.t) :
  last_is_open (toggled now p l) = negb (last_is_open l) /\
  (onlyLastOpen l = true -> onlyLastOpen (toggled now p l) = true) /\
  List.length (toggled now p l) =
    (if last_is_open l then List.length l else S (List.length l)) /\
  prefixOf (map BreakLog.start l) (map BreakLog.start (toggled now p l)).
Proof.
  destruct (exists_last_or_nil l) as [-> | (init & b & ->)].
  - destruct p; cbn; repeat split; exists [BreakLog.start (BreakLog.open_bare now)];
      reflexivity.
  - unfold toggled. rewrite last_is_open_snoc.
    destruct (BreakLog.is_open b) eqn:Hb.
    + destruct p as [p |]; rewrite update_last_snoc, last_is_open_snoc, !onlyLastOpen_snoc,
        !length_app; cbn; (split; [reflexivity |]); (split; [auto |]);
        (split; [reflexivity |]); exists []; rewrite app_nil_r, !map_app; reflexivity.
    + destruct p as [p |]; rewrite last_is_open_snoc, !onlyLastOpen_snoc, forallb_app,
        !length_app; cbn; rewrite Hb; cbn; (split; [reflexivity |]);
        (split; [intros ->; reflexivity |]); (split; [f_equal; lia |]);
        rewrite !map_app; eexists; reflexivity.
Qed.

(** The handler as written is one press from beginning to end. *)
Lemma toggleInterval_pressAlone (H : Host) (E : Env)
    (read : SessionState -> list BreakLog.t)
    (write : list BreakLog.t -> SessionState -> SessionState) (w : World) :
  toggleInterval H E read write w = pressAlone H E read write w.
Proof.
  unfold toggleInterval, pressAlone, toggleChoice, toggleSettle, bind, get, ret.
  cbv beta. destruct (currentSession w) as [s |]; [| reflexivity].
  cbv beta iota. destruct (last_is_open (read s)); reflexivity.
Qed.

(** What the second part of a press does to an active session. *)
Lemma toggleSettle_run (H : Host) (E : Env) (read : SessionState -> list BreakLog.t)
    (write : list BreakLog.t -> SessionState -> SessionState) (closing : bool)
    (w : World) (s : SessionState) :
  currentSession w = Some s ->
  toggleSettle H E read write closing w =
    (Normal tt,
     set_currentSession
       (Some (write (settled closing (Date_now E (clockReads w)) (located H E w) (read s)) s))
       (afterFix H E w)).
Proof.
  intros Hs.
  destruct (getCurrentPositionOrPrompt_run H E w w eq_refl eq_refl)
    as (outcome & asked & shown & Hg & _).
  unfold toggleSettle, settled, afterFix, afterLocating, located, completion, exec,
    try_catch, bind, dateNow, updateSession, modify.
  destruct closing; cbv beta; rewrite Hg;
    destruct outcome as [p | m]; cbn; rewrite Hs; reflexivity.
Qed.

(** Both presses choose on the session as it is when the first is made;
    the second is settled on what the first has left. *)
Lemma pressTwiceOverlapping_run (H : Host) (E : Env)
    (read : SessionState -> list BreakLog.t)
    (write : list BreakLog.t -> SessionState -> SessionState)
    (w : World) (s : SessionState) :
  currentSession w = Some s ->
  pressTwiceOverlapping H E read write w =
    toggleSettle H E read write (last_is_open (read s))
      (set_currentSession
         (Some (write (settled (last_is_open (read s)) (Date_now E (clockReads w))
                               (located H E w) (read s)) s))
         (afterFix H E w)).
Proof.
  intros Hs.
  unfold pressTwiceOverlapping, toggleChoice, bind, get, ret. cbv beta.
  rewrite Hs. cbv beta iota. rewrite Hs. cbv beta iota.
  rewrite (toggleSettle_run H E read write (last_is_open (read s)) w s Hs).
  reflexivity.
Qed.

Lemma settled_open (now : Z) (p : option (float * float)) (l : list BreakLog.t) :
  exists b, settled false now p l = l ++ [b] /\ BreakLog.is_open b = true.
Proof. destruct p as [p |]; eexists; split; reflexivity. Qed.

Lemma settled_close (now : Z) (p : option (float * float)) (init : list BreakLog.t)
    (b : BreakLog.t) :
  exists b', settled true now p (init ++ [b]) = init ++ [b'] /\
             BreakLog.is_open b' = false /\ BreakLog.end_ b' = Some now.
Proof.
  destruct p as [p |]; cbn [settled]; rewrite update_last_snoc; eexists;
    (split; [reflexivity |]); split; reflexivity.
Qed.

(** X13. As long as every handler call has finished before the next one
    begins, at most one break and at most one rest is open, and it is the
    last one of its list: if that holds of a session, it holds after any
    such run of location updates, toggles and fuel entries. (It holds of
    the session [startSession] creates, whose lists are empty.) It does
    not survive presses that overlap. A press chooses between closing
    and opening before it waits for the position and writes afterwards,
    so of two presses of the break button, the second made while the
    first still waits, both append an open break when none was running,
    and both close the same break when one was running. *)
Theorem only_the_last_interval_is_open (H : Host) (E : Env)
    (actions : list SessionAction) (w : World) (s : SessionState) :
  currentSession w = Some s ->
  onlyLastOpen (breaks s) = true ->
  onlyLastOpen (rests s) = true ->
  (exists s', currentSession (performAll H E actions w) = Some s' /\
              onlyLastOpen (breaks s') = true /\ onlyLastOpen (rests s') = true) /\
  (forall w0, toggleBreak H E w0 = pressAlone H E breaks set_breaks w0) /\
  (last_is_open (breaks s) = false ->
   exists s' b1 b2,
     currentSession (exec (pressTwiceOverlapping H E breaks set_breaks) w) = Some s' /\
     breaks s' = breaks s ++ [b1; b2] /\
     BreakLog.is_open b1 = true /\ BreakLog.is_open b2 = true /\
     onlyLastOpen (breaks s') = false) /\
  (last_is_open (breaks s) = true ->
   exists s' init b,
     currentSession (exec (pressTwiceOverlapping H E breaks set_breaks) w) = Some s' /\
     breaks s' = init ++ [b] /\ List.length (breaks s') = List.length (breaks s) /\
     BreakLog.is_open b = false).
Proof.
  intros Hs Hb Hr. split; [| split; [| split]].
  - refine (performAll_keeps H E
              (fun s => onlyLastOpen (breaks s) = true /\ onlyLastOpen (rests s) = true)
              _ actions w s Hs (conj Hb Hr)).
    intros s0 s1 Hstep [Hb0 Hr0]. destruct Hstep; cbn; auto.
    + split; [| exact Hr0]. apply toggled_shape, Hb0.
    + split; [exact Hb0 |]. apply toggled_shape, Hr0.
  - intros w0. apply toggleInterval_pressAlone.
  - intros Hclosed.
    unfold exec. rewrite (pressTwiceOverlapping_run H E breaks set_breaks w s Hs), Hclosed.
    erewrite toggleSettle_run by reflexivity. cbn [snd currentSession set_currentSession].
    cbn [breaks set_breaks].
    destruct (settled_open (Date_now E (clockReads w)) (located H E w) (breaks s))
      as (b1 & -> & Hb1).
    match goal with
    | |- context [settled false ?now ?p (breaks s ++ [b1])] =>
        destruct (settled_open now p (breaks s ++ [b1])) as (b2 & -> & Hb2)
    end.
    exists (set_breaks ((breaks s ++ [b1]) ++ [b2]) s), b1, b2.
    cbn [breaks set_breaks]. rewrite <- app_assoc. cbn [app].
    split; [reflexivity |]. split; [reflexivity |]. split; [exact Hb1 |].
    split; [exact Hb2 |].
    change (breaks s ++ [b1; b2]) with (breaks s ++ [b1] ++ [b2]).
    rewrite app_assoc, onlyLastOpen_snoc, forallb_app. cbn. rewrite Hb1.
    apply andb_false_r.
  - intros Hopen.
    destruct (exists_last_or_nil (breaks s)) as [Hnil | (init & b & Hsplit)].
    { rewrite Hnil in Hopen. discriminate Hopen. }
    unfold exec. rewrite (pressTwiceOverlapping_run H E breaks set_breaks w s Hs), Hopen.
    erewrite toggleSettle_run by reflexivity. cbn [snd currentSession set_currentSession].
    cbn [breaks set_breaks]. rewrite Hsplit.
    destruct (settled_close (Date_now E (clockReads w)) (located H E w) init b)
      as (b1 & -> & _).
    match goal with
    | |- context [settled true ?now ?p (init ++ [b1])] =>
        destruct (settled_close now p init b1) as (b2 & -> & Hb2 & _)
    end.
    exists (set_breaks (init ++ [b2]) s), init, b2. cbn [breaks set_breaks].
    rewrite !length_app. auto.
Qed.

Lemma only_the_last_interval_is_open_witness :
  (exists s', currentSession (performAll sampleHost (sampleEnv [])
                                [ToggleBreak; ToggleRest; ToggleBreak; ToggleBreak]
                                drivingWorld) = Some s' /\
              onlyLastOpen (breaks s') = true /\ onlyLastOpen (rests s') = true) /\
  (exists s' b1 b2,
     currentSession (exec (pressTwiceOverlapping sampleHost (sampleEnv []) breaks set_breaks)
                          drivingWorld) = Some s' /\
     breaks s' = [b1; b2] /\
     BreakLog.is_open b1 = true /\ BreakLog.is_open b2 = true /\
     onlyLastOpen (breaks s') = false).
Proof.
  destruct (only_the_last_interval_is_open sampleHost (sampleEnv [])
              [ToggleBreak; ToggleRest; ToggleBreak; ToggleBreak] drivingWorld drivingSession
              eq_refl eq_refl eq_refl) as (Hseq & _ & Hopen & _).
  split; [exact Hseq | exact (Hopen eq_refl)].
Defined.

(** X14. Each press of the break button flips whether a break is
    running: it closes the running one or opens a new one (the list
    grows by one only then), and it leaves the rests, the fuel list, the
    track and the distance alone. The rest button does the same to the
    rests and leaves the breaks alone, so a break and a rest can be
    running at the same time. *)
Theorem toggles_flip_independently (H : Host) (E : Env) (w : World) (s : SessionState) :
  currentSession w = Some s ->
  (exists s', currentSession (exec (toggleBreak H E) w) = Some s' /\
     last_is_open (breaks s') = negb (last_is_open (breaks s)) /\
     List.length (breaks s') =
       (if last_is_open (breaks s) then List.length (breaks s)
        else S (List.length (breaks s))) /\
     rests s' = rests s /\ fuelLogs s' = fuelLogs s /\
     coords s' = coords s /\ distance s' = distance s) /\
  (exists s', currentSession (exec (toggleRest H E) w) = Some s' /\
     last_is_open (rests s') = negb (last_is_open (rests s)) /\
     List.length (rests s') =
       (if last_is_open (rests s) then List.length (rests s)
        else S (List.length (rests s))) /\
     breaks s' = breaks s /\ fuelLogs s' = fuelLogs s /\
     coords s' = coords s /\ distance s' = distance s).
Proof.
  intros Hs. unfold exec, toggleBreak, toggleRest.
  rewrite !(toggleInterval_run H E _ _ w s Hs). cbn [snd].
  split; eexists; (split; [reflexivity |]); cbn;
    (split; [apply toggled_shape |]); (split; [apply toggled_shape |]); repeat split.
Qed.

Lemma toggles_flip_independently_witness :
  exists s', currentSession (exec (toggleRest sampleHost (sampleEnv []))
                               (exec (toggleBreak sampleHost (sampleEnv [])) drivingWorld)) = Some s' /\
             last_is_open (breaks s') = true /\ last_is_open (rests s') = true.
Proof.
  destruct (toggles_flip_independently sampleHost (sampleEnv []) drivingWorld drivingSession eq_refl)
    as ((s1 & Hs1 & Hb1 & _) & _).
  destruct (toggles_flip_independently sampleHost (sampleEnv [])
              (exec (toggleBreak sampleHost (sampleEnv [])) drivingWorld) s1 Hs1)
    as (_ & (s2 & Hs2 & Hr2 & _ & Hb2 & _)).
  exists s2. split; [exact Hs2 |]. split.
  - rewrite Hb2, Hb1. reflexivity.
  - rewrite Hr2. vm_compute in Hs1. injection Hs1 as <-. reflexivity.
Defined.

Lemma prefixOf_refl {A} (l : list A) : prefixOf l l.
Proof. exists []. symmetry. apply app_nil_r. Qed.

Lemma prefixOf_trans {A} (l1 l2 l3 : list A) :
  prefixOf l1 l2 -> prefixOf l2 l3 -> prefixOf l1 l3.
Proof.
  intros (r1 & ->) (r2 & ->). exists (r1 ++ r2). symmetry. apply app_assoc.
Qed.

Lemma prefixOf_app {A} (l r : list A) : prefixOf l (l ++ r).
Proof. exists r. reflexivity. Qed.

(** X15. While a session runs, what it has recorded only grows at the
    end: after any run of handler calls the old track is the front part
    of the new track, the old fuel entries are the front part of the new
    fuel list, unchanged, and the breaks and rests begun so far are still
    there with the start times they had. The start time, the start
    point and the watch handle do not change. *)
Theorem session_history_only_grows (H : Host) (E : Env)
    (actions : list SessionAction) (w : World) (s : SessionState) :
  currentSession w = Some s ->
  exists s', currentSession (performAll H E actions w) = Some s' /\
    startTime s' = startTime s /\ startCoord s' = startCoord s /\
    watchId s' = watchId s /\
    prefixOf (coords s) (coords s') /\
    prefixOf (fuelLogs s) (fuelLogs s') /\
    prefixOf (map BreakLog.start (breaks s)) (map BreakLog.start (breaks s')) /\
    prefixOf (map BreakLog.start (rests s)) (map BreakLog.start (rests s')).
Proof.
  intros Hs.
  refine (performAll_keeps H E
           (fun s' =>
              startTime s' = startTime s /\ startCoord s' = startCoord s /\
              watchId s' = watchId s /\
              prefixOf (coords s) (coords s') /\
              prefixOf (fuelLogs s) (fuelLogs s') /\
              prefixOf (map BreakLog.start (breaks s)) (map BreakLog.start (breaks s')) /\
              prefixOf (map BreakLog.start (rests s)) (map BreakLog.start (rests s')))
           _ actions w s Hs _);
    [| repeat split; apply prefixOf_refl].
  intros s0 s1 Hstep (Ht & Hc & Hw & Hco & Hf & Hb & Hr).
  destruct Hstep; cbn; repeat split; try assumption.
  - eapply prefixOf_trans; [exact Hco | apply prefixOf_app].
  - eapply prefixOf_trans; [exact Hb | apply toggled_shape].
  - eapply prefixOf_trans; [exact Hr | apply toggled_shape].
  - eapply prefixOf_trans; [exact Hf | apply prefixOf_app].
Qed.

Lemma session_history_only_grows_witness :
  let far := {| lat := 36%float; lng := 139%float; timestamp := 9 |} in
  exists s', currentSession (performAll sampleHost (sampleEnv [])
                               [LocationUpdate far; ToggleBreak] drivingWorld) = Some s' /\
             prefixOf (coords drivingSession) (coords s').
Proof.
  intros far.
  destruct (session_history_only_grows sampleHost (sampleEnv [])
              [LocationUpdate far; ToggleBreak] drivingWorld drivingSession eq_refl)
    as (s' & Hs' & _ & _ & _ & Hc & _).
  exists s'. auto.
Defined.

Lemma spaced_snoc (M : MathLib) (track : list Coordinate) (last_coord coord : Coordinate) :
  spaced M track = true ->
  lastOf track = Some last_coord ->
  (50 <=? haversineDistance M last_coord coord * 1000)%float = true ->
  spaced M (track ++ [coord]) = true.
Proof.
  induction track as [| a rest IH]; [discriminate |].
  intros Hsp Hlast Hacc. destruct rest as [| b rest'].
  - cbn in Hlast. injection Hlast as ->. cbn [app spaced]. rewrite Hacc. reflexivity.
  - cbn [spaced] in Hsp. apply andb_prop in Hsp. destruct Hsp as [Hab Hrest].
    change (spaced M (a :: (b :: rest') ++ [coord]) = true).
    cbn [app spaced]. rewrite Hab. cbn [andb].
    apply (IH Hrest Hlast Hacc).
Qed.

(** X16. Every point that location updates put on the track passed the
    50-metre test against the point before it: if consecutive track
    points are that far apart, they still are after any run of handler
    calls. (The track [startSession] creates has a single point.) *)
Theorem track_points_stay_spaced (H : Host) (E : Env)
    (actions : list SessionAction) (w : World) (s : SessionState) :
  currentSession w = Some s ->
  spaced (math H) (coords s) = true ->
  exists s', currentSession (performAll H E actions w) = Some s' /\
             spaced (math H) (coords s') = true.
Proof.
  intros Hs Hsp.
  refine (performAll_keeps H E (fun s => spaced (math H) (coords s) = true)
            _ actions w s Hs Hsp).
  intros s0 s1 Hstep Hsp0. destruct Hstep; cbn; try assumption.
  eapply spaced_snoc; eassumption.
Qed.

Lemma track_points_stay_spaced_witness :
  let far := {| lat := 36%float; lng := 139%float; timestamp := 9 |} in
  let near := {| lat := 36%float; lng := 139%float; timestamp := 12 |} in
  exists s', currentSession (performAll sampleHost (sampleEnv [])
                               [LocationUpdate far; LocationUpdate near] drivingWorld)
               = Some s' /\
             spaced sampleMath (coords s') = true.
Proof.
  intros far near.
  apply (track_points_stay_spaced sampleHost (sampleEnv [])
           [LocationUpdate far; LocationUpdate near] drivingWorld drivingSession);
    reflexivity.
Defined.

(* ================================================================== *)
(** * Fuel totals, break totals and rejected updates *)

Lemma float_zero_add_pos (x : float) : (0 <? x)%float = true -> (0 + x)%float = x.
Proof.
  intros Hx. apply Prim2SF_inj. rewrite add_spec. revert Hx. rewrite ltb_spec.
  change (Prim2SF 0) with (S754_zero false). unfold SF64add.
  destruct (Prim2SF x) as [s | [] | | [] m e]; cbn; congruence.
Qed.

Lemma float_pos_truthy (x : float) : (0 <? x)%float = true -> num_truthy x = true.
Proof.
  intros Hx. unfold num_truthy. rewrite (float_pos_not_nan _ Hx), andb_true_r.
  apply negb_true_iff. revert Hx. rewrite ltb_spec, eqb_spec.
  change (Prim2SF 0) with (S754_zero false).
  destruct (Prim2SF x) as [s | [] | | [] m e]; cbn; congruence.
Qed.

Lemma costOfInput_zero_or_positive (H : Host) (costStr : option string) :
  costOfInput H costStr = 0%float \/ (0 <? costOfInput H costStr)%float = true.
Proof.
  unfold costOfInput. destruct costStr as [text |]; [| auto].
  destruct (str_truthy text); [| auto].
  destruct (PrimFloat.is_nan (parseFloat H text)); cbn; [auto |].
  destruct (0 <? parseFloat H text)%float eqn:Hgt; auto.
Qed.

(** X17. One fuel stop entered on a session without fuel entries, and
    the session ended right after: the record's [fuelLitres] is exactly
    the amount typed in (a valid one, above zero) and its [fuelCost] is
    exactly the cost the entry was given, that is the typed cost when it
    is above zero and 0 otherwise. *)
Theorem single_fuel_stop_round_trip (H : Host) (E : Env) (w : World) (s : SessionState)
    (amountStr : string) :
  currentSession w = Some s ->
  fuelLogs s = [] ->
  prompt_answer E (promptReads w) = Some amountStr ->
  str_truthy amountStr = true ->
  PrimFloat.is_nan (parseFloat H amountStr) = false ->
  (parseFloat H amountStr <=? 0)%float = false ->
  wellKeyedDB (database w) = true ->
  let w' := exec (endSession H E) (exec (addFuel H E) w) in
  exists record,
    canonical w' =
      canonical w ++ [LogRecord.with_id (IDB.nextKey (logs (database w))) record] /\
    LogRecord.fuelLitres record = parseFloat H amountStr /\
    LogRecord.fuelCost record = costOfInput H (prompt_answer E (S (promptReads w))).
Proof.
  intros Hs Hempty Hans Htruthy Hnan Hpos Hwf w'. subst w'.
  destruct (addFuel_appends H E w s amountStr Hs Hans Htruthy) as (la & lo & Hadd).
  { rewrite Hnan, Hpos. reflexivity. }
  set (ev := {| FuelEvent.time := Date_now E (clockReads w);
                FuelEvent.amount := parseFloat H amountStr;
                FuelEvent.cost := Some (costOfInput H (prompt_answer E (S (promptReads w))));
                FuelEvent.lat := la; FuelEvent.lng := lo |}) in *.
  set (w1 := exec (addFuel H E) w).
  assert (Hs1 : currentSession w1 = Some (set_fuelLogs (fuelLogs s ++ [ev]) s)).
  { unfold w1, exec. rewrite Hadd. reflexivity. }
  assert (Hdb1 : database w1 = database w) by (apply addFuel_frame).
  destruct (endSession_run H E w1 _ Hs1)
    as (endCoord & record & w2 & Hrun & Hdb2 & _ & _ & _ & _ & _ & _ & Hid & _
        & Hfl & Hfc & _).
  exists record.
  assert (Hw' : exec (endSession H E) w1 =
            set_currentSession None
              (afterPass E (exec (saveLog record (negb (onLine w1))) w2))).
  { unfold exec at 1. rewrite Hrun. reflexivity. }
  rewrite Hw'.
  assert (Hwf2 : wellKeyedDB (database w2) = true) by (rewrite Hdb2, Hdb1; exact Hwf).
  destruct (saveLog_stores record (negb (onLine w1)) w2 Hwf2 Hid) as (Hc & _).
  split.
  { unfold canonical in *.
    change (database (set_currentSession None
              (afterPass E (exec (saveLog record (negb (onLine w1))) w2))))
      with (database (afterPass E (exec (saveLog record (negb (onLine w1))) w2))).
    rewrite afterPass_canonical, Hc, Hdb2, Hdb1. reflexivity. }
  cbn [fuelLogs set_fuelLogs] in Hfl, Hfc. rewrite Hempty in Hfl, Hfc.
  cbn [app fold_left] in Hfl, Hfc. split.
  - rewrite Hfl. cbn [FuelEvent.amount ev]. apply float_zero_add_pos.
    apply float_valid_positive; assumption.
  - rewrite Hfc. unfold costOrZero. cbn [FuelEvent.cost ev].
    destruct (costOfInput_zero_or_positive H (prompt_answer E (S (promptReads w))))
      as [Hz | Hp].
    + rewrite Hz. reflexivity.
    + rewrite (float_pos_truthy _ Hp). apply float_zero_add_pos, Hp.
Qed.

Lemma single_fuel_stop_round_trip_witness :
  let E := withPrompts [Some "10.5"%string; Some "3000"%string] (sampleEnv []) in
  exists record,
    canonical (exec (endSession sampleHost E) (exec (addFuel sampleHost E) drivingWorld))
      = [LogRecord.with_id 1 record] /\
    LogRecord.fuelLitres record = 10.5%float /\
    LogRecord.fuelCost record = 3000%float.
Proof.
  intros E.
  destruct (single_fuel_stop_round_trip sampleHost E drivingWorld drivingSession "10.5"%string)
    as (record & Hc & Hl & Hcost); try reflexivity.
  exists record. split; [exact Hc | split; [exact Hl | rewrite Hcost; reflexivity]].
Defined.

Lemma sumIntervals_closed (E : Env) (l : list BreakLog.t) :
  allClosed l = true ->
  forall (sum : Z) (w : World),
    sumIntervals E l sum w =
      (Normal (fold_left (fun acc b =>
                 acc + (match closedAt b with Some e => e | None => 0 end - BreakLog.start b))
               l sum), w).
Proof.
  induction l as [| b rest IH]; intros Hall sum w; [reflexivity |].
  cbn [forallb] in Hall. apply andb_prop in Hall. destruct Hall as [Hb Hrest].
  cbn [sumIntervals fold_left]. unfold bind at 1.
  unfold closedAt, opt_int_truthy in *.
  destruct (BreakLog.end_ b) as [e |]; [| discriminate Hb].
  destruct (e =? 0); [discriminate Hb |]. cbn [negb ret].
  apply IH. exact Hrest.
Qed.

Lemma fold_sum_shift (f : BreakLog.t -> Z) (l : list BreakLog.t) (sum : Z) :
  fold_left (fun acc b => acc + f b) l sum = sum + fold_left (fun acc b => acc + f b) l 0.
Proof.
  revert sum. induction l as [| b rest IH]; intros sum; cbn [fold_left]; [lia |].
  rewrite IH, (IH (0 + f b)). lia.
Qed.

(** X18. [totalBreakMs] of a session whose breaks are all closed is the
    sum of their [end - start], obtained without reading the clock; it
    is not negative when no break ends before it starts. With one more
    break still open at the end of the list, the time from its start to
    the clock's reading is added, and the clock is read exactly once.
    (A break counts as closed here when its [end] is set and is not 0.) *)
Theorem totalBreakMs_of_closed_breaks (E : Env) (session : SessionState) (w : World) :
  allClosed (breaks session) = true ->
  totalBreakMs E session w = (Normal (closedTotal (breaks session)), w) /\
  (forallb (fun b => match closedAt b with
                     | Some e => BreakLog.start b <=? e
                     | None => false
                     end) (breaks session) = true ->
   0 <= closedTotal (breaks session)) /\
  (forall running,
     closedAt running = None ->
     totalBreakMs E (set_breaks (breaks session ++ [running]) session) w =
       (Normal (closedTotal (breaks session)
                + (Date_now E (clockReads w) - BreakLog.start running)),
        set_clockReads (S (clockReads w)) w)).
Proof.
  intros Hclosed. unfold totalBreakMs, closedTotal. split; [| split].
  - apply sumIntervals_closed. exact Hclosed.
  - clear Hclosed. induction (breaks session) as [| b rest IH]; [cbn; lia |].
    cbn [forallb fold_left]. intros Hall. apply andb_prop in Hall.
    destruct Hall as [Hb Hrest]. rewrite fold_sum_shift. specialize (IH Hrest).
    destruct (closedAt b) as [e |]; [| discriminate Hb]. apply Z.leb_le in Hb. lia.
  - intros running Hopen. cbn [breaks set_breaks].
    revert Hclosed. generalize 0 at 1 3. generalize w.
    induction (breaks session) as [| b rest IH]; intros w0 sum Hclosed.
    + cbn [app sumIntervals fold_left]. unfold bind, dateNow.
      unfold closedAt in Hopen. unfold opt_int_truthy.
      destruct (BreakLog.end_ running) as [e |]; [| reflexivity].
      destruct (e =? 0); [reflexivity | discriminate Hopen].
    + cbn [forallb] in Hclosed. apply andb_prop in Hclosed. destruct Hclosed as [Hb Hrest].
      cbn [app sumIntervals fold_left]. unfold bind at 1.
      unfold closedAt, opt_int_truthy in Hb |- *.
      destruct (BreakLog.end_ b) as [e |]; [| discriminate Hb].
      destruct (e =? 0); [discriminate Hb |]. cbn [negb ret].
      apply IH. exact Hrest.
Qed.

Lemma totalBreakMs_of_closed_breaks_witness :
  let s := set_breaks [closedInterval 1000 61000; closedInterval 70000 190000] drivingSession in
  totalBreakMs (sampleEnv []) s drivingWorld = (Normal 180000, drivingWorld).
Proof.
  intros s.
  apply (proj1 (totalBreakMs_of_closed_breaks (sampleEnv []) s drivingWorld eq_refl)).
Defined.


(** X19. An update that reports the very place of the last accepted
    point (finite coordinates, any timestamp) is at distance exactly 0
    from it and is dropped: the world stays as it was. This holds with
    the values ECMAScript prescribes for [Math.sin(0)], [0 ** 2],
    [Math.sqrt(0)], [Math.sqrt(1)] and [Math.atan2(0, 1)] and a cosine
    that is finite at the point's latitude. *)
Theorem fix_at_the_same_place_is_dropped (H : Host) (coord last_coord : Coordinate)
    (w : World) (s : SessionState) :
  currentSession w = Some s ->
  lastOf (coords s) = Some last_coord ->
  lat coord = lat last_coord ->
  lng coord = lng last_coord ->
  finiteFloat (lat last_coord) = true ->
  finiteFloat (lng last_coord) = true ->
  Math_sin (math H) 0%float = 0%float ->
  Math_pow (math H) 0%float 2%float = 0%float ->
  finiteFloat (Math_cos (math H) (toRadians (lat last_coord))) = true ->
  Math_sqrt (math H) 0%float = 0%float ->
  Math_sqrt (math H) 1%float = 1%float ->
  Math_atan2 (math H) 0%float 1%float = 0%float ->
  haversineDistance (math H) last_coord coord = 0%float /\
  handleLocationUpdate H coord w = (Normal tt, w).
Proof.
  intros Hs Hlast Hla Hlo Hflat Hflng Hsin Hpow Hcos Hsqrt0 Hsqrt1 Hatan.
  assert (Hd : haversineDistance (math H) last_coord coord = 0%float).
  { transitivity (haversineDistance (math H) last_coord last_coord).
    - unfold haversineDistance. rewrite Hla, Hlo. reflexivity.
    - apply haversineDistance_self; assumption. }
  split; [exact Hd |].
  rewrite (handleLocationUpdate_run H coord last_coord w s Hs Hlast), Hd. reflexivity.
Qed.

Lemma fix_at_the_same_place_is_dropped_witness :
  let again := {| lat := 35%float; lng := 139%float; timestamp := 99000 |} in
  handleLocationUpdate sampleHost again drivingWorld = (Normal tt, drivingWorld).
Proof.
  intros again.
  apply (fix_at_the_same_place_is_dropped sampleHost again
           {| lat := 35%float; lng := 139%float; timestamp := 0 |}
           drivingWorld drivingSession); reflexivity.
Defined.

(** X20. An update whose distance from the last accepted point comes out
    as NaN (a NaN coordinate, or the difference of two infinite ones) fails
    the 50-metre test and is dropped without a trace: the distance and the
    track stay as they were and nothing is thrown. *)
Theorem nan_distance_is_dropped (H : Host) (coord last_coord : Coordinate)
    (w : World) (s : SessionState) :
  currentSession w = Some s ->
  lastOf (coords s) = Some last_coord ->
  PrimFloat.is_nan (haversineDistance (math H) last_coord coord) = true ->
  handleLocationUpdate H coord w = (Normal tt, w).
Proof.
  intros Hs Hlast Hnan.
  rewrite (handleLocationUpdate_run H coord last_coord w s Hs Hlast).
  replace (50 <=? haversineDistance (math H) last_coord coord * 1000)%float with false;
    [reflexivity |].
  symmetry. rewrite leb_spec, mul_spec, (float_is_nan _ Hnan). reflexivity.
Qed.

Lemma nan_distance_is_dropped_witness :
  let lost := {| lat := nan; lng := 139%float; timestamp := 99000 |} in
  handleLocationUpdate sampleHost lost drivingWorld = (Normal tt, drivingWorld).
Proof.
  intros lost.
  apply (nan_distance_is_dropped sampleHost lost
           {| lat := 35%float; lng := 139%float; timestamp := 0 |}
           drivingWorld drivingSession); reflexivity.
Defined.

(* ================================================================== *)
(** * Durations on the screen *)

(** X21. For a duration that is not negative [formatDuration] shows
    hours, minutes below 60 and seconds below 60 that add up to the whole
    seconds of the duration; milliseconds beyond the last whole second
    are dropped. For a negative duration down to one second below zero
    every one of the three numbers is shown as -1. *)
Theorem formatDuration_parts (ms : Z) :
  (0 <= ms ->
   exists h m s,
     formatDuration ms =
       (intToString h ++ "時間" ++ intToString m ++ "分" ++ intToString s ++ "秒")%string /\
     0 <= h /\ 0 <= m < 60 /\ 0 <= s < 60 /\
     1000 * (3600 * h + 60 * m + s) <= ms < 1000 * (3600 * h + 60 * m + s) + 1000) /\
  (-1000 <= ms < 0 -> formatDuration ms = "-1時間-1分-1秒"%string).
Proof.
  split.
  - intros Hms. unfold formatDuration. cbv zeta.
    exists (ms / 1000 / 3600), (Z.rem (ms / 1000) 3600 / 60), (Z.rem (ms / 1000) 60).
    split; [reflexivity |].
    assert (Hsec : 0 <= ms / 1000) by (apply Z.div_pos; lia).
    rewrite !Z.rem_mod_nonneg by lia.
    pose proof (Z.div_mod ms 1000 ltac:(lia)) as Hdm.
    pose proof (Z.mod_pos_bound ms 1000 ltac:(lia)) as Hmb.
    set (t := ms / 1000) in *.
    pose proof (Z.div_mod t 3600 ltac:(lia)) as Hh.
    pose proof (Z.mod_pos_bound t 3600 ltac:(lia)) as Hhb.
    pose proof (Z.div_mod (t mod 3600) 60 ltac:(lia)) as Hm.
    pose proof (Z.mod_pos_bound (t mod 3600) 60 ltac:(lia)) as Hmb2.
    assert (Hs : (t mod 3600) mod 60 = t mod 60).
    { apply Z.mod_mod_divide. exists 60. reflexivity. }
    rewrite Hs in Hm.
    pose proof (Z.mod_pos_bound t 60 ltac:(lia)) as Hsb.
    assert (0 <= t / 3600) by (apply Z.div_pos; lia).
    assert (0 <= t mod 3600 / 60) by (apply Z.div_pos; lia).
    assert (t mod 3600 / 60 < 60) by (apply Z.div_lt_upper_bound; lia).
    repeat split; lia.
  - intros Hms. unfold formatDuration. cbv zeta.
    replace (ms / 1000) with (-1); [reflexivity |].
    apply Z.div_unique with (r := ms + 1000); lia.
Qed.

Lemma formatDuration_parts_witness :
  (exists h m s,
     formatDuration 3725999 =
       (intToString h ++ "時間" ++ intToString m ++ "分" ++ intToString s ++ "秒")%string /\
     0 <= h /\ 0 <= m < 60 /\ 0 <= s < 60 /\
     1000 * (3600 * h + 60 * m + s) <= 3725999 < 1000 * (3600 * h + 60 * m + s) + 1000) /\
  formatDuration (-1) = "-1時間-1分-1秒"%string.
Proof.
  split.
  - apply (proj1 (formatDuration_parts 3725999)). lia.
  - apply (proj2 (formatDuration_parts (-1))). lia.
Defined.

(** X22. For a whole number of minutes that is not negative
    [formatMinutes] shows hours and minutes below 60 that add up to it
    exactly. *)
Theorem formatMinutes_parts (min : Z) :
  0 <= min ->
  exists h m,
    formatMinutes min = (intToString h ++ "時間" ++ intToString m ++ "分")%string /\
    0 <= h /\ 0 <= m < 60 /\ 60 * h + m = min.
Proof.
  intros Hmin. unfold formatMinutes. cbv zeta.
  exists (min / 60), (Z.rem min 60). split; [reflexivity |].
  rewrite Z.rem_mod_nonneg by lia.
  pose proof (Z.div_mod min 60 ltac:(lia)).
  pose proof (Z.mod_pos_bound min 60 ltac:(lia)).
  assert (0 <= min / 60) by (apply Z.div_pos; lia).
  repeat split; lia.
Qed.

Lemma formatMinutes_parts_witness :
  exists h m,
    formatMinutes 135 = (intToString h ++ "時間" ++ intToString m ++ "分")%string /\
    0 <= h /\ 0 <= m < 60 /\ 60 * h + m = 135.
Proof.
  apply (formatMinutes_parts 135). lia.
Defined.

(* ================================================================== *)
(** * Coordinates typed in by hand *)

(** X23. Whenever [promptForCoords] hands back a position, neither
    number of it is NaN, and it is what the last line typed reads as: a
    line of exactly two comma-separated parts. Every line typed before it
    was answered with exactly one alert, and nothing but the prompt count
    and the alerts has changed. *)
Theorem promptForCoords_never_nan (H : Host) (E : Env) (fuel : nat) (w w' : World)
    (p : float * float) :
  promptForCoords H E fuel w = (Normal (Some p), w') ->
  PrimFloat.is_nan (fst p) = false /\
  PrimFloat.is_nan (snd p) = false /\
  exists retries shown input,
    List.length shown = retries /\
    w' = afterPrompts retries shown w /\
    prompt_answer E (promptReads w + retries) = Some input /\
    List.length (splitComma input) = 2%nat /\
    readCoords H input = Some p.
Proof.
  revert w. induction fuel as [| fuel IH]; intros w Hrun; [discriminate Hrun |].
  rewrite promptForCoords_step in Hrun.
  destruct (prompt_answer E (promptReads w)) as [input |] eqn:Hans; [| discriminate Hrun].
  destruct input as [| c rest]; [discriminate Hrun |].
  destruct (readCoords H (String c rest)) as [q |] eqn:Hread.
  - injection Hrun as <- <-.
    destruct (readCoords_not_nan H _ _ Hread) as (Hla & Hlo & Hparts).
    split; [exact Hla |]. split; [exact Hlo |].
    exists 0%nat, [], (String c rest). rewrite Nat.add_0_r. auto.
  - destruct (IH _ Hrun) as (Hla & Hlo & retries & shown & input & Hlen & Hw' & Hin & Hparts & Hrd).
    split; [exact Hla |]. split; [exact Hlo |].
    exists (S retries), (complaint (String c rest) :: shown), input.
    split; [cbn; congruence |]. split; [rewrite Hw'; apply afterPrompts_next |].
    split; [| auto].
    rewrite <- Hin. f_equal. unfold afterPrompts. cbn. lia.
Qed.

Lemma promptForCoords_never_nan_witness :
  let E := withPrompts [Some "10.5"%string; Some "10.5,x"%string; Some "10.5,3000"%string]
             (sampleEnv []) in
  PrimFloat.is_nan 10.5%float = false /\ PrimFloat.is_nan 3000%float = false /\
  exists retries shown input,
    List.length shown = retries /\
    snd (promptForCoords sampleHost E 5 (freshWorld true))
      = afterPrompts retries shown (freshWorld true) /\
    prompt_answer E (promptReads (freshWorld true) + retries) = Some input /\
    List.length (splitComma input) = 2%nat /\
    readCoords sampleHost input = Some (10.5%float, 3000%float).
Proof.
  intros E.
  apply (promptForCoords_never_nan sampleHost E 5 (freshWorld true)
           (snd (promptForCoords sampleHost E 5 (freshWorld true)))
           (10.5%float, 3000%float)).
  vm_compute. reflexivity.
Defined.

(** X24. [promptForCoords] keeps asking until it can read a line or the
    user gives up: after any number of unreadable lines, each answered
    with one alert, a readable line is returned as the position, and a
    cancelled or empty prompt throws the cancellation error. Either way
    one more prompt was shown than alerts. *)
Theorem promptForCoords_asks_again (H : Host) (E : Env) (retries fuel : nat) (w : World) :
  (retries < fuel)%nat ->
  (forall i, (i < retries)%nat ->
     exists input, prompt_answer E (promptReads w + i) = Some input /\
                   input <> EmptyString /\ readCoords H input = None) ->
  exists shown,
    List.length shown = retries /\
    (forall input p,
       prompt_answer E (promptReads w + retries) = Some input ->
       readCoords H input = Some p ->
       promptForCoords H E fuel w = (Normal (Some p), afterPrompts retries shown w)) /\
    (prompt_answer E (promptReads w + retries) = None \/
     prompt_answer E (promptReads w + retries) = Some EmptyString ->
     promptForCoords H E fuel w =
       (Thrown "緯度・経度の入力がキャンセルされました"%string, afterPrompts retries shown w)).
Proof.
  intros Hfuel Hbad.
  destruct (promptForCoords_after_retries H E retries fuel w Hfuel Hbad)
    as (shown & Hlen & _ & Hgood & Hstop).
  exists shown. auto.
Qed.

Lemma promptForCoords_asks_again_witness :
  let E := withPrompts [Some "10.5"%string; Some "10.5,x"%string; Some "10.5,3000"%string]
             (sampleEnv []) in
  exists shown,
    List.length shown = 2%nat /\
    promptForCoords sampleHost E 3 (freshWorld true) =
      (Normal (Some (10.5%float, 3000%float)), afterPrompts 2 shown (freshWorld true)).
Proof.
  intros E.
  destruct (promptForCoords_asks_again sampleHost E 2 3 (freshWorld true)) as (shown & Hlen & Hgood & _).
  - lia.
  - intros [| [| i]] Hi; [| | lia].
    + exists "10.5"%string. repeat split; [discriminate].
    + exists "10.5,x"%string. repeat split; [discriminate].
  - exists shown. split; [exact Hlen |].
    apply (Hgood "10.5,3000"%string); reflexivity.
Defined.

(* ================================================================== *)
(** * The spreadsheet script *)

Lemma doPost_readable (JSON_parse : string -> option Json) (contents : string) (sheet : Sheet) :
  readable JSON_parse contents = true ->
  doPost JSON_parse contents sheet =
    (Normal (ReplyOk (S (List.length sheet))),
     sheet ++ [rowOf (parsed JSON_parse contents)]).
Proof.
  unfold readable, parsed, doPost, getLastRow, appendRow.
  destruct (JSON_parse contents) as [[] |]; try discriminate; intros _;
    rewrite length_app, Nat.add_1_r; reflexivity.
Qed.

Lemma orElse_filled (value : option Json) (fallback : Json) :
  filled fallback (orElse value fallback).
Proof.
  unfold filled, orElse. destruct value as [v |]; [| right; reflexivity].
  destruct (json_truthy v) eqn:Hv; [left; exact Hv | right; reflexivity].
Qed.

(** X25. Every post whose body parses to something other than [null]
    adds exactly one row of fifteen cells below everything already in the
    sheet and is answered with that row's number; nothing is compared with
    the rows already there, so the same body posted again gives the same
    row again. The answers of a series of such posts carry consecutive
    row numbers, and the rows appear in the order of the posts. *)
Theorem doPosts_append_in_order (JSON_parse : string -> option Json)
    (bodies : list string) (sheet : Sheet) :
  forallb (readable JSON_parse) bodies = true ->
  doPosts JSON_parse bodies sheet =
    (map (fun i => Normal (ReplyOk (List.length sheet + S i))) (seq 0 (List.length bodies)),
     sheet ++ map (fun contents => rowOf (parsed JSON_parse contents)) bodies) /\
  Forall (fun row => List.length row = 15%nat)
         (map (fun contents => rowOf (parsed JSON_parse contents)) bodies).
Proof.
  intros Hall. split.
  - revert sheet Hall. induction bodies as [| contents later IH]; intros sheet Hall.
    + cbn. rewrite app_nil_r. reflexivity.
    + cbn [forallb] in Hall. apply andb_prop in Hall. destruct Hall as [Hc Hlater].
      cbn [doPosts]. rewrite (doPost_readable _ _ _ Hc), (IH _ Hlater).
      cbn [List.length seq map]. rewrite <- seq_shift, map_map, <- app_assoc.
      cbn [app]. f_equal.
      * f_equal; [rewrite Nat.add_1_r; reflexivity |].
        apply map_ext. intros i. rewrite length_app. cbn [List.length].
        do 2 f_equal. lia.
  - apply Forall_forall. intros row Hrow. apply in_map_iff in Hrow.
    destruct Hrow as (contents & <- & _). reflexivity.
Qed.

Lemma doPosts_append_in_order_witness :
  doPosts sampleParse ["{date,km,km}"; "[]"; "{date,km,km}"]%string [headerRow] =
    ([Normal (ReplyOk 2); Normal (ReplyOk 3); Normal (ReplyOk 4)],
     [headerRow; rowOf (parsed sampleParse "{date,km,km}"); rowOf (JArr []);
      rowOf (parsed sampleParse "{date,km,km}")]).
Proof.
  apply (proj1 (doPosts_append_in_order sampleParse
                  ["{date,km,km}"; "[]"; "{date,km,km}"]%string [headerRow] eq_refl)).
Defined.

(** X26. A post that does not add a row leaves the sheet exactly as it
    was: a body that is not JSON is answered with the error
    [Invalid JSON], and the body [null] makes the script fail while it
    reads the first field. A body that is JSON but no object (a number, a
    string, an array) is accepted and gives a row of defaults only. *)
Theorem doPost_without_a_record (JSON_parse : string -> option Json)
    (contents : string) (sheet : Sheet) :
  (JSON_parse contents = None ->
   doPost JSON_parse contents sheet = (Normal (ReplyError "Invalid JSON"), sheet)) /\
  (JSON_parse contents = Some JNull ->
   exists message, doPost JSON_parse contents sheet = (Thrown message, sheet)) /\
  (forall data, JSON_parse contents = Some data ->
     data <> JNull -> (forall members, data <> JObj members) ->
     doPost JSON_parse contents sheet =
       (Normal (ReplyOk (S (List.length sheet))),
        sheet ++ [[JStr EmptyString; JStr EmptyString; JStr EmptyString; JStr EmptyString;
                   JStr EmptyString; JNum 0; JNum 0; JNum 0; JNum 0; JNum 0; JNum 0;
                   JNum 0; JNum 0; JNum 0; JStr EmptyString]])).
Proof.
  split; [| split].
  - intros Hp. unfold doPost. rewrite Hp. reflexivity.
  - intros Hp. unfold doPost. rewrite Hp. eexists. reflexivity.
  - intros data Hp Hnull Hobj.
    assert (Hr : readable JSON_parse contents = true).
    { unfold readable. rewrite Hp. destruct data; congruence. }
    rewrite (doPost_readable _ _ _ Hr). unfold parsed. rewrite Hp.
    destruct data; try reflexivity.
    contradiction (Hobj members); reflexivity.
Qed.

Lemma doPost_without_a_record_witness :
  doPost sampleParse "{date"%string [headerRow] = (Normal (ReplyError "Invalid JSON"), [headerRow]) /\
  exists message, doPost sampleParse "null"%string [headerRow] = (Thrown message, [headerRow]).
Proof.
  split.
  - apply (proj1 (doPost_without_a_record sampleParse "{date"%string [headerRow])). reflexivity.
  - apply (proj1 (proj2 (doPost_without_a_record sampleParse "null"%string [headerRow]))).
    reflexivity.
Defined.

(** X27. No cell the script writes is [null], [false], NaN or an empty
    string unless that is the column's default: a text column holds a
    truthy value or the empty string, a number column a truthy value or
    0. Of two members with one name the later one is written, and members
    the script does not name, the record's [id] among them, reach no
    cell. *)
Theorem doPost_row_cells (data : Json) :
  Forall2 filled
    [JStr EmptyString; JStr EmptyString; JStr EmptyString; JStr EmptyString;
     JStr EmptyString; JNum 0; JNum 0; JNum 0; JNum 0; JNum 0; JNum 0;
     JNum 0; JNum 0; JNum 0; JStr EmptyString]
    (rowOf data) /\
  (forall members value,
     data = JObj members ->
     rowOf (JObj (members ++ [("id"%string, value)])) = rowOf data) /\
  (forall members name earlier later,
     data = JObj (members ++ [(name, later)]) ->
     rowOf (JObj ((name, earlier) :: members ++ [(name, later)])) = rowOf data).
Proof.
  split; [| split].
  - unfold rowOf. repeat (constructor; [apply orElse_filled |]). constructor.
  - intros members value ->. unfold rowOf, member.
    rewrite !fold_left_app. reflexivity.
  - intros members name earlier later ->. unfold rowOf, member.
    cbn [fold_left fst snd].
    assert (Hm : forall field start,
              fold_left (fun found kv =>
                           if String.eqb (fst kv) field then Some (snd kv) else found)
                        (members ++ [(name, later)])
                        (if String.eqb name field then Some earlier else start) =
              fold_left (fun found kv =>
                           if String.eqb (fst kv) field then Some (snd kv) else found)
                        (members ++ [(name, later)]) start).
    { intros field start. rewrite !fold_left_app. cbn [fold_left fst snd].
      destruct (String.eqb name field) eqn:Hn; [reflexivity | reflexivity]. }
    rewrite !Hm. reflexivity.
Qed.

Lemma doPost_row_cells_witness :
  rowOf (JObj [("distanceKm", JNum 3); ("date", JStr "2024-05-01"); ("distanceKm", JNum 12.5);
               ("id", JNum 7)]%string) =
  rowOf (JObj [("date", JStr "2024-05-01"); ("distanceKm", JNum 12.5)]%string).
Proof.
  etransitivity.
  - apply (proj1 (proj2 (doPost_row_cells
              (JObj [("distanceKm", JNum 3); ("date", JStr "2024-05-01");
                     ("distanceKm", JNum 12.5)]%string)))
             [("distanceKm", JNum 3); ("date", JStr "2024-05-01");
              ("distanceKm", JNum 12.5)]%string (JNum 7)).
    reflexivity.
  - apply (proj2 (proj2 (doPost_row_cells
              (JObj [("date", JStr "2024-05-01"); ("distanceKm", JNum 12.5)]%string)))
             [("date", JStr "2024-05-01")]%string "distanceKm"%string (JNum 3) (JNum 12.5)).
    reflexivity.
Defined.

(** X28. [onOpen] writes the header row only into a sheet without
    content, so opening the sheet again changes nothing, and neither does
    opening it after a post. A post that arrives before the sheet was
    first opened therefore lands in row 1, and the header is never
    written. *)
Theorem onOpen_writes_the_header_once (JSON_parse : string -> option Json)
    (contents : string) (sheet : Sheet) :
  onOpen (onOpen sheet) = onOpen sheet /\
  (sheet <> [] -> onOpen sheet = sheet) /\
  onOpen [] = [headerRow] /\
  (readable JSON_parse contents = true ->
   doPost JSON_parse contents [] =
     (Normal (ReplyOk 1), [rowOf (parsed JSON_parse contents)]) /\
   onOpen (snd (doPost JSON_parse contents sheet)) = snd (doPost JSON_parse contents sheet)).
Proof.
  assert (Hfull : forall sh : Sheet, sh <> [] -> onOpen sh = sh).
  { intros [| row rows] Hne; [contradiction Hne; reflexivity | reflexivity]. }
  split; [| split; [exact (Hfull sheet) | split; [reflexivity |]]].
  - destruct sheet as [| row rows]; reflexivity.
  - intros Hr. split; [apply (doPost_readable JSON_parse contents [] Hr) |].
    rewrite (doPost_readable _ _ _ Hr). cbn [snd]. apply Hfull.
    destruct sheet; discriminate.
Qed.

Lemma onOpen_writes_the_header_once_witness :
  doPost sampleParse "{date,km,km}"%string [] =
    (Normal (ReplyOk 1), [rowOf (parsed sampleParse "{date,km,km}")]) /\
  onOpen (snd (doPost sampleParse "{date,km,km}"%string [])) =
    snd (doPost sampleParse "{date,km,km}"%string []).
Proof.
  apply (proj2 (proj2 (proj2 (onOpen_writes_the_header_once sampleParse
                                "{date,km,km}"%string [])))).
  reflexivity.
Defined.

(* ================================================================== *)
(** * The times and the arrival in the record *)

(** X29. For a session whose breaks and rests are all closed the record
    reports as [breakMinutes] the whole minutes of the breaks alone, and
    as [drivingMinutes] the whole minutes (rounded towards minus
    infinity) of the time since the start less the breaks and less the
    rests. Rests are thus deducted from the driving time without being
    reported as breaks, and time that lies in a break and in a rest at
    once is deducted twice. The clock is read twice while the record is
    built. *)
Theorem record_time_accounting (H : Host) (E : Env) (s : SessionState)
    (endCoord : Coordinate) (w : World) :
  allClosed (breaks s) = true ->
  allClosed (rests s) = true ->
  exists record w',
    composeRecord H E s endCoord w = (Normal record, w') /\
    clockReads w' = S (S (clockReads w)) /\
    LogRecord.breakMinutes record = closedTotal (breaks s) / 60000 /\
    LogRecord.drivingMinutes record =
      (Date_now E (clockReads w) - startTime s
       - closedTotal (breaks s) - closedTotal (rests s)) / 60000.
Proof.
  intros Hb Hr. unfold composeRecord, totalBreakMs, totalRestMs.
  unfold bind at 1. rewrite (sumIntervals_closed E _ Hb).
  unfold bind at 1. rewrite (sumIntervals_closed E _ Hr).
  unfold bind, dateNow, prompt, ret.
  do 2 eexists. split; [reflexivity |]. cbn. repeat split.
Qed.

Lemma record_time_accounting_witness :
  let s := set_rests [closedInterval 1000 61000]
             (set_breaks [closedInterval 1000 61000] drivingSession) in
  exists record w',
    composeRecord sampleHost (sampleEnv []) s
      {| lat := 35%float; lng := 139%float; timestamp := 0 |}
      (set_clockReads 61 drivingWorld) = (Normal record, w') /\
    LogRecord.breakMinutes record = 1 /\
    LogRecord.drivingMinutes record = -1.
Proof.
  intros s.
  destruct (record_time_accounting sampleHost (sampleEnv []) s
              {| lat := 35%float; lng := 139%float; timestamp := 0 |}
              (set_clockReads 61 drivingWorld) eq_refl eq_refl)
    as (record & w' & Hrun & _ & Hbm & Hdm).
  exists record, w'. split; [exact Hrun |]. rewrite Hbm, Hdm. split; reflexivity.
Defined.

(** X30. When no position can be had at the end (the device gives none
    and the manual entry ends without one, the prompt being cancelled)
    [endSession] still completes: the record is stored with arrival
    latitude and longitude 0, the watch is cleared and the application is
    idle again. *)
Theorem endSession_without_final_position (H : Host) (E : Env) (w : World)
    (s : SessionState) :
  currentSession w = Some s ->
  located H E w = None ->
  wellKeyedDB (database w) = true ->
  let w' := exec (endSession H E) w in
  exists record,
    completion (endSession H E) w = Normal tt /\
    currentSession w' = None /\
    canonical w' =
      canonical w ++ [LogRecord.with_id (IDB.nextKey (logs (database w))) record] /\
    LogRecord.arrivalLat record = 0%float /\
    LogRecord.arrivalLng record = 0%float /\
    LogRecord.distanceKm record = parseFloat H (toFixed H (distance s) 3).
Proof.
  intros Hs Hp Hwf w'. subst w'.
  destruct (endSession_run H E w s Hs)
    as (endCoord & record & w2 & Hrun & Hdb & _ & _ & _ & _ & _ & Hec & Hid & Hkm
        & _ & _ & _ & _ & Hala & Halo).
  exists record. unfold completion, exec. rewrite Hrun. cbn [fst snd].
  split; [reflexivity |]. split; [reflexivity |].
  assert (Hwf2 : wellKeyedDB (database w2) = true) by (rewrite Hdb; exact Hwf).
  destruct (saveLog_stores record (negb (onLine w)) w2 Hwf2 Hid) as (Hc & _).
  split.
  { unfold canonical in *. cbn [database set_currentSession].
    rewrite afterPass_canonical, Hc, Hdb. reflexivity. }
  rewrite Hp in Hec. rewrite Hala, Halo, Hec. auto.
Qed.

Lemma endSession_without_final_position_witness :
  exists record,
    canonical (exec (endSession sampleHost noFixEnv) drivingWorld) = [LogRecord.with_id 1 record] /\
    LogRecord.arrivalLat record = 0%float /\ LogRecord.arrivalLng record = 0%float.
Proof.
  destruct (endSession_without_final_position sampleHost noFixEnv drivingWorld drivingSession
              eq_refl eq_refl eq_refl)
    as (record & _ & _ & Hc & Hla & Hlo & _).
  exists record. split; [exact Hc | split; [exact Hla | exact Hlo]].
Defined.
